(** * squashfs-tools-ng: meta data blocks and file reconstruction

    A shallow embedding of

    - [lib/sqfshelper/data_reader_dump.c] ([sqfs_data_reader_dump]),
    - [include/sqfs/meta_reader.h] ([sqfs_readdir_state_t],
      [sqfs_readdir_state_reset] and the declared reader interface),
    - [meta_writer.h] (the declared writer interface),

    together with the properties the design document states about them. *)

From Stdlib Require Import ZArith List Lia Bool.
From Stdlib Require Import Strings.Byte.
Import ListNotations.
Local Open Scope Z_scope.

(** ** Machine integers and bytes *)

Definition byte := Byte.byte.

(** [uint64_t] arithmetic: results are reduced modulo 2^64. *)
Definition wrap64 (z : Z) : Z := z mod 2 ^ 64.

(** [sqfs_u32] arithmetic: results are reduced modulo 2^32. *)
Definition wrap32 (z : Z) : Z := z mod 2 ^ 32.

Definition Z_of_byte (b : byte) : Z := Z.of_N (Byte.to_N b).

Definition byte_of_Z (z : Z) : byte :=
  match Byte.of_N (Z.to_N (z mod 256)) with
  | Some b => b
  | None => Byte.x00
  end.

Definition zeros (n : nat) : list byte := repeat Byte.x00 n.

Definition len {A : Type} (l : list A) : Z := Z.of_nat (List.length l).

(** ** File reconstruction: [sqfs_data_reader_dump] *)

Module Dump.

(** [sqfs_block_t]: [size] bytes of [data]; the list is the [size] bytes that
    [write_data] is handed. *)
Definition sqfs_block_t := list byte.

Definition blk_size (b : sqfs_block_t) : Z := len b.

(** The part of [sqfs_inode_generic_t] a file inode carries and the routine
    reads: [sqfs_inode_get_file_size] and [block_sizes[0 .. num_file_blocks)]. *)
Record sqfs_inode_generic_t := {
  file_size : Z;
  block_sizes : list Z
}.

Definition num_file_blocks (inode : sqfs_inode_generic_t) : nat :=
  List.length (block_sizes inode).

(** What a fetch hands back: a block the caller owns, or a non-zero error. *)
Inductive fetch :=
| Fetched (blk : sqfs_block_t)
| FetchFailed (err : Z).

(** [sqfs_data_reader_t] as the routine sees it.  Within one call every block
    index is fetched at most once and the fragment at most once, so a function
    of the index describes any behaviour of the reader during a call. *)
Record sqfs_data_reader_t := {
  sqfs_data_reader_get_block : sqfs_inode_generic_t -> nat -> fetch;
  sqfs_data_reader_get_fragment : sqfs_inode_generic_t -> fetch
}.

(** The output descriptor: [ftruncate], [lseek (.., SEEK_CUR)] and the
    [write_data] helper (the text it is passed only labels its own
    diagnostic).  Each returns the descriptor's new state and whether the call
    succeeded; a failed call may still have changed the file. *)
Class Sink (S : Type) := {
  ftruncate : S -> Z -> S * bool;
  lseek_cur : S -> Z -> S * bool;
  write_data : S -> list byte -> S * bool
}.

(** Which allocation a [free] releases: the block fetched for index [i], or the
    fragment block. *)
Inductive blk_ref :=
| BlkData (i : nat)
| BlkFrag.

(** The three diagnostics the routine prints itself:
    ["error reading data block: %d"], ["error reading fragment block"] and
    [perror ("creating sparse output file")]. *)
Inductive message :=
| MsgReadBlock (err : Z)
| MsgReadFragment
| MsgSparse.

(** The calls the routine makes, in order, with their outcomes. *)
Inductive event :=
| EvFtruncate (size : Z) (ok : bool)
| EvLseek (diff : Z) (ok : bool)
| EvGetBlock (i : nat) (r : fetch)
| EvGetFragment (r : fetch)
| EvWrite (data : list byte) (ok : bool)
| EvFree (r : blk_ref)
| EvStderr (m : message).

(** The locals that live across statements: the descriptor, [filesz], and the
    calls made so far. *)
Record state (Fd : Type) := mkState {
  outfd : Fd;
  filesz : Z;
  log : list event
}.
Arguments mkState {Fd}.
Arguments outfd {Fd}.
Arguments filesz {Fd}.
Arguments log {Fd}.

(** A statement either falls through or returns from the function. *)
Inductive flow (A : Type) :=
| Continue (a : A)
| Return (rc : Z) (a : A).
Arguments Continue {A}.
Arguments Return {A}.

Section Routine.

Context {Fd : Type} `{Sink Fd}.

(** [SQFS_IS_SPARSE_BLOCK]: the macro is defined in a header that is not part
    of the sources at hand; it is a parameter of the development. *)
Variable SQFS_IS_SPARSE_BLOCK : Z -> bool.

Variable data : sqfs_data_reader_t.
Variable inode : sqfs_inode_generic_t.
Variable block_size : Z.
Variable allow_sparse : bool.

(** [fail_sparse: perror (..); return -1;] *)
Definition fail_sparse (st : state Fd) : flow (state Fd) :=
  Return (-1) (mkState (outfd st) (filesz st) (log st ++ [EvStderr MsgSparse])).

(** The body of the [for] loop for index [i] with [entry = block_sizes[i]]. *)
Definition dump_block (i : nat) (entry : Z) (st : state Fd) : flow (state Fd) :=
  if SQFS_IS_SPARSE_BLOCK entry && allow_sparse then
    let '(diff, rest) :=
      if filesz st <? block_size
      then (filesz st, 0)
      else (block_size, wrap64 (filesz st - block_size)) in
    let '(fd, ok) := lseek_cur (outfd st) diff in
    if ok
    then Continue (mkState fd rest (log st ++ [EvLseek diff true]))
    else fail_sparse (mkState fd rest (log st ++ [EvLseek diff false]))
  else
    match sqfs_data_reader_get_block data inode i with
    | FetchFailed err =>
        Return (-1)
          (mkState (outfd st) (filesz st)
             (log st ++ [EvGetBlock i (FetchFailed err);
                         EvStderr (MsgReadBlock err)]))
    | Fetched blk =>
        let '(fd, ok) := write_data (outfd st) blk in
        if ok
        then Continue
               (mkState fd (wrap64 (filesz st - blk_size blk))
                  (log st ++ [EvGetBlock i (Fetched blk);
                              EvWrite blk true; EvFree (BlkData i)]))
        else Return (-1)
               (mkState fd (filesz st)
                  (log st ++ [EvGetBlock i (Fetched blk);
                              EvWrite blk false; EvFree (BlkData i)]))
    end.

(** [for (i = ..; i < inode->num_file_blocks; ++i)], entered at index [i] with
    the entries from [i] on. *)
Fixpoint dump_blocks (i : nat) (entries : list Z) (st : state Fd)
  : flow (state Fd) :=
  match entries with
  | [] => Continue st
  | entry :: rest =>
      match dump_block i entry st with
      | Continue st' => dump_blocks (S i) rest st'
      | Return rc st' => Return rc st'
      end
  end.

(** [if (filesz > 0) { .. }] after the loop, and [return 0]. *)
Definition dump_fragment (st : state Fd) : flow (state Fd) :=
  if 0 <? filesz st then
    match sqfs_data_reader_get_fragment data inode with
    | FetchFailed err =>
        Return (-1)
          (mkState (outfd st) (filesz st)
             (log st ++ [EvGetFragment (FetchFailed err);
                         EvStderr MsgReadFragment]))
    | Fetched blk =>
        let '(fd, ok) := write_data (outfd st) blk in
        if ok
        then Return 0
               (mkState fd (filesz st)
                  (log st ++ [EvGetFragment (Fetched blk);
                              EvWrite blk true; EvFree BlkFrag]))
        else Return (-1)
               (mkState fd (filesz st)
                  (log st ++ [EvGetFragment (Fetched blk);
                              EvWrite blk false; EvFree BlkFrag]))
    end
  else Return 0 st.

(** [if (allow_sparse && ftruncate (outfd, filesz)) goto fail_sparse;] *)
Definition dump_presize (st : state Fd) : flow (state Fd) :=
  if allow_sparse then
    let '(fd, ok) := ftruncate (outfd st) (filesz st) in
    if ok
    then Continue (mkState fd (filesz st)
                     (log st ++ [EvFtruncate (filesz st) true]))
    else fail_sparse (mkState fd (filesz st)
                        (log st ++ [EvFtruncate (filesz st) false]))
  else Continue st.

(** Sequencing of statements. *)
Definition andthen (f : flow (state Fd)) (k : state Fd -> flow (state Fd))
  : flow (state Fd) :=
  match f with
  | Continue st => k st
  | Return rc st => Return rc st
  end.

(** The state in which the loop is entered, if it is. *)
Definition dump_entry (fd : Fd) : flow (state Fd) :=
  dump_presize (mkState fd (file_size inode) []).

(** The state after the entries [entries] (a prefix of the inode's list) have
    been processed, if the routine got that far. *)
Definition dump_upto (fd : Fd) (entries : list Z) : flow (state Fd) :=
  andthen (dump_entry fd) (dump_blocks 0 entries).

Definition dump_run (fd : Fd) : flow (state Fd) :=
  andthen (dump_upto fd (block_sizes inode)) dump_fragment.

(** The routine: its return value and the final state. *)
Definition sqfs_data_reader_dump (fd : Fd) : Z * state Fd :=
  match dump_run fd with
  | Continue st => (0, st)
  | Return rc st => (rc, st)
  end.

(** *** The loop, entry by entry *)

Lemma dump_blocks_app (entries1 entries2 : list Z) :
  forall i st,
    dump_blocks i (entries1 ++ entries2) st =
    andthen (dump_blocks i entries1 st)
            (dump_blocks (i + List.length entries1) entries2).
Proof.
  induction entries1 as [|e es IH]; intros i st; simpl.
  - now rewrite Nat.add_0_r.
  - destruct (dump_block i e st) as [st'|rc st']; simpl; [|reflexivity].
    rewrite IH. now rewrite Nat.add_succ_r.
Qed.

Lemma dump_upto_snoc (fd : Fd) (pre : list Z) (entry : Z) :
  dump_upto fd (pre ++ [entry]) =
  andthen (dump_upto fd pre) (dump_block (List.length pre) entry).
Proof.
  unfold dump_upto. destruct (dump_entry fd) as [st0|rc st0]; simpl; [|reflexivity].
  rewrite dump_blocks_app. simpl.
  destruct (dump_blocks 0 pre st0) as [st|rc st]; simpl; [|reflexivity].
  now destruct (dump_block (List.length pre) entry st).
Qed.

(** *** [filesz] stays a [uint64_t] *)

Definition u64 (z : Z) : Prop := 0 <= z < 2 ^ 64.

Lemma wrap64_u64 (z : Z) : u64 (wrap64 z).
Proof. unfold u64, wrap64. apply Z.mod_pos_bound. lia. Qed.

Lemma wrap64_small (z : Z) : u64 z -> wrap64 z = z.
Proof. unfold u64, wrap64. intros Hz. now apply Z.mod_small. Qed.

Definition flow_u64 (f : flow (state Fd)) : Prop :=
  match f with
  | Continue st => u64 (filesz st)
  | Return _ st => u64 (filesz st)
  end.

Lemma dump_block_u64 (i : nat) (entry : Z) (st : state Fd) :
  u64 (filesz st) -> flow_u64 (dump_block i entry st).
Proof.
  intros Hst. unfold dump_block.
  destruct (SQFS_IS_SPARSE_BLOCK entry && allow_sparse).
  - destruct (filesz st <? block_size);
      destruct (lseek_cur (outfd st) _) as [fd [|]]; simpl;
      auto using wrap64_u64; unfold u64; lia.
  - destruct (sqfs_data_reader_get_block data inode i) as [blk|err]; simpl; auto.
    destruct (write_data (outfd st) blk) as [fd [|]]; simpl;
      auto using wrap64_u64.
Qed.

Lemma dump_blocks_u64 (entries : list Z) :
  forall i st, u64 (filesz st) -> flow_u64 (dump_blocks i entries st).
Proof.
  induction entries as [|e es IH]; intros i st Hst; simpl; auto.
  pose proof (dump_block_u64 i e st Hst) as Hb.
  destruct (dump_block i e st) as [st'|rc st']; simpl in *; auto.
Qed.

Lemma dump_entry_u64 (fd : Fd) :
  u64 (file_size inode) -> flow_u64 (dump_entry fd).
Proof.
  intros Hsz. unfold dump_entry, dump_presize. simpl.
  destruct allow_sparse; simpl; auto.
  destruct (ftruncate fd (file_size inode)) as [fd' [|]]; simpl; auto.
Qed.

Lemma dump_upto_u64 (fd : Fd) (entries : list Z) :
  u64 (file_size inode) -> flow_u64 (dump_upto fd entries).
Proof.
  intros Hsz. unfold dump_upto.
  pose proof (dump_entry_u64 fd Hsz) as He.
  destruct (dump_entry fd) as [st0|rc st0]; simpl in *; auto.
  now apply dump_blocks_u64.
Qed.

(** *** Sparse entries become holes *)

(** C2.  With sparse output permitted, a sparse-tagged entry reached with
    [filesz st] bytes remaining is handled by one [lseek] over
    [min (filesz st) block_size] bytes: the counter drops by exactly that
    amount, and no block is fetched and nothing is written. *)
Theorem sparse_entry_is_a_hole (fd : Fd) (pre post : list Z) (entry : Z)
    (st : state Fd) :
  allow_sparse = true ->
  u64 (file_size inode) ->
  0 <= block_size ->
  block_sizes inode = pre ++ entry :: post ->
  SQFS_IS_SPARSE_BLOCK entry = true ->
  dump_upto fd pre = Continue st ->
  let diff := Z.min (filesz st) block_size in
  dump_upto fd (pre ++ [entry]) =
  match lseek_cur (outfd st) diff with
  | (fd', true) =>
      Continue (mkState fd' (filesz st - diff) (log st ++ [EvLseek diff true]))
  | (fd', false) =>
      Return (-1)
        (mkState fd' (filesz st - diff)
           ((log st ++ [EvLseek diff false]) ++ [EvStderr MsgSparse]))
  end.
Proof.
  intros Hsp Hsz Hbs _ Hent Hpre diff.
  pose proof (dump_upto_u64 fd pre Hsz) as Hu. rewrite Hpre in Hu. simpl in Hu.
  rewrite dump_upto_snoc, Hpre. simpl.
  unfold dump_block. rewrite Hent, Hsp. simpl. subst diff.
  destruct (Z.ltb_spec (filesz st) block_size) as [Hlt|Hge].
  - rewrite Z.min_l by lia. rewrite Z.sub_diag.
    now destruct (lseek_cur (outfd st) (filesz st)) as [fd' [|]].
  - rewrite Z.min_r by lia.
    rewrite wrap64_small by (unfold u64 in *; lia).
    now destruct (lseek_cur (outfd st) block_size) as [fd' [|]].
Qed.

(** *** Failures abort the routine *)

Ltac block_cases i e st :=
  unfold dump_block, fail_sparse;
  destruct (SQFS_IS_SPARSE_BLOCK e && allow_sparse);
  [ destruct (filesz st <? block_size);
    destruct (lseek_cur (outfd st) _) as [? [|]]
  | destruct (sqfs_data_reader_get_block data inode i) as [?|?];
    [ destruct (write_data (outfd st) _) as [? [|]] | ] ];
  simpl.

Ltac fragment_cases st :=
  unfold dump_fragment;
  destruct (0 <? filesz st);
  [ destruct (sqfs_data_reader_get_fragment data inode) as [?|?];
    [ destruct (write_data (outfd st) _) as [? [|]] | ] | ];
  simpl.

Ltac presize_cases fd :=
  unfold dump_entry, dump_presize, fail_sparse; simpl;
  destruct allow_sparse;
  [ destruct (ftruncate fd (file_size inode)) as [? [|]] | ];
  simpl.

(** A call that reported failure. *)
Definition failed (e : event) : bool :=
  match e with
  | EvFtruncate _ ok | EvLseek _ ok | EvWrite _ ok => negb ok
  | EvGetBlock _ (FetchFailed _) | EvGetFragment (FetchFailed _) => true
  | _ => false
  end.

(** What may still happen after a failure: the held block is released and a
    diagnostic is printed. *)
Definition aftermath (e : event) : bool :=
  match e with
  | EvFree _ | EvStderr _ => true
  | _ => false
  end.

Definition clean (l : list event) : Prop :=
  forallb (fun e => negb (failed e)) l = true.

Definition aborted (l : list event) : Prop :=
  exists l1 e l2,
    l = l1 ++ e :: l2 /\ clean l1 /\ failed e = true /\
    forallb aftermath l2 = true.

Definition flow_sound (f : flow (state Fd)) : Prop :=
  match f with
  | Continue st => clean (log st)
  | Return rc st =>
      (rc = 0 /\ clean (log st)) \/ (rc = -1 /\ aborted (log st))
  end.

Lemma clean_app (l1 l2 : list event) : clean l1 -> clean l2 -> clean (l1 ++ l2).
Proof. unfold clean. intros H1 H2. now rewrite forallb_app, H1, H2. Qed.

Lemma aborted_intro (l : list event) (e : event) (l2 : list event) :
  clean l -> failed e = true -> forallb aftermath l2 = true ->
  aborted (l ++ e :: l2).
Proof. intros. exists l, e, l2. auto. Qed.

Lemma aborted_after (l : list event) (a e : event) (l2 : list event) :
  clean l -> failed a = false -> failed e = true ->
  forallb aftermath l2 = true ->
  aborted (l ++ a :: e :: l2).
Proof.
  intros Hc Ha He Hl. exists (l ++ [a]), e, l2. repeat split; auto.
  - now rewrite <- app_assoc.
  - apply clean_app; auto. unfold clean. simpl. now rewrite Ha.
Qed.

Lemma dump_block_sound (i : nat) (entry : Z) (st : state Fd) :
  clean (log st) -> flow_sound (dump_block i entry st).
Proof.
  intros Hc. block_cases i entry st;
    try (apply clean_app; [assumption|reflexivity]);
    right; split; try reflexivity;
    try rewrite <- app_assoc; simpl;
    solve [now apply aborted_intro | now apply aborted_after].
Qed.

Lemma dump_blocks_sound (entries : list Z) :
  forall i st, clean (log st) -> flow_sound (dump_blocks i entries st).
Proof.
  induction entries as [|e es IH]; intros i st Hc; simpl; auto.
  pose proof (dump_block_sound i e st Hc) as Hb.
  destruct (dump_block i e st) as [st'|rc st']; simpl in *; auto.
Qed.

Lemma dump_entry_sound (fd : Fd) : flow_sound (dump_entry fd).
Proof.
  presize_cases fd; try reflexivity.
  right. split; [reflexivity|]. now apply (aborted_intro []).
Qed.

Lemma dump_upto_sound (fd : Fd) (entries : list Z) :
  flow_sound (dump_upto fd entries).
Proof.
  unfold dump_upto. pose proof (dump_entry_sound fd) as He.
  destruct (dump_entry fd) as [st0|rc st0]; simpl in *; auto.
  now apply dump_blocks_sound.
Qed.

Lemma dump_fragment_sound (st : state Fd) :
  clean (log st) -> flow_sound (dump_fragment st).
Proof.
  intros Hc. fragment_cases st; auto;
    try (left; split; [reflexivity|]; apply clean_app; [assumption|reflexivity]);
    right; split; try reflexivity;
    solve [now apply aborted_intro | now apply aborted_after].
Qed.

Lemma dump_run_sound (fd : Fd) : flow_sound (dump_run fd).
Proof.
  unfold dump_run. pose proof (dump_upto_sound fd (block_sizes inode)) as Hu.
  destruct (dump_upto fd (block_sizes inode)) as [st|rc st]; simpl in *; auto.
  now apply dump_fragment_sound.
Qed.

Lemma aftermath_not_failed (e : event) : aftermath e = true -> failed e = false.
Proof. now destruct e. Qed.

Lemma clean_no_failure (l1 l2 : list event) (e : event) :
  clean (l1 ++ e :: l2) -> failed e = false.
Proof.
  unfold clean. rewrite forallb_app. simpl. intros Hc.
  apply andb_true_iff in Hc as [_ Hc]. apply andb_true_iff in Hc as [Hc _].
  now apply negb_true_iff.
Qed.

Lemma first_failure_unique (l1 : list event) :
  forall e l2 l1' e' l2',
    l1 ++ e :: l2 = l1' ++ e' :: l2' ->
    clean l1 -> forallb aftermath l2 = true -> failed e' = true ->
    l1' = l1 /\ e' = e /\ l2' = l2.
Proof.
  induction l1 as [|a l1 IH]; intros e l2 l1' e' l2' Heq Hc Ha Hf.
  - destruct l1' as [|b l1']; simpl in Heq; injection Heq as -> ->; auto.
    rewrite forallb_app in Ha. simpl in Ha.
    apply andb_true_iff in Ha as [_ Ha]. apply andb_true_iff in Ha as [Ha _].
    apply aftermath_not_failed in Ha. congruence.
  - destruct l1' as [|b l1']; simpl in Heq; injection Heq as -> Heq.
    + unfold clean in Hc. simpl in Hc. apply andb_true_iff in Hc as [Hc _].
      apply negb_true_iff in Hc. congruence.
    + unfold clean in Hc. simpl in Hc. apply andb_true_iff in Hc as [_ Hc].
      destruct (IH _ _ _ _ _ Heq Hc Ha Hf) as (-> & -> & ->). auto.
Qed.

(** C4.  A call that fails is the last call the routine makes apart from
    releasing the block it holds and printing its diagnostic, and the routine
    then returns -1; what the descriptor received before stays as it is.  When
    sparse output is requested and [ftruncate] fails, the routine has made no
    other call: it prints the sparse-output diagnostic and returns -1. *)
Theorem failure_aborts (fd : Fd) :
  let rc := fst (sqfs_data_reader_dump fd) in
  let fin := snd (sqfs_data_reader_dump fd) in
  (forall l1 e l2,
      log fin = l1 ++ e :: l2 -> failed e = true ->
      rc = -1 /\ clean l1 /\ forallb aftermath l2 = true) /\
  (allow_sparse = true ->
   snd (ftruncate fd (file_size inode)) = false ->
   rc = -1 /\
   outfd fin = fst (ftruncate fd (file_size inode)) /\
   log fin = [EvFtruncate (file_size inode) false; EvStderr MsgSparse]).
Proof.
  intros rc fin. split.
  - intros l1 e l2 Hlog Hf. subst rc fin. unfold sqfs_data_reader_dump in *.
    pose proof (dump_run_sound fd) as Hs.
    destruct (dump_run fd) as [st|rc st]; simpl in *.
    + rewrite Hlog in Hs. apply clean_no_failure in Hs. congruence.
    + destruct Hs as [[_ Hc]|[-> (k1 & k & k2 & Hk & Hc & Hk1 & Hk2)]].
      * rewrite Hlog in Hc. apply clean_no_failure in Hc. congruence.
      * rewrite Hk in Hlog.
        destruct (first_failure_unique _ _ _ _ _ _ Hlog Hc Hk2 Hf)
          as (-> & -> & ->). auto.
  - intros Ha Hft. subst rc fin.
    unfold sqfs_data_reader_dump, dump_run, dump_upto, dump_entry, dump_presize.
    rewrite Ha. simpl.
    destruct (ftruncate fd (file_size inode)) as [fd' ok]. simpl in Hft.
    subst ok. simpl. auto.
Qed.

(** *** Fetched blocks are released *)

Definition blk_ref_eqb (a b : blk_ref) : bool :=
  match a, b with
  | BlkData i, BlkData j => Nat.eqb i j
  | BlkFrag, BlkFrag => true
  | _, _ => false
  end.

Definition holds (r : blk_ref) (live : list blk_ref) : bool :=
  existsb (blk_ref_eqb r) live.

Definition release (r : blk_ref) (live : list blk_ref) : list blk_ref :=
  filter (fun x => negb (blk_ref_eqb r x)) live.

(** The blocks held after the calls [l], starting from the blocks [live]:
    a successful fetch adds its block, [free] removes it.  [None] when a block
    is released that is not held, or handed out while it is still held. *)
Fixpoint held (l : list event) (live : list blk_ref) : option (list blk_ref) :=
  match l with
  | [] => Some live
  | EvGetBlock i (Fetched _) :: l' =>
      if holds (BlkData i) live then None else held l' (BlkData i :: live)
  | EvGetFragment (Fetched _) :: l' =>
      if holds BlkFrag live then None else held l' (BlkFrag :: live)
  | EvFree r :: l' =>
      if holds r live then held l' (release r live) else None
  | _ :: l' => held l' live
  end.

(** The blocks handed out, and the blocks released, in order. *)
Fixpoint fetched_refs (l : list event) : list blk_ref :=
  match l with
  | [] => []
  | EvGetBlock i (Fetched _) :: l' => BlkData i :: fetched_refs l'
  | EvGetFragment (Fetched _) :: l' => BlkFrag :: fetched_refs l'
  | _ :: l' => fetched_refs l'
  end.

Fixpoint freed_refs (l : list event) : list blk_ref :=
  match l with
  | [] => []
  | EvFree r :: l' => r :: freed_refs l'
  | _ :: l' => freed_refs l'
  end.

Lemma held_app (l1 l2 : list event) :
  forall live,
    held (l1 ++ l2) live =
    match held l1 live with
    | Some live' => held l2 live'
    | None => None
    end.
Proof.
  induction l1 as [|e l1 IH]; intros live; simpl; auto.
  destruct e as [| |i [blk|err]|[blk|err]| |r|]; auto.
  - destruct (holds (BlkData i) live); auto.
  - destruct (holds BlkFrag live); auto.
  - destruct (holds r live); auto.
Qed.

Lemma fetched_refs_app (l1 l2 : list event) :
  fetched_refs (l1 ++ l2) = fetched_refs l1 ++ fetched_refs l2.
Proof.
  induction l1 as [|e l1 IH]; simpl; auto.
  destruct e as [| |i [blk|err]|[blk|err]| |r|]; simpl; congruence.
Qed.

Lemma freed_refs_app (l1 l2 : list event) :
  freed_refs (l1 ++ l2) = freed_refs l1 ++ freed_refs l2.
Proof.
  induction l1 as [|e l1 IH]; simpl; auto.
  destruct e; simpl; congruence.
Qed.

Definition state_of (f : flow (state Fd)) : state Fd :=
  match f with
  | Continue st => st
  | Return _ st => st
  end.

Definition balanced (l : list event) : Prop :=
  held l [] = Some [] /\ freed_refs l = fetched_refs l.

Lemma balanced_app (l1 l2 : list event) :
  balanced l1 -> balanced l2 -> balanced (l1 ++ l2).
Proof.
  intros [H1 E1] [H2 E2]. split.
  - now rewrite held_app, H1.
  - now rewrite freed_refs_app, fetched_refs_app, E1, E2.
Qed.

Lemma balanced_data (i : nat) (blk : sqfs_block_t) (ok : bool) :
  balanced [EvGetBlock i (Fetched blk); EvWrite blk ok; EvFree (BlkData i)].
Proof.
  split; [|reflexivity]. simpl. now rewrite Nat.eqb_refl.
Qed.

Lemma dump_block_balanced (i : nat) (entry : Z) (st : state Fd) :
  balanced (log st) -> balanced (log (state_of (dump_block i entry st))).
Proof.
  intros Hb. block_cases i entry st; try rewrite <- app_assoc;
    apply balanced_app; auto using balanced_data; now split.
Qed.

Lemma dump_blocks_balanced (entries : list Z) :
  forall i st,
    balanced (log st) -> balanced (log (state_of (dump_blocks i entries st))).
Proof.
  induction entries as [|e es IH]; intros i st Hb; simpl; auto.
  pose proof (dump_block_balanced i e st Hb) as Hs.
  destruct (dump_block i e st) as [st'|rc st']; simpl in *; auto.
Qed.

Lemma dump_upto_balanced (fd : Fd) (entries : list Z) :
  balanced (log (state_of (dump_upto fd entries))).
Proof.
  unfold dump_upto.
  assert (He : balanced (log (state_of (dump_entry fd)))).
  { presize_cases fd; now split. }
  destruct (dump_entry fd) as [st0|rc st0]; simpl in *; auto.
  now apply dump_blocks_balanced.
Qed.

(** C9.  Whatever way the routine returns, the calls it made release every
    block a fetch handed out exactly once: each [free] releases a block that is
    held at that moment, nothing is held at the end, and the blocks released
    are, in order, the blocks handed out. *)
Theorem blocks_released (fd : Fd) :
  let fin := snd (sqfs_data_reader_dump fd) in
  held (log fin) [] = Some [] /\ freed_refs (log fin) = fetched_refs (log fin).
Proof.
  intros fin. subst fin. unfold sqfs_data_reader_dump, dump_run.
  pose proof (dump_upto_balanced fd (block_sizes inode)) as Hu.
  destruct (dump_upto fd (block_sizes inode)) as [st|rc st]; simpl in *; auto.
  assert (Hf : balanced (log (state_of (dump_fragment st)))).
  { fragment_cases st; auto; apply balanced_app; auto; now split. }
  now destruct (dump_fragment st).
Qed.

(** *** The fragment step *)

Definition is_fragment_fetch (e : event) : bool :=
  match e with
  | EvGetFragment _ => true
  | _ => false
  end.

Definition fragment_fetches (l : list event) : nat :=
  List.length (filter is_fragment_fetch l).

Lemma fragment_fetches_app (l1 l2 : list event) :
  fragment_fetches (l1 ++ l2) = (fragment_fetches l1 + fragment_fetches l2)%nat.
Proof. unfold fragment_fetches. now rewrite filter_app, length_app. Qed.

Lemma dump_block_no_fragment (i : nat) (entry : Z) (st : state Fd) :
  fragment_fetches (log st) = 0%nat ->
  fragment_fetches (log (state_of (dump_block i entry st))) = 0%nat.
Proof.
  intros Hz. block_cases i entry st;
    repeat rewrite fragment_fetches_app; now rewrite Hz.
Qed.

Lemma dump_blocks_no_fragment (entries : list Z) :
  forall i st,
    fragment_fetches (log st) = 0%nat ->
    fragment_fetches (log (state_of (dump_blocks i entries st))) = 0%nat.
Proof.
  induction entries as [|e es IH]; intros i st Hz; simpl; auto.
  pose proof (dump_block_no_fragment i e st Hz) as Hs.
  destruct (dump_block i e st) as [st'|rc st']; simpl in *; auto.
Qed.

Lemma dump_upto_no_fragment (fd : Fd) (entries : list Z) :
  fragment_fetches (log (state_of (dump_upto fd entries))) = 0%nat.
Proof.
  unfold dump_upto.
  assert (He : fragment_fetches (log (state_of (dump_entry fd))) = 0%nat).
  { presize_cases fd; reflexivity. }
  destruct (dump_entry fd) as [st0|rc st0]; simpl in *; auto.
  now apply dump_blocks_no_fragment.
Qed.

Lemma fragment_fetch_count (fd : Fd) (st : state Fd) :
  dump_upto fd (block_sizes inode) = Continue st ->
  fragment_fetches (log (snd (sqfs_data_reader_dump fd))) =
  (if 0 <? filesz st then 1%nat else 0%nat).
Proof.
  intros Hloop.
  pose proof (dump_upto_no_fragment fd (block_sizes inode)) as Hz.
  unfold sqfs_data_reader_dump, dump_run. rewrite Hloop in *. simpl in *.
  fragment_cases st; try rewrite fragment_fetches_app; now rewrite Hz.
Qed.

(** What the routine does after the loop, for any data reader: the fragment
    is fetched once if [filesz st] is positive and not at all otherwise, and a
    fetched fragment block is handed to [write_data] whole, in a single call,
    then released. *)
Lemma fragment_after_loop (fd : Fd) (st : state Fd) :
  dump_upto fd (block_sizes inode) = Continue st ->
  let rc := fst (sqfs_data_reader_dump fd) in
  let fin := snd (sqfs_data_reader_dump fd) in
  fragment_fetches (log fin) = (if 0 <? filesz st then 1%nat else 0%nat) /\
  ((0 <? filesz st) = false -> fin = st /\ rc = 0) /\
  (forall blk,
      (0 <? filesz st) = true ->
      sqfs_data_reader_get_fragment data inode = Fetched blk ->
      log fin = log st ++ [EvGetFragment (Fetched blk);
                           EvWrite blk (snd (write_data (outfd st) blk));
                           EvFree BlkFrag] /\
      outfd fin = fst (write_data (outfd st) blk) /\
      rc = (if snd (write_data (outfd st) blk) then 0 else -1) /\
      (forall d ok,
          In (EvWrite d ok) (skipn (List.length (log st)) (log fin)) ->
          d = blk)).
Proof.
  intros Hloop rc fin. subst rc fin.
  pose proof (dump_upto_no_fragment fd (block_sizes inode)) as Hz.
  unfold sqfs_data_reader_dump, dump_run. rewrite Hloop in *. simpl in *.
  unfold dump_fragment.
  destruct (0 <? filesz st).
  - destruct (sqfs_data_reader_get_fragment data inode) as [blk|err].
    + destruct (write_data (outfd st) blk) as [fd' [|]] eqn:Hw; simpl;
        rewrite fragment_fetches_app, Hz; (split; [reflexivity|]);
        (split; [discriminate|]); intros b _ Hb; injection Hb as <-;
        rewrite Hw; simpl; (split; [reflexivity|]); (split; [reflexivity|]);
        (split; [reflexivity|]); intros d ok;
        rewrite skipn_app, skipn_all, Nat.sub_diag; simpl;
        intros [Hin|[Hin|[Hin|[]]]]; congruence.
    + simpl. rewrite fragment_fetches_app, Hz. split; [reflexivity|].
      split; [discriminate|]. intros b _ Hb. discriminate.
  - simpl. split; [assumption|]. split; [auto|]. intros b Hb. discriminate.
Qed.

(** *** The remaining-bytes counter *)

(** The bytes entry [i] accounts for when [remaining] bytes are left, as an
    unbounded integer. *)
Definition entry_bytes (i : nat) (entry : Z) (remaining : Z) : Z :=
  if SQFS_IS_SPARSE_BLOCK entry && allow_sparse
  then Z.min remaining block_size
  else match sqfs_data_reader_get_block data inode i with
       | Fetched blk => blk_size blk
       | FetchFailed _ => 0
       end.

(** What is left of [remaining] after the entries [entries], the first of which
    has index [i], in unbounded integers. *)
Fixpoint tail_length (i : nat) (entries : list Z) (remaining : Z) : Z :=
  match entries with
  | [] => remaining
  | entry :: rest =>
      tail_length (S i) rest (remaining - entry_bytes i entry remaining)
  end.

(** No entry accounts for more than is left when it is reached. *)
Fixpoint fits (i : nat) (entries : list Z) (remaining : Z) : Prop :=
  match entries with
  | [] => True
  | entry :: rest =>
      entry_bytes i entry remaining <= remaining /\
      fits (S i) rest (remaining - entry_bytes i entry remaining)
  end.

Lemma fits_app (pre post : list Z) :
  forall i remaining,
    fits i (pre ++ post) remaining -> fits i pre remaining.
Proof.
  induction pre as [|e es IH]; intros i remaining; simpl; auto.
  intros [Hle Hrest]. eauto.
Qed.

Lemma tail_length_snoc (pre : list Z) (entry : Z) :
  forall i remaining,
    tail_length i (pre ++ [entry]) remaining =
    tail_length i pre remaining -
    entry_bytes (i + List.length pre) entry (tail_length i pre remaining).
Proof.
  induction pre as [|e es IH]; intros i remaining; simpl.
  - now rewrite Nat.add_0_r.
  - rewrite IH. now rewrite Nat.add_succ_r.
Qed.

Lemma fits_snoc (pre : list Z) (entry : Z) :
  forall i remaining,
    fits i (pre ++ [entry]) remaining ->
    entry_bytes (i + List.length pre) entry (tail_length i pre remaining)
    <= tail_length i pre remaining.
Proof.
  induction pre as [|e es IH]; intros i remaining; simpl.
  - rewrite Nat.add_0_r. tauto.
  - intros [_ Hrest]. apply IH in Hrest. now rewrite Nat.add_succ_r.
Qed.

Lemma entry_bytes_nonneg (i : nat) (entry : Z) (remaining : Z) :
  0 <= block_size -> 0 <= remaining -> 0 <= entry_bytes i entry remaining.
Proof.
  intros Hbs Hrem. unfold entry_bytes, blk_size, len.
  destruct (SQFS_IS_SPARSE_BLOCK entry && allow_sparse); [lia|].
  destruct (sqfs_data_reader_get_block data inode i); lia.
Qed.

Lemma dump_block_counter (i : nat) (entry : Z) (st st' : state Fd) :
  0 <= block_size ->
  u64 (filesz st) ->
  entry_bytes i entry (filesz st) <= filesz st ->
  dump_block i entry st = Continue st' ->
  filesz st' = filesz st - entry_bytes i entry (filesz st).
Proof.
  intros Hbs Hu. unfold entry_bytes, dump_block.
  destruct (SQFS_IS_SPARSE_BLOCK entry && allow_sparse).
  - intros _.
    destruct (Z.ltb_spec (filesz st) block_size) as [Hlt|Hge];
      destruct (lseek_cur (outfd st) _) as [fd' [|]]; simpl;
      intros Heq; inversion Heq; simpl.
    + lia.
    + rewrite wrap64_small by (unfold u64 in *; lia). lia.
  - destruct (sqfs_data_reader_get_block data inode i) as [blk|err];
      [|discriminate].
    intros Hle. destruct (write_data (outfd st) blk) as [fd' [|]]; simpl;
      intros Heq; inversion Heq; simpl.
    apply wrap64_small. unfold u64, blk_size, len in *. lia.
Qed.

Lemma dump_upto_counter (fd : Fd) (pre : list Z) :
  forall st,
    0 <= block_size ->
    u64 (file_size inode) ->
    fits 0 pre (file_size inode) ->
    dump_upto fd pre = Continue st ->
    filesz st = tail_length 0 pre (file_size inode).
Proof.
  induction pre as [|e pre IH] using rev_ind; intros st Hbs Hu Hfit Hrun.
  - unfold dump_upto, andthen in Hrun. simpl in *.
    revert Hrun. presize_cases fd; intros Heq; inversion Heq; reflexivity.
  - rewrite dump_upto_snoc in Hrun.
    destruct (dump_upto fd pre) as [st0|rc st0] eqn:Hpre; [|discriminate].
    simpl in Hrun.
    pose proof (IH st0 Hbs Hu (fits_app _ _ _ _ Hfit) eq_refl) as H0.
    pose proof (dump_upto_u64 fd pre Hu) as Hu0. rewrite Hpre in Hu0.
    simpl in Hu0.
    pose proof (fits_snoc _ _ _ _ Hfit) as Hle. simpl in Hle.
    rewrite <- H0 in Hle.
    rewrite (dump_block_counter _ _ _ _ Hbs Hu0 Hle Hrun).
    rewrite tail_length_snoc. simpl. now rewrite H0.
Qed.

(** C10.  [filesz] is a [uint64_t] and every decrement is reduced modulo
    2^64.  When no fetched block is larger than what is left at the moment it
    is written, the subtraction never wraps: after every prefix of the entries
    the counter is the file size minus the bytes accounted for, each entry
    lowers it by exactly its own bytes without going below zero, and after the
    loop the fragment is fetched if and only if the unaccounted tail is not
    empty. *)
Theorem counter_never_wraps (fd : Fd) :
  u64 (file_size inode) ->
  0 <= block_size ->
  fits 0 (block_sizes inode) (file_size inode) ->
  (forall pre post st,
      block_sizes inode = pre ++ post ->
      dump_upto fd pre = Continue st ->
      filesz st = tail_length 0 pre (file_size inode) /\
      0 <= filesz st <= file_size inode) /\
  (forall pre entry post st st',
      block_sizes inode = pre ++ entry :: post ->
      dump_upto fd pre = Continue st ->
      dump_upto fd (pre ++ [entry]) = Continue st' ->
      filesz st' = filesz st - entry_bytes (List.length pre) entry (filesz st) /\
      0 <= filesz st' <= filesz st) /\
  (forall st,
      dump_upto fd (block_sizes inode) = Continue st ->
      filesz st = tail_length 0 (block_sizes inode) (file_size inode) /\
      (fragment_fetches (log (snd (sqfs_data_reader_dump fd))) = 1%nat <->
       tail_length 0 (block_sizes inode) (file_size inode) <> 0)).
Proof.
  intros Hu Hbs Hfit.
  assert (Hstep : forall pre entry post st st',
      block_sizes inode = pre ++ entry :: post ->
      dump_upto fd pre = Continue st ->
      dump_upto fd (pre ++ [entry]) = Continue st' ->
      filesz st' = filesz st - entry_bytes (List.length pre) entry (filesz st) /\
      0 <= filesz st' <= filesz st).
  { intros pre entry post st st' Hsplit Hpre Hnext.
    assert (Hfit' : fits 0 (pre ++ [entry]) (file_size inode)).
    { apply fits_app with (post := post). rewrite <- app_assoc. simpl.
      now rewrite <- Hsplit. }
    pose proof (dump_upto_counter fd pre st Hbs Hu
                  (fits_app _ _ _ _ Hfit') Hpre) as H0.
    pose proof (dump_upto_counter fd _ st' Hbs Hu Hfit' Hnext) as H1.
    rewrite tail_length_snoc in H1. simpl in H1. rewrite <- H0 in H1.
    pose proof (fits_snoc _ _ _ _ Hfit') as Hle. simpl in Hle.
    rewrite <- H0 in Hle.
    pose proof (dump_upto_u64 fd pre Hu) as Hu0. rewrite Hpre in Hu0.
    simpl in Hu0.
    pose proof (entry_bytes_nonneg (List.length pre) entry (filesz st) Hbs
                  (proj1 Hu0)).
    split; [assumption|lia]. }
  split; [|split; [exact Hstep|]].
  - intros pre. induction pre as [|e pre IH] using rev_ind;
      intros post st Hsplit Hpre.
    + split.
      * apply (dump_upto_counter fd); auto. exact I.
      * revert Hpre. unfold dump_upto, andthen. simpl.
        presize_cases fd; intros Heq; inversion Heq; simpl;
          unfold u64 in Hu; lia.
    + assert (Hfit' : fits 0 (pre ++ [e]) (file_size inode)).
      { apply fits_app with (post := post). now rewrite <- Hsplit. }
      split; [now apply (dump_upto_counter fd)|].
      rewrite <- app_assoc in Hsplit. simpl in Hsplit.
      destruct (dump_upto fd pre) as [st0|rc st0] eqn:Hpre0.
      * destruct (IH _ _ Hsplit eq_refl) as [_ Hr0].
        destruct (Hstep _ _ _ _ _ Hsplit Hpre0 Hpre) as [_ Hr1]. lia.
      * rewrite dump_upto_snoc, Hpre0 in Hpre. discriminate.
  - intros st Hrun.
    pose proof (dump_upto_counter fd _ st Hbs Hu Hfit Hrun) as H0.
    split; [assumption|].
    rewrite (fragment_fetch_count fd st Hrun), <- H0.
    pose proof (dump_upto_u64 fd (block_sizes inode) Hu) as Hu0. rewrite Hrun in Hu0.
    simpl in Hu0. unfold u64 in Hu0.
    destruct (Z.ltb_spec 0 (filesz st)); split; intros; try lia; discriminate.
Qed.

(** *** Without sparse output the descriptor is only written to *)

Definition is_hole_call (e : event) : bool :=
  match e with
  | EvFtruncate _ _ | EvLseek _ _ => true
  | _ => false
  end.

Definition hole_free (l : list event) : Prop :=
  forallb (fun e => negb (is_hole_call e)) l = true.

Lemma hole_free_app (l1 l2 : list event) :
  hole_free l1 -> hole_free l2 -> hole_free (l1 ++ l2).
Proof. unfold hole_free. intros H1 H2. now rewrite forallb_app, H1, H2. Qed.

Lemma dump_blocks_hole_free (entries : list Z) :
  allow_sparse = false ->
  forall i st,
    hole_free (log st) -> hole_free (log (state_of (dump_blocks i entries st))).
Proof.
  intros Hoff. induction entries as [|e es IH]; intros i st Hh; simpl; auto.
  assert (Hs : hole_free (log (state_of (dump_block i e st)))).
  { unfold dump_block. rewrite Hoff, andb_false_r.
    destruct (sqfs_data_reader_get_block data inode i) as [blk|err];
      [destruct (write_data (outfd st) blk) as [? [|]]|]; simpl;
      now apply hole_free_app. }
  destruct (dump_block i e st) as [st'|rc st']; simpl in *; auto.
Qed.

Lemma plain_run_hole_free (fd : Fd) :
  allow_sparse = false ->
  hole_free (log (snd (sqfs_data_reader_dump fd))).
Proof.
  intros Hoff. unfold sqfs_data_reader_dump, dump_run, dump_upto.
  unfold dump_entry, dump_presize. rewrite Hoff. simpl.
  pose proof (dump_blocks_hole_free (block_sizes inode) Hoff 0
                (mkState fd (file_size inode) []) eq_refl) as Hb.
  destruct (dump_blocks 0 (block_sizes inode) _) as [st|rc st]; simpl in *; auto.
  assert (Hf : hole_free (log (state_of (dump_fragment st)))).
  { fragment_cases st; auto; now apply hole_free_app. }
  now destruct (dump_fragment st).
Qed.

(** *** The fragment tail *)

(** Every write made after the loop has exactly the size of what remained. *)
Definition fragment_is_the_remainder (fd : Fd) : Prop :=
  forall st blk ok,
    dump_upto fd (block_sizes inode) = Continue st ->
    In (EvWrite blk ok)
       (skipn (List.length (log st)) (log (snd (sqfs_data_reader_dump fd)))) ->
    blk_size blk = filesz st.

(** The data reader's side of the fragment: when bytes are left after the
    blocks, the fragment block it hands out accounts for exactly these. *)
Definition fragment_accounts_for (remaining : Z) : Prop :=
  0 < remaining ->
  forall blk,
    sqfs_data_reader_get_fragment data inode = Fetched blk ->
    blk_size blk = remaining.

(** C3.  When the loop completes with [filesz st] bytes remaining, the
    fragment is fetched exactly once if that count is positive and not at all
    if it is zero.  With a data reader whose fragment accounts for exactly the
    remaining bytes, the fetched block has [filesz st] bytes and is handed to
    [write_data] whole, in a single call, then released: every write made
    after the loop is of exactly [filesz st] bytes, never more, and when
    nothing remains nothing is written. *)
Theorem fragment_step (fd : Fd) (st : state Fd) :
  dump_upto fd (block_sizes inode) = Continue st ->
  fragment_accounts_for (filesz st) ->
  let rc := fst (sqfs_data_reader_dump fd) in
  let fin := snd (sqfs_data_reader_dump fd) in
  fragment_fetches (log fin) = (if 0 <? filesz st then 1%nat else 0%nat) /\
  ((0 <? filesz st) = false -> fin = st /\ rc = 0) /\
  (forall blk,
      (0 <? filesz st) = true ->
      sqfs_data_reader_get_fragment data inode = Fetched blk ->
      blk_size blk = filesz st /\
      log fin = log st ++ [EvGetFragment (Fetched blk);
                           EvWrite blk (snd (write_data (outfd st) blk));
                           EvFree BlkFrag] /\
      outfd fin = fst (write_data (outfd st) blk) /\
      rc = (if snd (write_data (outfd st) blk) then 0 else -1)) /\
  fragment_is_the_remainder fd.
Proof.
  intros Hloop Hcontract rc fin. subst rc fin.
  destruct (fragment_after_loop fd st Hloop) as (Hcount & Hnone & Hsome).
  split; [exact Hcount|]. split; [exact Hnone|]. split.
  - intros blk Hpos Hget.
    destruct (Hsome blk Hpos Hget) as (Hlog & Hfd & Hrc & _).
    split; [|now repeat split].
    apply Hcontract; [now apply Z.ltb_lt|assumption].
  - intros st' blk ok Hloop' Hin. rewrite Hloop in Hloop'.
    injection Hloop' as <-.
    destruct (0 <? filesz st) eqn:Hpos.
    + destruct (sqfs_data_reader_get_fragment data inode) as [b|err] eqn:Hget.
      * destruct (Hsome b eq_refl eq_refl) as (_ & _ & _ & Hw).
        rewrite (Hw _ _ Hin).
        apply Hcontract; [now apply Z.ltb_lt|assumption].
      * revert Hin. unfold sqfs_data_reader_dump, dump_run. rewrite Hloop.
        simpl. unfold dump_fragment. rewrite Hpos, Hget. simpl.
        rewrite skipn_app, skipn_all, Nat.sub_diag. simpl.
        intros [Hin|[Hin|[]]]; discriminate.
    + destruct (Hnone eq_refl) as [Hfin _]. rewrite Hfin, skipn_all in Hin.
      destruct Hin.
Qed.

(** *** What the return value tells *)

Lemma aborted_not_clean (l : list event) : aborted l -> ~ clean l.
Proof.
  intros (l1 & e & l2 & -> & _ & Hf & _) Hc.
  apply clean_no_failure in Hc. congruence.
Qed.

(** X1.  The routine returns 0 or -1, and nothing else.  It returns 0 exactly
    when none of the calls it made failed, and -1 exactly when one call
    failed, which then is the only failed call and the last call but for the
    release of the block and the diagnostic. *)
Theorem return_value_tells (fd : Fd) :
  let rc := fst (sqfs_data_reader_dump fd) in
  let fin := snd (sqfs_data_reader_dump fd) in
  (rc = 0 \/ rc = -1) /\
  (rc = 0 <-> clean (log fin)) /\
  (rc = -1 <-> aborted (log fin)).
Proof.
  intros rc fin. subst rc fin. unfold sqfs_data_reader_dump.
  pose proof (dump_run_sound fd) as Hs.
  destruct (dump_run fd) as [st|rc st]; simpl in *.
  - split; [now left|]. split; split; intros; auto; try discriminate.
    now apply aborted_not_clean in Hs.
  - destruct Hs as [[-> Hc]|[-> Ha]].
    + split; [now left|]. split; split; intros; auto; try discriminate.
      now apply aborted_not_clean in Hc.
    + split; [now right|]. split; split; intros; auto; try discriminate.
      now apply aborted_not_clean in Ha.
Qed.

(** *** What is written is what was fetched *)

(** The data of the calls of [write_data], in order. *)
Definition written_data (l : list event) : list (list byte) :=
  flat_map (fun e => match e with EvWrite d _ => [d] | _ => [] end) l.

(** The blocks the fetches handed out, in order. *)
Definition fetched_blocks (l : list event) : list sqfs_block_t :=
  flat_map (fun e =>
              match e with
              | EvGetBlock _ (Fetched blk) => [blk]
              | EvGetFragment (Fetched blk) => [blk]
              | _ => []
              end) l.

Definition verbatim (l : list event) : Prop :=
  written_data l = fetched_blocks l.

Lemma verbatim_app (l1 l2 : list event) :
  verbatim l1 -> verbatim l2 -> verbatim (l1 ++ l2).
Proof.
  unfold verbatim, written_data, fetched_blocks. intros H1 H2.
  now rewrite !flat_map_app, H1, H2.
Qed.

Lemma dump_blocks_verbatim (entries : list Z) :
  forall i st,
    verbatim (log st) -> verbatim (log (state_of (dump_blocks i entries st))).
Proof.
  induction entries as [|e es IH]; intros i st Hv; simpl; auto.
  assert (Hs : verbatim (log (state_of (dump_block i e st)))).
  { block_cases i e st; try rewrite <- app_assoc;
      now apply verbatim_app. }
  destruct (dump_block i e st) as [st'|rc st']; simpl in *; auto.
Qed.

(** X2.  On every path, the data handed to [write_data] are, call for call
    and in the same order, the blocks the data reader handed out: every block
    fetched is passed to exactly one write, whole, and nothing is written that
    was not fetched. *)
Theorem writes_are_the_fetched_blocks (fd : Fd) :
  written_data (log (snd (sqfs_data_reader_dump fd))) =
  fetched_blocks (log (snd (sqfs_data_reader_dump fd))).
Proof.
  unfold sqfs_data_reader_dump, dump_run, dump_upto.
  assert (He : verbatim (log (state_of (dump_entry fd)))).
  { presize_cases fd; reflexivity. }
  destruct (dump_entry fd) as [st0|rc st0]; simpl in *; auto.
  pose proof (dump_blocks_verbatim (block_sizes inode) 0 st0 He) as Hb.
  destruct (dump_blocks 0 (block_sizes inode) st0) as [st|rc st];
    simpl in *; auto.
  assert (Hf : verbatim (log (state_of (dump_fragment st)))).
  { fragment_cases st; auto; now apply verbatim_app. }
  now destruct (dump_fragment st).
Qed.

(** *** Which blocks are fetched *)

(** The indices passed to [sqfs_data_reader_get_block], in order. *)
Definition block_fetches (l : list event) : list nat :=
  flat_map (fun e => match e with EvGetBlock i _ => [i] | _ => [] end) l.

(** The indices of the entries that are not turned into holes, counted from
    [i] on. *)
Fixpoint data_indices (i : nat) (entries : list Z) : list nat :=
  match entries with
  | [] => []
  | entry :: rest =>
      if SQFS_IS_SPARSE_BLOCK entry && allow_sparse
      then data_indices (S i) rest
      else i :: data_indices (S i) rest
  end.

Lemma block_fetches_app (l1 l2 : list event) :
  block_fetches (l1 ++ l2) = block_fetches l1 ++ block_fetches l2.
Proof. apply flat_map_app. Qed.

Lemma dump_block_fetches (i : nat) (entry : Z) (st : state Fd) :
  block_fetches (log (state_of (dump_block i entry st))) =
  block_fetches (log st) ++
  (if SQFS_IS_SPARSE_BLOCK entry && allow_sparse then [] else [i]).
Proof.
  block_cases i entry st; repeat rewrite block_fetches_app; simpl;
    rewrite ?app_nil_r; reflexivity.
Qed.

Lemma dump_blocks_fetches (entries : list Z) :
  forall i st,
    match dump_blocks i entries st with
    | Continue st' =>
        block_fetches (log st') =
        block_fetches (log st) ++ data_indices i entries
    | Return _ st' =>
        exists k,
          block_fetches (log st') =
          block_fetches (log st) ++ firstn k (data_indices i entries)
    end.
Proof.
  induction entries as [|e es IH]; intros i st; simpl.
  - now rewrite app_nil_r.
  - pose proof (dump_block_fetches i e st) as Hs.
    destruct (dump_block i e st) as [st1|rc st1]; simpl in Hs.
    + specialize (IH (S i) st1).
      destruct (dump_blocks (S i) es st1) as [st'|rc st'].
      * rewrite IH, Hs, <- app_assoc.
        now destruct (SQFS_IS_SPARSE_BLOCK e && allow_sparse).
      * destruct IH as [k Hk]. rewrite Hk, Hs, <- app_assoc.
        destruct (SQFS_IS_SPARSE_BLOCK e && allow_sparse).
        -- now exists k.
        -- now exists (S k).
    + rewrite Hs. destruct (SQFS_IS_SPARSE_BLOCK e && allow_sparse).
      * now exists 0%nat.
      * now exists 1%nat.
Qed.

Lemma data_indices_in (entries : list Z) :
  forall i j,
    In j (data_indices i entries) ->
    (i <= j < i + List.length entries)%nat /\
    exists entry,
      nth_error entries (j - i) = Some entry /\
      SQFS_IS_SPARSE_BLOCK entry && allow_sparse = false.
Proof.
  induction entries as [|e es IH]; intros i j Hin; simpl in *; [tauto|].
  destruct (SQFS_IS_SPARSE_BLOCK e && allow_sparse) eqn:Hflag.
  - destruct (IH _ _ Hin) as (Hr & entry & Hnth & Hf). split; [lia|].
    exists entry. split; [|assumption].
    replace (j - i)%nat with (S (j - S i)) by lia. exact Hnth.
  - destruct Hin as [<-|Hin].
    + split; [lia|]. exists e. rewrite Nat.sub_diag. auto.
    + destruct (IH _ _ Hin) as (Hr & entry & Hnth & Hf). split; [lia|].
      exists entry. split; [|assumption].
      replace (j - i)%nat with (S (j - S i)) by lia. exact Hnth.
Qed.

Lemma dump_upto_return_code (fd : Fd) (entries : list Z) (rc : Z)
    (st : state Fd) :
  dump_upto fd entries = Return rc st -> rc = -1.
Proof.
  unfold dump_upto.
  assert (Hb : forall es i st0,
             dump_blocks i es st0 = Return rc st -> rc = -1).
  { induction es as [|e es IH]; intros i st0; simpl; [discriminate|].
    destruct (dump_block i e st0) as [st1|rc1 st1] eqn:Hstep; [now apply IH|].
    intros Hr. injection Hr as -> ->. revert Hstep.
    block_cases i e st0; intros Heq; now inversion Heq. }
  presize_cases fd; simpl; try (now apply Hb);
    intros Heq; now inversion Heq.
Qed.

(** X3.  A block is fetched only for an index below [num_file_blocks] whose
    entry is not turned into a hole, the indices are fetched in ascending
    order with none left out up to the point the routine got to, and a call
    that returns 0 has fetched every such index exactly once. *)
Theorem fetched_indices (fd : Fd) :
  let rc := fst (sqfs_data_reader_dump fd) in
  let fin := snd (sqfs_data_reader_dump fd) in
  (exists k,
      block_fetches (log fin) =
      firstn k (data_indices 0 (block_sizes inode))) /\
  (rc = 0 ->
   block_fetches (log fin) = data_indices 0 (block_sizes inode)) /\
  (forall i,
      In i (block_fetches (log fin)) ->
      (i < num_file_blocks inode)%nat /\
      exists entry,
        nth_error (block_sizes inode) i = Some entry /\
        SQFS_IS_SPARSE_BLOCK entry && allow_sparse = false).
Proof.
  intros rc fin.
  assert (Hmain :
    (exists k, block_fetches (log fin) =
               firstn k (data_indices 0 (block_sizes inode))) /\
    (rc = 0 ->
     block_fetches (log fin) = data_indices 0 (block_sizes inode))).
  { subst rc fin. unfold sqfs_data_reader_dump, dump_run.
    destruct (dump_upto fd (block_sizes inode)) as [st|rc st] eqn:Hup.
    - assert (Hst : block_fetches (log st) =
                    data_indices 0 (block_sizes inode)).
      { revert Hup. unfold dump_upto.
        assert (He : block_fetches (log (state_of (dump_entry fd))) = []).
        { presize_cases fd; reflexivity. }
        destruct (dump_entry fd) as [st0|rc0 st0]; simpl in *;
          [|discriminate].
        pose proof (dump_blocks_fetches (block_sizes inode) 0 st0) as Hb.
        destruct (dump_blocks 0 (block_sizes inode) st0); [|discriminate].
        intros Heq. injection Heq as <-. now rewrite Hb, He. }
      assert (Hf : block_fetches (log (state_of (dump_fragment st))) =
                   block_fetches (log st)).
      { fragment_cases st; auto; rewrite block_fetches_app; simpl;
          now rewrite app_nil_r. }
      simpl. destruct (dump_fragment st) as [st'|rc' st']; simpl in *;
        rewrite Hf, Hst; (split; [|reflexivity]);
        exists (List.length (data_indices 0 (block_sizes inode)));
        now rewrite firstn_all.
    - simpl. pose proof (dump_upto_return_code _ _ _ _ Hup) as ->.
      split; [|discriminate].
      revert Hup. unfold dump_upto.
      assert (He : block_fetches (log (state_of (dump_entry fd))) = []).
      { presize_cases fd; reflexivity. }
      destruct (dump_entry fd) as [st0|rc0 st0]; simpl in *.
      + pose proof (dump_blocks_fetches (block_sizes inode) 0 st0) as Hb.
        destruct (dump_blocks 0 (block_sizes inode) st0); [discriminate|].
        intros Heq. injection Heq as _ <-. destruct Hb as [k Hk].
        exists k. now rewrite Hk, He.
      + intros Heq. injection Heq as _ <-. exists 0%nat. now rewrite He. }
  destruct Hmain as [[k Hk] Hzero].
  split; [now exists k|]. split; [assumption|].
  intros i Hin. rewrite Hk in Hin.
  assert (Hall : In i (data_indices 0 (block_sizes inode))).
  { rewrite <- (firstn_skipn k (data_indices 0 (block_sizes inode))).
    apply in_or_app. now left. }
  destruct (data_indices_in _ _ _ Hall) as (Hr & entry & Hnth & Hflag).
  rewrite Nat.sub_0_r in Hnth. unfold num_file_blocks.
  split; [lia|]. now exists entry.
Qed.

(** *** The counter, whatever the data reader hands out *)

(** The bytes the calls so far account for: the data of the writes that
    succeeded and the amounts of the seeks that succeeded. *)
Fixpoint accounted (l : list event) : Z :=
  match l with
  | [] => 0
  | EvWrite d true :: l' => len d + accounted l'
  | EvLseek d true :: l' => d + accounted l'
  | _ :: l' => accounted l'
  end.

Lemma accounted_app (l1 l2 : list event) :
  accounted (l1 ++ l2) = accounted l1 + accounted l2.
Proof.
  induction l1 as [|e l1 IH]; simpl; auto.
  destruct e as [| d [|] | | | d [|] | |]; lia.
Qed.

Lemma wrap64_sub (a b : Z) : wrap64 (wrap64 a - b) = wrap64 (a - b).
Proof. unfold wrap64. apply Zminus_mod_idemp_l. Qed.

Lemma dump_block_accounted (i : nat) (entry : Z) (st st' : state Fd) :
  0 <= block_size ->
  u64 (filesz st) ->
  dump_block i entry st = Continue st' ->
  filesz st' =
  wrap64 (filesz st - (accounted (log st') - accounted (log st))).
Proof.
  intros Hbs Hu. unfold dump_block.
  destruct (SQFS_IS_SPARSE_BLOCK entry && allow_sparse).
  - destruct (Z.ltb_spec (filesz st) block_size) as [Hlt|Hge];
      destruct (lseek_cur (outfd st) _) as [fd' [|]]; simpl;
      intros Heq; inversion Heq; simpl; rewrite accounted_app; simpl.
    + replace (filesz st - (accounted (log st) + (filesz st + 0) -
                            accounted (log st))) with 0 by lia.
      reflexivity.
    + f_equal. lia.
  - destruct (sqfs_data_reader_get_block data inode i) as [blk|err];
      [|discriminate].
    destruct (write_data (outfd st) blk) as [fd' [|]]; simpl;
      intros Heq; inversion Heq; simpl. rewrite accounted_app. simpl.
    f_equal. unfold blk_size. lia.
Qed.

Lemma dump_upto_accounted (fd : Fd) (pre : list Z) :
  forall st,
    0 <= block_size ->
    u64 (file_size inode) ->
    dump_upto fd pre = Continue st ->
    filesz st = wrap64 (file_size inode - accounted (log st)).
Proof.
  induction pre as [|e pre IH] using rev_ind; intros st Hbs Hu Hrun.
  - unfold dump_upto, andthen in Hrun. simpl in *. revert Hrun.
    presize_cases fd; intros Heq; inversion Heq; simpl;
      rewrite Z.sub_0_r; symmetry; now apply wrap64_small.
  - rewrite dump_upto_snoc in Hrun.
    destruct (dump_upto fd pre) as [st0|rc st0] eqn:Hpre; [|discriminate].
    simpl in Hrun.
    pose proof (dump_upto_u64 fd pre Hu) as Hu0. rewrite Hpre in Hu0.
    simpl in Hu0.
    rewrite (dump_block_accounted _ _ _ _ Hbs Hu0 Hrun).
    rewrite (IH st0 Hbs Hu eq_refl), wrap64_sub. f_equal. lia.
Qed.

(** X4.  Whatever the sizes of the fetched blocks are, after any number of
    entries the counter is the file size minus the bytes written and skipped
    so far, reduced modulo 2^64; and once the loop is through, the fragment is
    fetched if and only if that residue is not zero.  Blocks that overshoot
    the file size therefore do not stop the routine: the counter wraps and a
    fragment is asked for. *)
Theorem counter_is_modular (fd : Fd) (pre : list Z) (st : state Fd) :
  u64 (file_size inode) ->
  0 <= block_size ->
  dump_upto fd pre = Continue st ->
  filesz st = wrap64 (file_size inode - accounted (log st)) /\
  (pre = block_sizes inode ->
   (fragment_fetches (log (snd (sqfs_data_reader_dump fd))) = 1%nat <->
    wrap64 (file_size inode - accounted (log st)) <> 0)).
Proof.
  intros Hu Hbs Hrun.
  pose proof (dump_upto_accounted fd pre st Hbs Hu Hrun) as Hacc.
  split; [assumption|]. intros ->.
  rewrite (fragment_fetch_count fd st Hrun), <- Hacc.
  pose proof (dump_upto_u64 fd (block_sizes inode) Hu) as Hu0.
  rewrite Hrun in Hu0. simpl in Hu0. unfold u64 in Hu0.
  destruct (Z.ltb_spec 0 (filesz st)); split; intros; try lia; discriminate.
Qed.

(** *** A data entry that fails *)

Lemma dump_upto_app (fd : Fd) (pre post : list Z) :
  dump_upto fd (pre ++ post) =
  andthen (dump_upto fd pre) (dump_blocks (List.length pre) post).
Proof.
  unfold dump_upto. destruct (dump_entry fd) as [st0|rc st0]; simpl;
    [|reflexivity].
  now rewrite dump_blocks_app.
Qed.

(** X5.  When the entries before an entry have been processed and the fetch
    for that entry fails, the routine returns -1 with the descriptor and the
    counter exactly as the entries before left them: nothing is written for
    the entry, no later entry is touched and no fragment is fetched.  When the
    fetch succeeds and the write fails, the descriptor is what the failed
    write left, the counter is not decremented, and the block is released. *)
Theorem data_entry_failure (fd : Fd) (pre post : list Z) (entry : Z)
    (st : state Fd) :
  block_sizes inode = pre ++ entry :: post ->
  SQFS_IS_SPARSE_BLOCK entry && allow_sparse = false ->
  dump_upto fd pre = Continue st ->
  match sqfs_data_reader_get_block data inode (List.length pre) with
  | FetchFailed err =>
      sqfs_data_reader_dump fd =
      (-1, mkState (outfd st) (filesz st)
             (log st ++ [EvGetBlock (List.length pre) (FetchFailed err);
                         EvStderr (MsgReadBlock err)]))
  | Fetched blk =>
      snd (write_data (outfd st) blk) = false ->
      sqfs_data_reader_dump fd =
      (-1, mkState (fst (write_data (outfd st) blk)) (filesz st)
             (log st ++ [EvGetBlock (List.length pre) (Fetched blk);
                         EvWrite blk false;
                         EvFree (BlkData (List.length pre))]))
  end.
Proof.
  intros Hsplit Hflag Hpre.
  unfold sqfs_data_reader_dump, dump_run.
  rewrite Hsplit, dump_upto_app, Hpre. simpl.
  unfold dump_block. rewrite Hflag.
  destruct (sqfs_data_reader_get_block data inode (List.length pre))
    as [blk|err]; [|reflexivity].
  destruct (write_data (outfd st) blk) as [fd' ok]. simpl.
  intros ->. reflexivity.
Qed.

(** *** Resizing and seeking *)

Definition is_ftruncate (e : event) : bool :=
  match e with
  | EvFtruncate _ _ => true
  | _ => false
  end.

(** Every seek is made with sparse output permitted, over an amount between
    zero and the block size; every resize is to the file size. *)
Definition holes_in_bounds (l : list event) : Prop :=
  (forall d ok,
      In (EvLseek d ok) l -> allow_sparse = true /\ 0 <= d <= block_size) /\
  (forall n ok,
      In (EvFtruncate n ok) l ->
      allow_sparse = true /\ n = file_size inode).

Lemma holes_in_bounds_app (l1 l2 : list event) :
  holes_in_bounds l1 -> holes_in_bounds l2 -> holes_in_bounds (l1 ++ l2).
Proof.
  intros [Hs1 Ht1] [Hs2 Ht2]. split; intros x ok Hin;
    apply in_app_or in Hin as [Hin|Hin]; eauto.
Qed.

Lemma holes_in_bounds_other (l : list event) :
  forallb (fun e => negb (is_hole_call e)) l = true -> holes_in_bounds l.
Proof.
  intros Hall. rewrite forallb_forall in Hall.
  split; intros x ok Hin; apply Hall in Hin; discriminate.
Qed.

Lemma dump_block_holes (i : nat) (entry : Z) (st : state Fd) :
  0 <= block_size ->
  u64 (filesz st) ->
  holes_in_bounds (log st) ->
  holes_in_bounds (log (state_of (dump_block i entry st))).
Proof.
  intros Hbs Hu Hh. unfold dump_block, fail_sparse.
  destruct (SQFS_IS_SPARSE_BLOCK entry && allow_sparse) eqn:Hflag.
  - apply andb_true_iff in Hflag as [_ Hallow].
    assert (Hseek : forall d ok,
               0 <= d <= block_size -> holes_in_bounds [EvLseek d ok]).
    { intros d ok Hd. split; intros x ok' [Hin|[]]; inversion Hin; subst;
        auto. }
    unfold u64 in Hu.
    destruct (Z.ltb_spec (filesz st) block_size);
      destruct (lseek_cur (outfd st) _) as [fd' [|]]; simpl;
      repeat apply holes_in_bounds_app; auto;
      try (apply Hseek; lia); now apply holes_in_bounds_other.
  - destruct (sqfs_data_reader_get_block data inode i) as [blk|err];
      [destruct (write_data (outfd st) blk) as [fd' [|]]|]; simpl;
      apply holes_in_bounds_app; auto; now apply holes_in_bounds_other.
Qed.

Lemma dump_blocks_holes (entries : list Z) :
  0 <= block_size ->
  forall i st,
    u64 (filesz st) ->
    holes_in_bounds (log st) ->
    holes_in_bounds (log (state_of (dump_blocks i entries st))).
Proof.
  intros Hbs. induction entries as [|e es IH]; intros i st Hu Hh; simpl; auto.
  pose proof (dump_block_holes i e st Hbs Hu Hh) as Hs.
  pose proof (dump_block_u64 i e st Hu) as Hu1.
  destruct (dump_block i e st) as [st'|rc st']; simpl in *; auto.
Qed.

Lemma ftruncate_count_app (l1 l2 : list event) :
  List.length (filter is_ftruncate (l1 ++ l2)) =
  (List.length (filter is_ftruncate l1) +
   List.length (filter is_ftruncate l2))%nat.
Proof. now rewrite filter_app, length_app. Qed.

Lemma dump_blocks_ftruncate (entries : list Z) :
  forall i st,
    List.length (filter is_ftruncate
                   (log (state_of (dump_blocks i entries st)))) =
    List.length (filter is_ftruncate (log st)).
Proof.
  induction entries as [|e es IH]; intros i st; simpl; auto.
  assert (Hs : List.length (filter is_ftruncate
                              (log (state_of (dump_block i e st)))) =
               List.length (filter is_ftruncate (log st))).
  { block_cases i e st; repeat rewrite ftruncate_count_app; simpl; lia. }
  destruct (dump_block i e st) as [st'|rc st']; simpl in *; auto.
  now rewrite IH.
Qed.

(** X6.  The descriptor is resized exactly once, to the file size, when
    sparse output is permitted, and never otherwise.  It is only ever moved
    with sparse output permitted, and never by more than the block size nor
    backwards. *)
Theorem holes_are_bounded (fd : Fd) :
  u64 (file_size inode) ->
  0 <= block_size ->
  let fin := snd (sqfs_data_reader_dump fd) in
  List.length (filter is_ftruncate (log fin)) =
    (if allow_sparse then 1%nat else 0%nat) /\
  (forall n ok,
      In (EvFtruncate n ok) (log fin) ->
      allow_sparse = true /\ n = file_size inode) /\
  (forall d ok,
      In (EvLseek d ok) (log fin) ->
      allow_sparse = true /\ 0 <= d <= block_size).
Proof.
  intros Hu Hbs fin. subst fin.
  unfold sqfs_data_reader_dump, dump_run, dump_upto.
  assert (He : holes_in_bounds (log (state_of (dump_entry fd))) /\
               List.length (filter is_ftruncate
                              (log (state_of (dump_entry fd)))) =
               (if allow_sparse then 1%nat else 0%nat)).
  { unfold dump_entry, dump_presize, fail_sparse. simpl.
    destruct allow_sparse eqn:Hallow.
    - destruct (ftruncate fd (file_size inode)) as [fd' [|]]; simpl;
        (split; [|reflexivity]); split; intros x ok Hin; simpl in Hin;
        repeat (destruct Hin as [Hin|Hin]; try inversion Hin; subst);
        auto; contradiction.
    - simpl. split; [|reflexivity]. now apply holes_in_bounds_other. }
  pose proof (dump_entry_u64 fd Hu) as Hu0.
  destruct He as [Hh0 Hc0].
  destruct (dump_entry fd) as [st0|rc st0]; simpl in *.
  - pose proof (dump_blocks_holes (block_sizes inode) Hbs 0 st0 Hu0 Hh0)
      as Hh.
    pose proof (dump_blocks_ftruncate (block_sizes inode) 0 st0) as Hc.
    rewrite Hc0 in Hc.
    destruct (dump_blocks 0 (block_sizes inode) st0) as [st|rc st];
      simpl in *.
    + assert (Hf : holes_in_bounds (log (state_of (dump_fragment st))) /\
                   List.length (filter is_ftruncate
                                  (log (state_of (dump_fragment st)))) =
                   List.length (filter is_ftruncate (log st))).
      { fragment_cases st; auto;
          (split; [apply holes_in_bounds_app; auto;
                   now apply holes_in_bounds_other|]);
          rewrite ftruncate_count_app; simpl; lia. }
      destruct Hf as [[Hs Ht] Hcf]. rewrite Hc in Hcf.
      destruct (dump_fragment st); simpl in *; auto.
    + destruct Hh as [Hs Ht]. auto.
  - destruct Hh0 as [Hs Ht]. auto.
Qed.

(** *** The diagnostics *)

(** What the routine has printed, in order. *)
Definition printed (l : list event) : list message :=
  flat_map (fun e => match e with EvStderr m => [m] | _ => [] end) l.

(** The diagnostic each failed call asks for.  A failed [write_data] asks for
    none: the routine prints nothing of its own for it. *)
Definition reported (l : list event) : list message :=
  flat_map (fun e =>
              match e with
              | EvFtruncate _ false | EvLseek _ false => [MsgSparse]
              | EvGetBlock _ (FetchFailed err) => [MsgReadBlock err]
              | EvGetFragment (FetchFailed _) => [MsgReadFragment]
              | _ => []
              end) l.

Definition silent (l : list event) : Prop :=
  printed l = [] /\ reported l = [].

Definition flow_told (f : flow (state Fd)) : Prop :=
  match f with
  | Continue st => silent (log st)
  | Return rc st =>
      printed (log st) = reported (log st) /\
      (List.length (printed (log st)) <= 1)%nat /\
      (rc = 0 -> printed (log st) = [])
  end.

Ltac told Hs :=
  destruct Hs as [?Hp ?Hr]; unfold silent, printed, reported in *;
  rewrite ?flat_map_app; simpl;
  repeat match goal with
         | Hx : flat_map _ _ = [] |- _ => rewrite Hx
         end;
  simpl; repeat split; auto; try (intros; discriminate).

Lemma dump_block_told (i : nat) (entry : Z) (st : state Fd) :
  silent (log st) -> flow_told (dump_block i entry st).
Proof. intros Hs. block_cases i entry st; told Hs. Qed.

Lemma dump_blocks_told (entries : list Z) :
  forall i st, silent (log st) -> flow_told (dump_blocks i entries st).
Proof.
  induction entries as [|e es IH]; intros i st Hs; simpl; auto.
  pose proof (dump_block_told i e st Hs) as Hb.
  destruct (dump_block i e st) as [st'|rc st']; simpl in *; auto.
Qed.

Lemma dump_fragment_told (st : state Fd) :
  silent (log st) -> flow_told (dump_fragment st).
Proof. intros Hs. fragment_cases st; told Hs. Qed.

(** X8.  What the routine prints is decided by the call that failed: the
    sparse-file diagnostic for a failed [ftruncate] or [lseek], the data block
    diagnostic with the error code of the fetch for a failed block fetch, the
    fragment diagnostic for a failed fragment fetch, and nothing of its own
    for a failed [write_data].  It prints at most one diagnostic, and none
    when it returns 0. *)
Theorem diagnostics_match_failures (fd : Fd) :
  let rc := fst (sqfs_data_reader_dump fd) in
  let fin := snd (sqfs_data_reader_dump fd) in
  printed (log fin) = reported (log fin) /\
  (List.length (printed (log fin)) <= 1)%nat /\
  (rc = 0 -> printed (log fin) = []).
Proof.
  intros rc fin. subst rc fin.
  assert (Hrun : flow_told (dump_run fd)).
  { unfold dump_run, dump_upto.
    assert (He : flow_told (dump_entry fd)).
    { presize_cases fd; unfold silent; repeat split; auto; discriminate. }
    destruct (dump_entry fd) as [st0|rc st0]; simpl in *; auto.
    pose proof (dump_blocks_told (block_sizes inode) 0 st0 He) as Hb.
    destruct (dump_blocks 0 (block_sizes inode) st0) as [st|rc st];
      simpl in *; auto.
    now apply dump_fragment_told. }
  unfold sqfs_data_reader_dump.
  destruct (dump_run fd) as [st|rc st]; simpl in *; auto.
  destruct Hrun as [Hp Hr]. rewrite Hp, Hr. simpl. auto.
Qed.

End Routine.

End Dump.

(** ** A file as output descriptor

    The descriptor the routine writes to, as a regular file: its bytes and the
    file offset.  Bytes never written read as zero. *)

Module FileSink.

Import Dump.

(** A regular file behind the descriptor: its bytes, the file offset, and the
    size the file system lets it grow to (the room that is left, the largest
    file it holds, or the process's file size limit, whichever is least). *)
Record file := mkFile {
  content : list byte;
  pos : nat;
  limit : Z
}.

(** A fresh file where files of up to 2^31 - 1 bytes can be stored. *)
Definition empty_file : file := mkFile [] 0 2147483647.

(** The [off_t] a [uint64_t] or [size_t] argument converts to. *)
Definition off_t (z : Z) : Z := if z <? 2 ^ 63 then z else z - 2 ^ 64.

(** [ftruncate]: cut the file, or extend it with zeros. *)
Definition resize (n : nat) (c : list byte) : list byte :=
  firstn n c ++ zeros (n - List.length c).

(** [write] of [d] at offset [at_]: a gap between the end of the file and the
    offset reads as zeros, bytes already there are replaced; writing nothing
    changes nothing. *)
Definition store (c : list byte) (at_ : nat) (d : list byte) : list byte :=
  match d with
  | [] => c
  | _ :: _ =>
      let padded := c ++ zeros (at_ - List.length c) in
      firstn at_ padded ++ d ++ skipn (at_ + List.length d) padded
  end.

(** [ftruncate] fails for a negative length ([EINVAL]) and for a length the
    file cannot take ([EFBIG]). *)
Definition file_ftruncate (f : file) (n : Z) : file * bool :=
  if off_t n <? 0 then (f, false)
  else if limit f <? off_t n then (f, false)
  else (mkFile (resize (Z.to_nat (off_t n)) (content f)) (pos f) (limit f),
        true).

Definition file_lseek_cur (f : file) (d : Z) : file * bool :=
  if Z.of_nat (pos f) + off_t d <? 0 then (f, false)
  else (mkFile (content f) (Z.to_nat (Z.of_nat (pos f) + off_t d)) (limit f),
        true).

(** [write_data] writes until all of [d] is written.  Nothing to write is no
    call of [write] at all.  Data that would take the file beyond what it can
    grow to ([ENOSPC], [EFBIG]) is written as far as it fits, and the helper
    fails. *)
Definition file_write_data (f : file) (d : list byte) : file * bool :=
  match d with
  | [] => (f, true)
  | _ :: _ =>
      if Z.of_nat (pos f + List.length d) <=? limit f
      then (mkFile (store (content f) (pos f) d) (pos f + List.length d)
              (limit f), true)
      else
        let fit := firstn (Z.to_nat (limit f - Z.of_nat (pos f))) d in
        (mkFile (store (content f) (pos f) fit) (pos f + List.length fit)
           (limit f), false)
  end.

#[export] Instance file_sink : Sink file := {|
  ftruncate := file_ftruncate;
  lseek_cur := file_lseek_cur;
  write_data := file_write_data
|}.

(** An instance of [SQFS_IS_SPARSE_BLOCK] to run the routine with: an entry
    whose on-disk size (its low 24 bits) is zero stands for a hole. *)
Definition on_disk_size_zero (entry : Z) : bool :=
  Z.land entry (2 ^ 24 - 1) =? 0.

(** What the routine does for block [i] when fetch and write succeed. *)
Definition served (i : nat) (blk : sqfs_block_t) : list event :=
  [EvGetBlock i (Fetched blk); EvWrite blk true; EvFree (BlkData i)].

(** A call on the descriptor that failed. *)
Definition sink_failure (e : event) : bool :=
  match e with
  | EvFtruncate _ false | EvLseek _ false | EvWrite _ false => true
  | _ => false
  end.

Definition sink_failed (l : list event) : bool := existsb sink_failure l.

(** What the three calls do to a regular file, through a descriptor that is
    not in append mode, when they succeed: [bytes] is what the file holds,
    [offset] the file offset of the descriptor.  Any of them may fail, for
    whatever reason (no space, a size limit, an I/O error); nothing is said
    about the file then. *)
Class RegularFile (Fd : Type) `{Sink Fd} := {
  bytes : Fd -> list byte;
  offset : Fd -> nat;
  ftruncate_done : forall fd n fd',
    ftruncate fd n = (fd', true) ->
    0 <= off_t n /\
    bytes fd' = resize (Z.to_nat (off_t n)) (bytes fd) /\
    offset fd' = offset fd;
  lseek_done : forall fd d fd',
    lseek_cur fd d = (fd', true) ->
    0 <= Z.of_nat (offset fd) + off_t d /\
    bytes fd' = bytes fd /\
    offset fd' = Z.to_nat (Z.of_nat (offset fd) + off_t d);
  write_done : forall fd d fd',
    write_data fd d = (fd', true) ->
    bytes fd' = store (bytes fd) (offset fd) d /\
    offset fd' = (offset fd + List.length d)%nat
}.

(** A descriptor just opened on a new file. *)
Definition fresh {Fd : Type} `{RegularFile Fd} (fd : Fd) : Prop :=
  bytes fd = [] /\ offset fd = 0%nat.

Lemma file_ftruncate_done (fd : file) (n : Z) (fd' : file) :
  file_ftruncate fd n = (fd', true) ->
  0 <= off_t n /\
  content fd' = resize (Z.to_nat (off_t n)) (content fd) /\
  pos fd' = pos fd.
Proof.
  unfold file_ftruncate.
  destruct (Z.ltb_spec (off_t n) 0); [discriminate|].
  destruct (limit fd <? off_t n); [discriminate|].
  intros Heq. injection Heq as <-. simpl. auto.
Qed.

Lemma file_lseek_done (fd : file) (d : Z) (fd' : file) :
  file_lseek_cur fd d = (fd', true) ->
  0 <= Z.of_nat (pos fd) + off_t d /\
  content fd' = content fd /\
  pos fd' = Z.to_nat (Z.of_nat (pos fd) + off_t d).
Proof.
  unfold file_lseek_cur.
  destruct (Z.ltb_spec (Z.of_nat (pos fd) + off_t d) 0); [discriminate|].
  intros Heq. injection Heq as <-. simpl. auto.
Qed.

Lemma file_write_done (fd : file) (d : list byte) (fd' : file) :
  file_write_data fd d = (fd', true) ->
  content fd' = store (content fd) (pos fd) d /\
  pos fd' = (pos fd + List.length d)%nat.
Proof.
  unfold file_write_data. destruct d as [|b d].
  - intros Heq. injection Heq as <-. simpl. auto.
  - destruct (_ <=? _); [|discriminate].
    intros Heq. injection Heq as <-. simpl. auto.
Qed.

#[export] Instance file_regular : RegularFile file := {|
  bytes := content;
  offset := pos;
  ftruncate_done := file_ftruncate_done;
  lseek_done := file_lseek_done;
  write_done := file_write_done
|}.

Lemma store_at_end (w d : list byte) : store w (List.length w) d = w ++ d.
Proof.
  unfold store. destruct d as [|b d]; [now rewrite app_nil_r|].
  remember (b :: d) as blk. clear Heqblk.
  rewrite Nat.sub_diag. simpl. rewrite app_nil_r.
  rewrite firstn_all. rewrite skipn_all2 by lia. now rewrite app_nil_r.
Qed.

Lemma zeros_split (n m : nat) : (m <= n)%nat -> zeros n = zeros m ++ zeros (n - m).
Proof.
  intros Hle. unfold zeros. rewrite <- repeat_app. f_equal. lia.
Qed.

Lemma skipn_zeros (n m : nat) : skipn m (zeros n) = zeros (n - m).
Proof.
  unfold zeros. revert n. induction m as [|m IH]; intros n; simpl.
  - now rewrite Nat.sub_0_r.
  - destruct n as [|n]; simpl; auto.
Qed.

Lemma store_over_zeros (w d : list byte) (n : nat) :
  store (w ++ zeros n) (List.length w) d =
  w ++ d ++ zeros (n - List.length d).
Proof.
  unfold store. destruct d as [|b d]; [now rewrite Nat.sub_0_r|].
  remember (b :: d) as blk. clear Heqblk.
  rewrite length_app.
  replace (List.length w - (List.length w + List.length (zeros n)))%nat
    with 0%nat by lia.
  simpl. rewrite app_nil_r.
  rewrite firstn_app, Nat.sub_diag, firstn_all. simpl. rewrite app_nil_r.
  rewrite skipn_app, skipn_all2 by lia. simpl.
  replace (List.length w + List.length blk - List.length w)%nat
    with (List.length blk) by lia.
  now rewrite skipn_zeros.
Qed.

Lemma length_zeros (n : nat) : List.length (zeros n) = n.
Proof. apply repeat_length. Qed.

Lemma off_t_small (z : Z) : 0 <= z < 2 ^ 63 -> off_t z = z.
Proof.
  intros Hz. unfold off_t. destruct (Z.ltb_spec z (2 ^ 63)); lia.
Qed.

Lemma wrap64_small63 (z : Z) : 0 <= z < 2 ^ 63 -> wrap64 z = z.
Proof. intros Hz. unfold wrap64. apply Z.mod_small. lia. Qed.

Lemma sink_failed_app (l1 l2 : list event) :
  sink_failed (l1 ++ l2) = sink_failed l1 || sink_failed l2.
Proof. apply existsb_app. Qed.

(** *** What ends up in the file *)

Section Reconstruct.

Context {Fd : Type} `{RegularFile Fd}.

Variable SQFS_IS_SPARSE_BLOCK : Z -> bool.
Variable data : sqfs_data_reader_t.
Variable inode : sqfs_inode_generic_t.
Variable block_size : Z.
Variable allow_sparse : bool.

(** The entries the loop seeks over instead of fetching. *)
Definition skipped (entry : Z) : bool :=
  SQFS_IS_SPARSE_BLOCK entry && allow_sparse.

(** Every fetch the routine makes succeeds, with a block no larger than what
    is left of the file when it is written. *)
Fixpoint in_reach (i : nat) (entries : list Z) (remaining : Z) : Prop :=
  match entries with
  | [] =>
      0 < remaining ->
      exists blk,
        sqfs_data_reader_get_fragment data inode = Fetched blk /\
        blk_size blk <= remaining
  | entry :: rest =>
      if skipped entry
      then in_reach (S i) rest (remaining - Z.min remaining block_size)
      else exists blk,
             sqfs_data_reader_get_block data inode i = Fetched blk /\
             blk_size blk <= remaining /\
             in_reach (S i) rest (remaining - blk_size blk)
  end.

(** The bytes the entries from index [i] on and the fragment stand for, with
    [remaining] bytes of the file left: zeros for a skipped entry, the fetched
    block otherwise. *)
Fixpoint pieces (i : nat) (entries : list Z) (remaining : Z) : list byte :=
  match entries with
  | [] =>
      if 0 <? remaining
      then match sqfs_data_reader_get_fragment data inode with
           | Fetched blk => blk
           | FetchFailed _ => []
           end
      else []
  | entry :: rest =>
      if skipped entry
      then zeros (Z.to_nat (Z.min remaining block_size)) ++
           pieces (S i) rest (remaining - Z.min remaining block_size)
      else match sqfs_data_reader_get_block data inode i with
           | Fetched blk => blk ++ pieces (S i) rest (remaining - blk_size blk)
           | FetchFailed _ => []
           end
  end.

(** The zeros [ftruncate] has put behind the file offset. *)
Definition slack (remaining : Z) : nat :=
  if allow_sparse then Z.to_nat remaining else 0%nat.

(** The file while the routine runs and no call on the descriptor has failed:
    [produced] up to the file offset, then the zeros of the part not reached
    yet. *)
Definition laid_out (st : state Fd) (produced : list byte) : Prop :=
  0 <= filesz st < 2 ^ 63 /\
  len produced + filesz st = file_size inode /\
  offset (outfd st) = List.length produced /\
  bytes (outfd st) = produced ++ zeros (slack (filesz st)) /\
  sink_failed (log st) = false.

(** A statement keeps [P], or returns -1 after a failed call on the
    descriptor. *)
Definition or_failed (f : flow (state Fd)) (P : state Fd -> Prop) : Prop :=
  match f with
  | Continue st => P st
  | Return rc st => rc = -1 /\ sink_failed (log st) = true
  end.

Lemma dump_block_laid_out (i : nat) (entry : Z) (rest : list Z)
    (st : state Fd) (produced : list byte) :
  0 <= block_size ->
  laid_out st produced ->
  in_reach i (entry :: rest) (filesz st) ->
  or_failed
    (dump_block SQFS_IS_SPARSE_BLOCK data inode block_size allow_sparse
       i entry st)
    (fun st' =>
       exists piece,
         laid_out st' (produced ++ piece) /\
         in_reach (S i) rest (filesz st') /\
         pieces i (entry :: rest) (filesz st) =
         piece ++ pieces (S i) rest (filesz st')).
Proof.
  intros Hbs (Hrange & Hsum & Hpos & Hcontent & Hclean) Hreach.
  cbn [in_reach pieces] in *. unfold dump_block, fail_sparse.
  unfold skipped in *.
  destruct (SQFS_IS_SPARSE_BLOCK entry && allow_sparse) eqn:Hflag.
  - apply andb_true_iff in Hflag as [_ Hallow].
    set (m := Z.min (filesz st) block_size) in *.
    assert (Hm : 0 <= m <= filesz st) by (subst m; lia).
    set (diff := if filesz st <? block_size then _ else _).
    assert (Hd : diff = (m, filesz st - m)).
    { subst diff m. destruct (Z.ltb_spec (filesz st) block_size).
      - rewrite Z.min_l by lia. f_equal. lia.
      - rewrite Z.min_r by lia. f_equal. apply wrap64_small63. lia. }
    rewrite Hd. cbv beta iota.
    destruct (lseek_cur (outfd st) m) as [fd' [|]] eqn:Hseek;
      cbn [or_failed outfd filesz log].
    + apply lseek_done in Hseek as (_ & Hb & Ho).
      rewrite off_t_small in Ho by lia.
      exists (zeros (Z.to_nat m)).
      split; [|split; [assumption|reflexivity]].
      unfold laid_out. cbn [outfd filesz log].
      split; [lia|]. split; [|split; [|split]].
      * unfold len in *. rewrite length_app, length_zeros. lia.
      * rewrite Ho, Hpos, length_app, length_zeros. lia.
      * rewrite Hb, Hcontent, <- app_assoc. f_equal. unfold slack.
        rewrite Hallow.
        rewrite (zeros_split (Z.to_nat (filesz st)) (Z.to_nat m)) by lia.
        f_equal. f_equal. lia.
      * rewrite sink_failed_app, Hclean. reflexivity.
    + split; [reflexivity|]. rewrite !sink_failed_app. simpl.
      now rewrite !orb_true_r.
  - destruct Hreach as (blk & Hget & Hle & Hrest). rewrite Hget.
    assert (Hlen : 0 <= blk_size blk) by (unfold blk_size, len; lia).
    destruct (write_data (outfd st) blk) as [fd' [|]] eqn:Hwrite;
      cbn [or_failed outfd filesz log].
    + apply write_done in Hwrite as (Hb & Ho).
      exists blk. rewrite wrap64_small63 by lia.
      split; [|split; [assumption|reflexivity]].
      unfold laid_out. cbn [outfd filesz log].
      split; [lia|]. split; [|split; [|split]].
      * unfold blk_size, len in *. rewrite length_app. lia.
      * rewrite Ho, Hpos, length_app. reflexivity.
      * rewrite Hb, Hcontent, Hpos, store_over_zeros, <- app_assoc.
        f_equal. f_equal. f_equal. unfold slack, blk_size, len in *.
        destruct allow_sparse; lia.
      * rewrite sink_failed_app, Hclean. reflexivity.
    + split; [reflexivity|]. rewrite sink_failed_app. simpl.
      now rewrite orb_true_r.
Qed.

Lemma dump_blocks_laid_out (entries : list Z) :
  0 <= block_size ->
  forall i st produced,
    laid_out st produced ->
    in_reach i entries (filesz st) ->
    or_failed
      (dump_blocks SQFS_IS_SPARSE_BLOCK data inode block_size allow_sparse
         i entries st)
      (fun st' =>
         exists mid,
           laid_out st' (produced ++ mid) /\
           in_reach 0 [] (filesz st') /\
           pieces i entries (filesz st) = mid ++ pieces 0 [] (filesz st')).
Proof.
  intros Hbs. induction entries as [|e es IH]; intros i st produced Hl Hr.
  - cbn [dump_blocks or_failed]. exists []. rewrite app_nil_r. auto.
  - pose proof (dump_block_laid_out i e es st produced Hbs Hl Hr) as Hstep.
    cbn [dump_blocks].
    destruct (dump_block _ _ _ _ _ i e st) as [st1|rc st1];
      cbn [or_failed] in *; [|assumption].
    destruct Hstep as (piece & Hl1 & Hr1 & Hp1).
    pose proof (IH (S i) st1 (produced ++ piece) Hl1 Hr1) as Hrest.
    destruct (dump_blocks _ _ _ _ _ (S i) es st1) as [st'|rc st'];
      cbn [or_failed] in *; [|assumption].
    destruct Hrest as (mid & Hl' & Hr' & Hp').
    exists (piece ++ mid). rewrite app_assoc.
    split; [assumption|]. split; [assumption|].
    rewrite Hp1, Hp', app_assoc. reflexivity.
Qed.

Lemma dump_entry_laid_out (fd : Fd) :
  fresh fd ->
  0 <= file_size inode < 2 ^ 63 ->
  or_failed (dump_entry inode allow_sparse fd)
    (fun st => laid_out st [] /\ filesz st = file_size inode).
Proof.
  intros [Hbytes Hoffset] Hsz. unfold dump_entry, dump_presize, fail_sparse.
  cbn [outfd filesz log]. unfold laid_out, slack.
  destruct allow_sparse.
  - destruct (ftruncate fd (file_size inode)) as [fd' [|]] eqn:Htrunc;
      cbn [or_failed outfd filesz log app].
    + apply ftruncate_done in Htrunc as (_ & Hb & Ho).
      rewrite off_t_small in Hb by lia.
      split; [|reflexivity]. split; [lia|]. split; [reflexivity|].
      split; [now rewrite Ho|]. split; [|reflexivity].
      rewrite Hb, Hbytes. unfold resize.
      now rewrite firstn_nil, Nat.sub_0_r.
    + split; reflexivity.
  - cbn [or_failed outfd filesz log].
    split; [|reflexivity]. split; [lia|]. split; [reflexivity|].
    split; [assumption|]. split; [assumption|reflexivity].
Qed.

(** A run that went through: no call on the descriptor failed and the file
    holds the pieces, in order, followed by what is left of the zeros that
    [ftruncate] put there. *)
Definition reconstructed (run : Z * state Fd) : Prop :=
  let image := pieces 0 (block_sizes inode) (file_size inode) in
  fst run = 0 /\
  sink_failed (log (snd run)) = false /\
  len image <= file_size inode /\
  offset (outfd (snd run)) = List.length image /\
  bytes (outfd (snd run)) =
    image ++ zeros (slack (file_size inode) - List.length image).

Lemma run_laid_out (fd : Fd) :
  fresh fd ->
  0 <= file_size inode < 2 ^ 63 ->
  0 <= block_size ->
  in_reach 0 (block_sizes inode) (file_size inode) ->
  let run := sqfs_data_reader_dump SQFS_IS_SPARSE_BLOCK data inode block_size
               allow_sparse fd in
  reconstructed run \/
  (fst run = -1 /\ sink_failed (log (snd run)) = true).
Proof.
  intros Hfresh Hsz Hbs Hreach run. subst run.
  unfold sqfs_data_reader_dump, dump_run, dump_upto.
  pose proof (dump_entry_laid_out fd Hfresh Hsz) as Hentry.
  destruct (dump_entry inode allow_sparse fd) as [s0|rc s0];
    cbn [or_failed andthen] in *; [|now right].
  destruct Hentry as [Hl0 Hf0]. rewrite <- Hf0 in Hreach.
  pose proof (dump_blocks_laid_out (block_sizes inode) Hbs 0 s0 [] Hl0 Hreach)
    as Hloop.
  destruct (dump_blocks _ _ _ _ _ 0 (block_sizes inode) s0) as [st|rc st];
    cbn [or_failed andthen] in *; [|now right].
  destruct Hloop
    as (mid & (Hrange & Hsum & Hpos & Hcontent & Hclean) & Hfrag & Hpieces).
  rewrite Hf0 in Hpieces.
  simpl in Hsum, Hpos, Hcontent, Hfrag. unfold reconstructed.
  rewrite Hpieces. cbn [pieces]. unfold dump_fragment. unfold len in *.
  destruct (Z.ltb_spec 0 (filesz st)) as [Hpositive|Hzero].
  - destruct (Hfrag Hpositive) as (blk & -> & Hle).
    destruct (write_data (outfd st) blk) as [fd' [|]] eqn:Hwrite;
      cbn [fst snd outfd log].
    + left. apply write_done in Hwrite as (Hb & Ho).
      split; [reflexivity|].
      split; [rewrite sink_failed_app, Hclean; reflexivity|].
      rewrite !length_app. unfold blk_size, len in Hle.
      split; [lia|]. split; [now rewrite Ho, Hpos|].
      rewrite Hb, Hcontent, Hpos, store_over_zeros, <- app_assoc.
      f_equal. f_equal. f_equal. unfold slack. destruct allow_sparse; lia.
    + right. split; [reflexivity|]. rewrite sink_failed_app. simpl.
      now rewrite orb_true_r.
  - left. cbn [fst snd]. rewrite app_nil_r.
    split; [reflexivity|]. split; [assumption|]. split; [lia|].
    split; [assumption|]. rewrite Hcontent. f_equal. f_equal.
    unfold slack. destruct allow_sparse; lia.
Qed.

(** X7.  On a regular file that starts empty, and with a data reader whose
    every fetch succeeds with a block no larger than what is left of the
    file, the routine returns 0 exactly when no call on the descriptor fails
    (and -1 otherwise).  When it returns 0 the file holds, in the order of the
    block list, the fetched block of every entry that is not skipped and
    [min remaining block_size] zero bytes for every skipped one, then the
    fragment; the file offset ends behind these bytes, and with sparse output
    permitted the file is exactly [file_size] bytes long, the part behind the
    offset being zeros. *)
Theorem file_is_reconstructed (fd : Fd) :
  fresh fd ->
  0 <= file_size inode < 2 ^ 63 ->
  0 <= block_size ->
  in_reach 0 (block_sizes inode) (file_size inode) ->
  let run := sqfs_data_reader_dump SQFS_IS_SPARSE_BLOCK data inode block_size
               allow_sparse fd in
  let image := pieces 0 (block_sizes inode) (file_size inode) in
  (fst run = 0 \/ fst run = -1) /\
  (fst run = 0 <-> sink_failed (log (snd run)) = false) /\
  (fst run = 0 ->
   offset (outfd (snd run)) = List.length image /\
   bytes (outfd (snd run)) =
     image ++ zeros (slack (file_size inode) - List.length image) /\
   (allow_sparse = true -> len (bytes (outfd (snd run))) = file_size inode)).
Proof.
  intros Hfresh Hsz Hbs Hreach run image. subst run image.
  destruct (run_laid_out fd Hfresh Hsz Hbs Hreach)
    as [(Hrc & Hclean & Hlen & Hpos & Hcontent)|[Hrc Hfailed]].
  - split; [now left|]. split; [tauto|]. intros _.
    split; [assumption|]. split; [assumption|].
    intros Hallow. rewrite Hcontent. unfold len in *.
    rewrite length_app, length_zeros. unfold slack. rewrite Hallow. lia.
  - split; [now right|]. rewrite Hrc, Hfailed.
    split; [split; discriminate|discriminate].
Qed.

End Reconstruct.

(** *** Sparse output disabled *)

Section Fallback.

Context {Fd : Type} `{RegularFile Fd}.

Variable SQFS_IS_SPARSE_BLOCK : Z -> bool.
Variable data : sqfs_data_reader_t.
Variable inode : sqfs_inode_generic_t.
Variable block_size : Z.

(** The data reader serves the inode as the image format intends: every block
    fetch succeeds with a block no larger than what is left of the file, the
    block of a sparse-tagged entry is [min remaining block_size] zero bytes,
    and the fragment is exactly what is left after the blocks. *)
Fixpoint well_served (i : nat) (entries : list Z) (remaining : Z) : Prop :=
  match entries with
  | [] =>
      0 < remaining ->
      exists blk,
        sqfs_data_reader_get_fragment data inode = Fetched blk /\
        blk_size blk = remaining
  | entry :: rest =>
      exists blk,
        sqfs_data_reader_get_block data inode i = Fetched blk /\
        blk_size blk <= remaining /\
        (SQFS_IS_SPARSE_BLOCK entry = true ->
         blk = zeros (Z.to_nat (Z.min remaining block_size))) /\
        well_served (S i) rest (remaining - blk_size blk)
  end.

Abbreviation run_of sparse fd :=
  (sqfs_data_reader_dump SQFS_IS_SPARSE_BLOCK data inode block_size sparse fd).
Abbreviation image_of sparse :=
  (pieces SQFS_IS_SPARSE_BLOCK data inode block_size sparse).

Lemma well_served_in_reach (sparse : bool) (entries : list Z) :
  0 <= block_size ->
  forall i remaining,
    well_served i entries remaining ->
    in_reach SQFS_IS_SPARSE_BLOCK data inode block_size sparse
      i entries remaining.
Proof.
  intros Hbs. induction entries as [|e es IH]; intros i remaining Hws;
    cbn [in_reach well_served] in *.
  - intros Hpos. destruct (Hws Hpos) as (blk & Hget & Hsz).
    exists blk. split; [assumption|lia].
  - destruct Hws as (blk & Hget & Hle & Hzero & Hrest).
    assert (Hlen : 0 <= blk_size blk) by (unfold blk_size, len; lia).
    unfold skipped.
    destruct (SQFS_IS_SPARSE_BLOCK e && sparse) eqn:Hflag.
    + apply andb_true_iff in Hflag as [Hsp _].
      apply IH. replace (Z.min remaining block_size) with (blk_size blk);
        [assumption|].
      rewrite (Hzero Hsp). unfold blk_size, len. rewrite length_zeros. lia.
    + exists blk. auto.
Qed.

Lemma well_served_pieces (sparse : bool) (entries : list Z) :
  0 <= block_size ->
  forall i remaining,
    0 <= remaining ->
    well_served i entries remaining ->
    image_of sparse i entries remaining = image_of false i entries remaining /\
    len (image_of false i entries remaining) = remaining.
Proof.
  intros Hbs. induction entries as [|e es IH]; intros i remaining Hrem Hws;
    cbn [pieces well_served] in *.
  - split; [reflexivity|].
    destruct (Z.ltb_spec 0 remaining) as [Hpos|Hzero].
    + destruct (Hws Hpos) as (blk & -> & Hsz). exact Hsz.
    + unfold len. simpl. lia.
  - destruct Hws as (blk & Hget & Hle & Hzero & Hrest).
    assert (Hlen : 0 <= blk_size blk) by (unfold blk_size, len; lia).
    destruct (IH (S i) (remaining - blk_size blk) ltac:(lia) Hrest)
      as [Hsame Hsize].
    unfold skipped. rewrite andb_false_r, Hget. split.
    + destruct (SQFS_IS_SPARSE_BLOCK e && sparse) eqn:Hflag.
      * apply andb_true_iff in Hflag as [Hsp _].
        pose proof (Hzero Hsp) as Hblk.
        assert (Hm : blk_size blk = Z.min remaining block_size).
        { rewrite Hblk. unfold blk_size, len. rewrite length_zeros. lia. }
        rewrite <- Hm, Hsame. f_equal. rewrite Hm. now symmetry.
      * now rewrite Hsame.
    + unfold len in *. rewrite length_app. unfold blk_size, len in *. lia.
Qed.

Lemma well_served_nth (entries : list Z) :
  forall i remaining k entry,
    well_served i entries remaining ->
    nth_error entries k = Some entry ->
    SQFS_IS_SPARSE_BLOCK entry = true ->
    exists n,
      sqfs_data_reader_get_block data inode (i + k) = Fetched (zeros n).
Proof.
  induction entries as [|e es IH]; intros i remaining k entry Hws Hnth Hsp.
  - destruct k; discriminate.
  - cbn [well_served] in Hws.
    destruct Hws as (blk & Hget & _ & Hzero & Hrest).
    destruct k as [|k]; simpl in Hnth.
    + injection Hnth as ->. rewrite Nat.add_0_r, Hget, (Hzero Hsp).
      eexists. reflexivity.
    + rewrite Nat.add_succ_r. exact (IH (S i) _ k entry Hrest Hnth Hsp).
Qed.

(** With sparse output disabled, a loop that completes has fetched, written
    and released the block of every entry. *)
Lemma plain_loop_serves (entries : list Z) :
  forall i st st',
    dump_blocks SQFS_IS_SPARSE_BLOCK data inode block_size false
      i entries st = Continue st' ->
    (exists ext, log st' = log st ++ ext) /\
    (forall k entry,
        nth_error entries k = Some entry ->
        exists blk l1 l2,
          sqfs_data_reader_get_block data inode (i + k) = Fetched blk /\
          log st' = l1 ++ served (i + k) blk ++ l2).
Proof.
  induction entries as [|e es IH]; intros i st st' Hrun.
  - injection Hrun as <-. split.
    + exists []. now rewrite app_nil_r.
    + intros [|k] entry; discriminate.
  - cbn [dump_blocks] in Hrun.
    destruct (dump_block _ _ _ _ _ i e st) as [st1|rc st1] eqn:Hstep;
      [|discriminate].
    assert (Hserved : exists blk,
               sqfs_data_reader_get_block data inode i = Fetched blk /\
               log st1 = log st ++ served i blk).
    { revert Hstep. unfold dump_block. rewrite andb_false_r.
      destruct (sqfs_data_reader_get_block data inode i) as [blk|err];
        [|discriminate].
      destruct (write_data (outfd st) blk) as [fd' [|]]; [|discriminate].
      intros Heq. injection Heq as <-. exists blk. auto. }
    destruct Hserved as (blk & Hget & Hlog1).
    destruct (IH (S i) st1 st' Hrun) as ([ext Hext] & Hnth). split.
    + exists (served i blk ++ ext). now rewrite Hext, Hlog1, app_assoc.
    + intros [|k] entry Hk; simpl in Hk.
      * exists blk, (log st), ext.
        rewrite Nat.add_0_r, Hext, Hlog1, <- app_assoc. auto.
      * destruct (Hnth k entry Hk) as (b & l1 & l2 & Hb & Hl).
        exists b, l1, l2. rewrite Nat.add_succ_r. auto.
Qed.

(** C5.  With sparse output disabled the routine never resizes or seeks the
    descriptor: every entry, sparse-tagged or not, is fetched through the data
    reader and the fetched block is written.  For a sparse-tagged entry the
    data reader hands out the zeros the region is defined to hold, so the run
    that goes through has written a block of zeros for each sparse-tagged
    entry, and the file it leaves holds the same bytes, [file_size] of them,
    as the file the run with sparse output leaves.  A run goes through, and
    returns 0, exactly when no call on its descriptor fails. *)
Theorem zero_fill_fallback (fd_sparse fd_plain : Fd) :
  fresh fd_sparse ->
  fresh fd_plain ->
  0 <= file_size inode < 2 ^ 63 ->
  0 <= block_size ->
  well_served 0 (block_sizes inode) (file_size inode) ->
  let sparse := run_of true fd_sparse in
  let plain := run_of false fd_plain in
  hole_free (log (snd plain)) /\
  (fst plain = 0 <-> sink_failed (log (snd plain)) = false) /\
  (fst sparse = 0 <-> sink_failed (log (snd sparse)) = false) /\
  (fst plain = 0 ->
   (forall k entry,
       nth_error (block_sizes inode) k = Some entry ->
       SQFS_IS_SPARSE_BLOCK entry = true ->
       exists l1 l2 n,
         log (snd plain) = l1 ++ served k (zeros n) ++ l2) /\
   len (bytes (outfd (snd plain))) = file_size inode /\
   (fst sparse = 0 ->
    bytes (outfd (snd plain)) = bytes (outfd (snd sparse)))).
Proof.
  intros Hfs Hfp Hsz Hbs Hws sparse plain. subst sparse plain.
  pose proof (run_laid_out SQFS_IS_SPARSE_BLOCK data inode block_size true
                fd_sparse Hfs Hsz Hbs
                (well_served_in_reach true _ Hbs _ _ Hws)) as Hsparse.
  pose proof (run_laid_out SQFS_IS_SPARSE_BLOCK data inode block_size false
                fd_plain Hfp Hsz Hbs
                (well_served_in_reach false _ Hbs _ _ Hws)) as Hplain.
  destruct (well_served_pieces true (block_sizes inode) Hbs 0
              (file_size inode) (proj1 Hsz) Hws) as [Hsame Hsize].
  cbv zeta in Hsparse, Hplain. unfold reconstructed in *.
  rewrite Hsame in Hsparse.
  set (image := image_of false 0 (block_sizes inode) (file_size inode)) in *.
  assert (Hfull : forall b,
             (slack b (file_size inode) - List.length image)%nat = 0%nat).
  { intros b. unfold slack, len in *. destruct b; lia. }
  rewrite Hfull, app_nil_r in Hsparse, Hplain.
  split; [now apply plain_run_hole_free|].
  split; [|split].
  - destruct Hplain as [(Hrc & Hclean & _)|[Hrc Hfailed]];
      rewrite Hrc; [tauto|]. rewrite Hfailed. split; discriminate.
  - destruct Hsparse as [(Hrc & Hclean & _)|[Hrc Hfailed]];
      rewrite Hrc; [tauto|]. rewrite Hfailed. split; discriminate.
  - intros Hrc0.
    destruct Hplain as [(_ & _ & _ & _ & Hbytes)|[Hrc _]];
      [|rewrite Hrc in Hrc0; discriminate].
    split; [|split].
    + intros k entry Hnth Hsp. revert Hrc0.
      unfold sqfs_data_reader_dump, dump_run.
      destruct (dump_upto _ _ _ _ false fd_plain (block_sizes inode))
        as [st|rc st] eqn:Hloop.
      * intros _. unfold dump_upto, dump_entry in Hloop. simpl in Hloop.
        destruct (plain_loop_serves _ _ _ _ Hloop) as [_ Hserves].
        destruct (Hserves k entry Hnth) as (blk & l1 & l2 & Hget & Hlog).
        destruct (well_served_nth _ _ _ _ _ Hws Hnth Hsp) as [n Hzeros].
        rewrite Hzeros in Hget. injection Hget as <-. simpl in Hlog.
        cbn [andthen].
        assert (Hext : exists ext,
                   log (state_of
                          (dump_fragment data inode st)) = log st ++ ext).
        { unfold dump_fragment. destruct (0 <? filesz st).
          - destruct (sqfs_data_reader_get_fragment data inode) as [b|err];
              [destruct (write_data (outfd st) b) as [fd' [|]]|]; simpl;
              eexists; reflexivity.
          - exists []. simpl. now rewrite app_nil_r. }
        destruct Hext as [ext Hext].
        exists l1, (l2 ++ ext), n.
        destruct (dump_fragment data inode st) as [st'|rc st']; simpl in *;
          rewrite Hext, Hlog, <- !app_assoc; reflexivity.
      * simpl. intros Hrc0.
        apply dump_upto_return_code in Hloop. lia.
    + rewrite Hbytes. exact Hsize.
    + intros Hrc1.
      destruct Hsparse as [(_ & _ & _ & _ & Hbytes')|[Hrc _]];
        [|rewrite Hrc in Hrc1; discriminate].
      now rewrite Hbytes, Hbytes'.
Qed.

End Fallback.

(** *** The example of the design document

    Entries [sparse, 10 bytes, sparse], block size 4, file size 18. *)

Definition ten_bytes : list byte :=
  [x01; x02; x03; x04; x05; x06; x07; x08; x09; x0a].

Definition holes_inode : sqfs_inode_generic_t :=
  {| file_size := 18; block_sizes := [0; 10; 0] |}.

Definition holes_data : sqfs_data_reader_t :=
  {| sqfs_data_reader_get_block := fun _ i =>
       match i with
       | 1%nat => Fetched ten_bytes
       | _ => Fetched (zeros 4)
       end;
     sqfs_data_reader_get_fragment := fun _ => FetchFailed (-1) |}.

Definition holes_content : list byte := zeros 4 ++ ten_bytes ++ zeros 4.

Example holes_sparse_run :
  sqfs_data_reader_dump on_disk_size_zero holes_data holes_inode 4 true
    empty_file =
  (0, mkState (mkFile holes_content 18 (limit empty_file)) 0
        [EvFtruncate 18 true; EvLseek 4 true;
         EvGetBlock 1 (Fetched ten_bytes); EvWrite ten_bytes true;
         EvFree (BlkData 1); EvLseek 4 true]).
Proof. reflexivity. Qed.

Example holes_plain_run :
  sqfs_data_reader_dump on_disk_size_zero holes_data holes_inode 4 false
    empty_file =
  (0, mkState (mkFile holes_content 18 (limit empty_file)) 0
        (served 0 (zeros 4) ++ served 1 ten_bytes ++ served 2 (zeros 4))).
Proof. reflexivity. Qed.

(** A file too large for the file system: resizing fails, and so does the
    routine, before any block is fetched. *)
Definition huge_inode : sqfs_inode_generic_t :=
  {| file_size := 2 ^ 62; block_sizes := [0] |}.

Example huge_sparse_run :
  sqfs_data_reader_dump on_disk_size_zero holes_data huge_inode 4 true
    empty_file =
  (-1, mkState empty_file (2 ^ 62)
         [EvFtruncate (2 ^ 62) false; EvStderr MsgSparse]).
Proof. reflexivity. Qed.

(** A file that has room for eight bytes only: the write of the ten-byte
    block fails after eight. *)
Example holes_plain_run_no_room :
  sqfs_data_reader_dump on_disk_size_zero holes_data holes_inode 4 false
    (mkFile [] 0 12) =
  (-1, mkState
         (mkFile (zeros 4 ++ [x01; x02; x03; x04; x05; x06; x07; x08]) 12 12)
         14
         (served 0 (zeros 4) ++
          [EvGetBlock 1 (Fetched ten_bytes); EvWrite ten_bytes false;
           EvFree (BlkData 1)])).
Proof. reflexivity. Qed.

(** A file of thirteen bytes: one block of ten and a fragment of three. *)
Definition three_bytes : list byte := [x0b; x0c; x0d].

Definition five_bytes : list byte := [x01; x02; x03; x04; x05].

Definition tail_inode : sqfs_inode_generic_t :=
  {| file_size := 13; block_sizes := [10] |}.

Definition tail_data : sqfs_data_reader_t :=
  {| sqfs_data_reader_get_block := fun _ _ => Fetched ten_bytes;
     sqfs_data_reader_get_fragment := fun _ => Fetched three_bytes |}.

Definition tail_loop_end : state file :=
  mkState (mkFile ten_bytes 10 (limit empty_file)) 3 (served 0 ten_bytes).

(** A data reader that fails on the second block. *)
Definition failing_data : sqfs_data_reader_t :=
  {| sqfs_data_reader_get_block := fun _ i =>
       match i with
       | 0%nat => Fetched ten_bytes
       | _ => FetchFailed (-5)
       end;
     sqfs_data_reader_get_fragment := fun _ => Fetched five_bytes |}.

Definition failing_inode : sqfs_inode_generic_t :=
  {| file_size := 25; block_sizes := [10; 10] |}.

Example failing_run :
  sqfs_data_reader_dump on_disk_size_zero failing_data failing_inode 10 false
    empty_file =
  (-1, mkState (mkFile ten_bytes 10 (limit empty_file)) 15
         (served 0 ten_bytes ++
          [EvGetBlock 1 (FetchFailed (-5)); EvStderr (MsgReadBlock (-5))])).
Proof. reflexivity. Qed.

(** C4 on that run: the failed fetch of the second block is followed by the
    diagnostic only, the routine returns -1, and the first block stays
    written. *)
Lemma failure_aborts_failing_run :
  fst (sqfs_data_reader_dump on_disk_size_zero failing_data failing_inode 10
         false empty_file) = -1 /\
  clean (served 0 ten_bytes) /\
  forallb aftermath [EvStderr (MsgReadBlock (-5))] = true.
Proof.
  exact (proj1 (failure_aborts on_disk_size_zero failing_data failing_inode 10
                  false empty_file)
           (served 0 ten_bytes) (EvGetBlock 1 (FetchFailed (-5)))
           [EvStderr (MsgReadBlock (-5))] eq_refl eq_refl).
Defined.

(** C2 at the first entry of the example. *)
Lemma sparse_entry_is_a_hole_holes :
  dump_upto on_disk_size_zero holes_data holes_inode 4 true empty_file
    ([] ++ [0]) =
  Continue (mkState (mkFile (zeros 18) 4 (limit empty_file)) 14
              [EvFtruncate 18 true; EvLseek 4 true]).
Proof.
  refine (sparse_entry_is_a_hole on_disk_size_zero holes_data holes_inode 4
            true empty_file [] [10; 0] 0
            (mkState (mkFile (zeros 18) 0 (limit empty_file)) 18
               [EvFtruncate 18 true])
            _ _ _ _ _ _).
  - reflexivity.
  - unfold u64. simpl. lia.
  - lia.
  - reflexivity.
  - reflexivity.
  - reflexivity.
Defined.

(** C3 on the file of thirteen bytes: after the block, three bytes remain,
    the fragment is fetched once and its three bytes are written. *)
Lemma fragment_step_tail :
  fragment_fetches
    (log (snd (sqfs_data_reader_dump on_disk_size_zero tail_data tail_inode
                 10 false empty_file))) = 1%nat /\
  blk_size three_bytes = filesz tail_loop_end /\
  log (snd (sqfs_data_reader_dump on_disk_size_zero tail_data tail_inode 10
              false empty_file)) =
  served 0 ten_bytes ++
  [EvGetFragment (Fetched three_bytes); EvWrite three_bytes true;
   EvFree BlkFrag].
Proof.
  assert (Hcontract : fragment_accounts_for tail_data tail_inode
                        (filesz tail_loop_end)).
  { intros _ blk Hget. injection Hget as <-. reflexivity. }
  assert (Hloop : dump_upto on_disk_size_zero tail_data tail_inode 10 false
                    empty_file (block_sizes tail_inode) =
                  Continue tail_loop_end) by (vm_compute; reflexivity).
  destruct (fragment_step on_disk_size_zero tail_data tail_inode 10 false
              empty_file tail_loop_end Hloop Hcontract)
    as (Hcount & _ & Hwrite & _).
  destruct (Hwrite three_bytes eq_refl eq_refl) as (Hsize & Hlog & _).
  split; [exact Hcount|]. split; [exact Hsize|exact Hlog].
Defined.

(** C5 on the example of the design document: both runs go through and leave
    the same eighteen bytes. *)
Lemma zero_fill_fallback_holes :
  fst (sqfs_data_reader_dump on_disk_size_zero holes_data holes_inode 4 false
         empty_file) = 0 /\
  content (outfd (snd (sqfs_data_reader_dump on_disk_size_zero holes_data
                         holes_inode 4 false empty_file))) =
  content (outfd (snd (sqfs_data_reader_dump on_disk_size_zero holes_data
                         holes_inode 4 true empty_file))).
Proof.
  assert (Hfresh : fresh empty_file) by (split; reflexivity).
  destruct (zero_fill_fallback on_disk_size_zero holes_data holes_inode 4
              empty_file empty_file Hfresh Hfresh)
    as (_ & Hplain & _ & Hsame).
  - simpl. lia.
  - lia.
  - vm_compute.
    repeat first [reflexivity | discriminate | eexists | split | intro].
  - assert (Hrc : fst (sqfs_data_reader_dump on_disk_size_zero holes_data
                         holes_inode 4 false empty_file) = 0)
      by (apply Hplain; reflexivity).
    split; [exact Hrc|].
    exact (proj2 (proj2 (Hsame Hrc)) eq_refl).
Defined.

(** C10 on the example: the counter goes 18, 14, 4, 0, and no fragment is
    fetched. *)
Definition holes_loop_end : state file :=
  mkState (mkFile holes_content 18 (limit empty_file)) 0
    [EvFtruncate 18 true; EvLseek 4 true;
     EvGetBlock 1 (Fetched ten_bytes); EvWrite ten_bytes true;
     EvFree (BlkData 1); EvLseek 4 true].

Lemma counter_never_wraps_holes :
  filesz holes_loop_end =
  tail_length on_disk_size_zero holes_data holes_inode 4 true 0
    (block_sizes holes_inode) (file_size holes_inode) /\
  (fragment_fetches
     (log (snd (sqfs_data_reader_dump on_disk_size_zero holes_data
                  holes_inode 4 true empty_file))) = 1%nat <->
   tail_length on_disk_size_zero holes_data holes_inode 4 true 0
     (block_sizes holes_inode) (file_size holes_inode) <> 0).
Proof.
  refine (proj2 (proj2
           (counter_never_wraps on_disk_size_zero holes_data holes_inode 4
              true empty_file _ _ _)) holes_loop_end _).
  - unfold u64. simpl. lia.
  - lia.
  - vm_compute. repeat first [discriminate | split | intro].
  - reflexivity.
Defined.

(** The design document's example, laid out as the block list says. *)
Lemma file_is_reconstructed_holes :
  fst (sqfs_data_reader_dump on_disk_size_zero holes_data holes_inode 4 true
         empty_file) = 0 /\
  content (outfd (snd (sqfs_data_reader_dump on_disk_size_zero holes_data
                         holes_inode 4 true empty_file))) =
  zeros 4 ++ ten_bytes ++ zeros 4.
Proof.
  destruct (file_is_reconstructed on_disk_size_zero holes_data holes_inode 4
              true empty_file) as (_ & Hrc & Hfile).
  - split; reflexivity.
  - simpl. lia.
  - lia.
  - vm_compute.
    repeat first [reflexivity | discriminate | eexists | split | intro].
  - assert (Hzero : fst (sqfs_data_reader_dump on_disk_size_zero holes_data
                           holes_inode 4 true empty_file) = 0)
      by (apply Hrc; reflexivity).
    split; [exact Hzero|]. exact (proj1 (proj2 (Hfile Hzero))).
Defined.

(** On the example the descriptor is resized once. *)
Lemma holes_are_bounded_holes :
  List.length
    (filter is_ftruncate
       (log (snd (sqfs_data_reader_dump on_disk_size_zero holes_data
                    holes_inode 4 true empty_file)))) = 1%nat.
Proof.
  refine (proj1 (holes_are_bounded on_disk_size_zero holes_data holes_inode 4
                   true empty_file _ _)).
  - unfold u64. simpl. lia.
  - lia.
Defined.

(** The failing run, read off at its second entry. *)
Lemma data_entry_failure_failing_run :
  sqfs_data_reader_dump on_disk_size_zero failing_data failing_inode 10 false
    empty_file =
  (-1, mkState (mkFile ten_bytes 10 (limit empty_file)) 15
         (served 0 ten_bytes ++
          [EvGetBlock 1 (FetchFailed (-5)); EvStderr (MsgReadBlock (-5))])).
Proof.
  exact (data_entry_failure on_disk_size_zero failing_data failing_inode 10
           false empty_file [10] [] 10
           (mkState (mkFile ten_bytes 10 (limit empty_file)) 15
              (served 0 ten_bytes))
           eq_refl eq_refl eq_refl).
Defined.

(** A file of three bytes whose only block is served with five: the counter
    wraps to 2^64 - 2 and the fragment is fetched. *)
Definition overshoot_inode : sqfs_inode_generic_t :=
  {| file_size := 3; block_sizes := [5] |}.

Definition overshoot_data : sqfs_data_reader_t :=
  {| sqfs_data_reader_get_block := fun _ _ => Fetched five_bytes;
     sqfs_data_reader_get_fragment := fun _ => Fetched five_bytes |}.

Definition overshoot_loop_end : state file :=
  mkState (mkFile five_bytes 5 (limit empty_file)) (2 ^ 64 - 2)
    (served 0 five_bytes).

Lemma counter_is_modular_overshoot :
  filesz overshoot_loop_end = wrap64 (3 - 5) /\
  fragment_fetches
    (log (snd (sqfs_data_reader_dump on_disk_size_zero overshoot_data
                 overshoot_inode 4 false empty_file))) = 1%nat.
Proof.
  destruct (counter_is_modular on_disk_size_zero overshoot_data
              overshoot_inode 4 false empty_file [5] overshoot_loop_end)
    as [Hc Hf].
  - unfold u64. simpl. lia.
  - lia.
  - reflexivity.
  - split; [exact Hc|]. apply (Hf eq_refl). vm_compute. discriminate.
Defined.

End FileSink.

(** ** Meta data blocks: [sqfs_meta_writer_t] and [sqfs_meta_reader_t]

    The sources at hand declare the writer and the reader ([meta_writer.h],
    [meta_reader.h]) but do not contain their bodies.  The operations below
    are modelled from the design document; the code of
    [sqfs_readdir_state_t] and [sqfs_readdir_state_reset] is in
    [meta_reader.h] and is embedded as it is written. *)

Module Meta.

(** The uncompressed capacity of a meta data block. *)
Definition capacity : nat := Z.to_nat 8192.
Arguments capacity : simpl never.

(** Modelled from the spec: the error taxonomy of its section 7. *)
Inductive error :=
| OutOfBounds
| Corrupt
| Io
| Compression
| Allocation.

(** Fallible operations return an error or a value. *)
Definition result (A : Type) : Type := error + A.

Definition bind {A B : Type} (r : result A) (k : A -> result B) : result B :=
  match r with
  | inl e => inl e
  | inr a => k a
  end.

Notation "x <- r ;; k" := (bind r (fun x => k))
  (at level 61, r at next level, right associativity).
Notation "' p <- r ;; k" := (bind r (fun x => let 'p := x in k))
  (at level 61, p pattern, r at next level, right associativity).

(** *** Little-endian integers *)

Fixpoint le_bytes (n : nat) (z : Z) : list byte :=
  match n with
  | O => []
  | S n' => byte_of_Z z :: le_bytes n' (z / 256)
  end.

Fixpoint le_value (bs : list byte) : Z :=
  match bs with
  | [] => 0
  | b :: rest => Z_of_byte b + 256 * le_value rest
  end.

(** *** The block header

    Modelled from the spec: the encoding of one meta data block, a two-byte
    header whose low 15 bits are the payload length on disk and whose high bit
    is set when the payload is stored uncompressed, followed by the payload.
    The two bytes are in little-endian order, as everything in the image. *)

Definition header_word (on_disk_size : Z) (uncompressed : bool) : Z :=
  Z.lor on_disk_size (if uncompressed then 2 ^ 15 else 0).

(** Modelled from the spec: the two header bytes of a block. *)
Definition encode_header (on_disk_size : Z) (uncompressed : bool) : list byte :=
  le_bytes 2 (header_word on_disk_size uncompressed).

(** Modelled from the spec: the low 15 bits of the header. *)
Definition header_size (w : Z) : Z := Z.land w (2 ^ 15 - 1).

(** Modelled from the spec: the high bit of the header. *)
Definition header_uncompressed (w : Z) : bool := Z.testbit w 15.

Lemma capacity_value : Z.of_nat capacity = 8192.
Proof. reflexivity. Qed.

Lemma Z_of_byte_range (b : byte) : 0 <= Z_of_byte b < 256.
Proof.
  unfold Z_of_byte. pose proof (Byte.to_N_bounded b) as Hb. lia.
Qed.

Lemma Z_of_byte_of_Z (z : Z) : Z_of_byte (byte_of_Z z) = z mod 256.
Proof.
  unfold Z_of_byte, byte_of_Z.
  assert (Hm : 0 <= z mod 256 < 256) by (apply Z.mod_pos_bound; lia).
  destruct (Byte.of_N (Z.to_N (z mod 256))) as [b|] eqn:Hb.
  - apply Byte.to_of_N in Hb. rewrite Hb. lia.
  - apply Byte.of_N_None_iff in Hb. lia.
Qed.

Lemma le_bytes_length (n : nat) : forall z, List.length (le_bytes n z) = n.
Proof. induction n as [|n IH]; intros z; simpl; auto. Qed.

Lemma le_value_le_bytes (n : nat) :
  forall z, 0 <= z < 256 ^ Z.of_nat n -> le_value (le_bytes n z) = z.
Proof.
  induction n as [|n IH]; intros z Hz.
  - simpl in *. lia.
  - cbn [le_bytes le_value]. rewrite Z_of_byte_of_Z.
    rewrite Nat2Z.inj_succ, Z.pow_succ_r in Hz by lia.
    rewrite IH.
    + pose proof (Z.div_mod z 256). lia.
    + split.
      * apply Z.div_pos; lia.
      * apply Z.div_lt_upper_bound; lia.
Qed.

Lemma header_word_sum (on_disk_size : Z) (uncompressed : bool) :
  0 <= on_disk_size < 2 ^ 15 ->
  header_word on_disk_size uncompressed =
  on_disk_size + (if uncompressed then 2 ^ 15 else 0).
Proof.
  intros Hs. unfold header_word. destruct uncompressed.
  - assert (Hdisj : Z.land on_disk_size (2 ^ 15) = 0).
    { apply Z.bits_inj'. intros n Hn.
      rewrite Z.land_spec, Z.bits_0, Z.pow2_bits_eqb by lia.
      destruct (Z.eqb_spec 15 n) as [<-|_]; [|apply andb_false_r].
      rewrite andb_true_r. apply Z.testbit_false; [lia|].
      rewrite Z.div_small; auto. }
    rewrite <- Z.lxor_lor by assumption.
    symmetry. now apply Z.add_nocarry_lxor.
  - now rewrite Z.lor_0_r, Z.add_0_r.
Qed.

Lemma header_round_trip (on_disk_size : Z) (uncompressed : bool) :
  0 <= on_disk_size < 2 ^ 15 ->
  header_size (le_value (encode_header on_disk_size uncompressed)) =
    on_disk_size /\
  header_uncompressed (le_value (encode_header on_disk_size uncompressed)) =
    uncompressed.
Proof.
  intros Hs. unfold encode_header.
  rewrite le_value_le_bytes
    by (rewrite header_word_sum by assumption;
        change (256 ^ Z.of_nat 2) with 65536;
        destruct uncompressed; lia).
  rewrite header_word_sum by assumption. split.
  - unfold header_size. change (2 ^ 15 - 1) with (Z.ones 15).
    rewrite Z.land_ones by lia.
    destruct uncompressed.
    + rewrite <- (Z.mul_1_l (2 ^ 15)) at 1.
      rewrite Z.mod_add by lia. apply Z.mod_small. lia.
    + rewrite Z.add_0_r. apply Z.mod_small. lia.
  - unfold header_uncompressed. destruct uncompressed.
    + apply Z.testbit_true; [lia|].
      rewrite <- (Z.mul_1_l (2 ^ 15)) at 1.
      rewrite Z.div_add by lia. rewrite Z.div_small by lia. reflexivity.
    + apply Z.testbit_false; [lia|].
      rewrite Z.add_0_r, Z.div_small by lia. reflexivity.
Qed.

Lemma encode_header_length (on_disk_size : Z) (uncompressed : bool) :
  List.length (encode_header on_disk_size uncompressed) = 2%nat.
Proof. apply le_bytes_length. Qed.

(** *** The external capabilities *)

(** Modelled from the spec: the compression port, [compress buf] and
    [decompress buf max_out_len], each of which may fail. *)
Class Compressor := {
  compress : list byte -> option (list byte);
  decompress : list byte -> nat -> option (list byte)
}.

(** What makes the pair a compressor: a block that was compressed
    decompresses to itself. *)
Definition lossless `{Compressor} : Prop :=
  forall x c,
    compress x = Some c ->
    (List.length x <= capacity)%nat ->
    decompress c capacity = Some x.

(** Modelled from the spec: the byte sink the writer appends to; a write may
    fail. *)
Class ByteSink (S : Type) := {
  sink_write : S -> list byte -> option S;
  sink_bytes : S -> list byte
}.

Definition appending (S : Type) `{ByteSink S} : Prop :=
  forall s d s', sink_write s d = Some s' -> sink_bytes s' = sink_bytes s ++ d.

(** *** The writer *)

(** Modelled from the spec: the state of the writer, the bytes appended since
    the last flush, the offset at which the next block is emitted (a
    [uint64_t]), and the blocks collected under [keep_in_mem]. *)
Record sqfs_meta_writer_t (S : Type) := mkWriter {
  sink : S;
  pending : list byte;
  block_start_offset : Z;
  keep_in_memory : bool;
  collected_blocks : list (list byte)
}.
Arguments mkWriter {S}.
Arguments sink {S}.
Arguments pending {S}.
Arguments block_start_offset {S}.
Arguments keep_in_memory {S}.
Arguments collected_blocks {S}.

Section Writer.

Context `{Compressor} {S : Type} `{ByteSink S}.

(** Modelled from the spec: [sqfs_meta_writer_create], which allocates an
    empty pending buffer; the position before any data is 0. *)
Definition sqfs_meta_writer_create (fd : S) (keep_in_mem : bool)
  : sqfs_meta_writer_t S :=
  mkWriter fd [] 0 keep_in_mem [].

(** Modelled from the spec: the block [sqfs_meta_writer_flush] emits for a
    payload.  The payload is compressed; if the compressed form is not smaller
    than the original the block is stored uncompressed with the header flag
    set. *)
Definition encode_block (payload : list byte) : result (list byte) :=
  match compress payload with
  | None => inl Compression
  | Some c =>
      if (List.length c <? List.length payload)%nat
      then inr (encode_header (len c) false ++ c)
      else inr (encode_header (len payload) true ++ payload)
  end.

(** Modelled from the spec: [sqfs_meta_writer_flush].  The header and the
    payload go to the sink or, with [keep_in_mem], to the collected sequence;
    [block_start_offset] advances by header plus payload; [pending] is
    emptied. *)
Definition sqfs_meta_writer_flush (m : sqfs_meta_writer_t S)
  : result (sqfs_meta_writer_t S) :=
  blk <- encode_block (pending m) ;;
  if keep_in_memory m
  then inr (mkWriter (sink m) [] (wrap64 (block_start_offset m + len blk))
              true (collected_blocks m ++ [blk]))
  else match sink_write (sink m) blk with
       | None => inl Io
       | Some fd =>
           inr (mkWriter fd [] (wrap64 (block_start_offset m + len blk))
                  false (collected_blocks m))
       end.

(** Modelled from the spec: [sqfs_meta_writer_append].  The bytes are copied
    into [pending]; whenever [pending] reaches the capacity the block is
    flushed before the remaining bytes are appended, so that one call may emit
    several blocks.  The copy is written byte by byte; copying in runs up to
    the capacity reaches the same states. *)
Fixpoint sqfs_meta_writer_append (m : sqfs_meta_writer_t S) (data : list byte)
  : result (sqfs_meta_writer_t S) :=
  match data with
  | [] => inr m
  | b :: rest =>
      let m1 := mkWriter (sink m) (pending m ++ [b]) (block_start_offset m)
                  (keep_in_memory m) (collected_blocks m) in
      if (List.length (pending m1) =? capacity)%nat
      then m2 <- sqfs_meta_writer_flush m1 ;; sqfs_meta_writer_append m2 rest
      else sqfs_meta_writer_append m1 rest
  end.

(** Modelled from the spec: [sqfs_meta_writer_get_position], the position the
    next appended byte lands at. *)
Definition sqfs_meta_writer_get_position (m : sqfs_meta_writer_t S) : Z * Z :=
  (block_start_offset m, len (pending m)).

(** Modelled from the spec: [sqfs_meta_writer_reset]. *)
Definition sqfs_meta_writer_reset (m : sqfs_meta_writer_t S)
  : sqfs_meta_writer_t S :=
  mkWriter (sink m) [] 0 (keep_in_memory m) (collected_blocks m).

(** The blocks go to the sink one after the other. *)
Fixpoint write_blocks (fd : S) (blocks : list (list byte)) : result S :=
  match blocks with
  | [] => inr fd
  | blk :: rest =>
      match sink_write fd blk with
      | None => inl Io
      | Some fd' => write_blocks fd' rest
      end
  end.

(** Modelled from the spec: [sqfs_meta_write_write_to_file], which emits the
    collected blocks to the sink in order and does not touch [pending].  The
    blocks written are no longer held afterwards. *)
Definition sqfs_meta_write_write_to_file (m : sqfs_meta_writer_t S)
  : result (sqfs_meta_writer_t S) :=
  fd <- write_blocks (sink m) (collected_blocks m) ;;
  inr (mkWriter fd (pending m) (block_start_offset m) (keep_in_memory m) []).

End Writer.

(** *** The reader *)

(** Modelled from the spec: a decoded block, together with the length of its
    payload on disk, which tells where the next block starts. *)
Record meta_block := mkBlock {
  decoded : list byte;
  on_disk_size : Z
}.

(** Modelled from the spec: the state of the reader, the backing file, the
    window, and the cached block with its start and the cursor in it. *)
Record sqfs_meta_reader_t := mkReader {
  backing_file : list byte;
  window_start : Z;
  window_limit : Z;
  current_block_start : Z;
  current_block : option meta_block;
  cursor_offset : nat
}.

(** [n] bytes of the file at offset [off], if they are there. *)
Definition read_at (file : list byte) (off : Z) (n : nat) : option (list byte) :=
  if (0 <=? off) && (off + Z.of_nat n <=? len file)
  then Some (firstn n (skipn (Z.to_nat off) file))
  else None.

Section Reader.

Context `{Compressor}.

(** Modelled from the spec: [sqfs_meta_reader_create], a reader scoped to the
    window from [start] to [limit] with no block loaded. *)
Definition sqfs_meta_reader_create (file : list byte) (start limit : Z)
  : sqfs_meta_reader_t :=
  mkReader file start limit 0 None 0.

(** Modelled from the spec: loading the block at [block_start].  The header is
    read, then as many payload bytes as it declares; the payload is
    decompressed into a buffer of the block capacity unless the header says it
    is stored uncompressed.  A header that declares more than the capacity is
    corrupt. *)
Definition load_block (file : list byte) (block_start : Z) : result meta_block :=
  match read_at file block_start 2 with
  | None => inl Io
  | Some hdr =>
      let w := le_value hdr in
      let size := header_size w in
      if Z.of_nat capacity <? size then inl Corrupt
      else match read_at file (block_start + 2) (Z.to_nat size) with
           | None => inl Io
           | Some payload =>
               if header_uncompressed w
               then inr (mkBlock payload size)
               else match decompress payload capacity with
                    | None => inl Compression
                    | Some d => inr (mkBlock d size)
                    end
           end
  end.

(** Modelled from the spec: [sqfs_meta_reader_seek].  A block start outside
    the window is out of bounds.  The block already loaded is reused when it
    starts at [block_start]; otherwise the block is loaded and replaces the
    cached one.  The cursor is set to [offset], which must not exceed the
    length of the decoded block.  A seek that fails leaves the reader as it
    was. *)
Definition sqfs_meta_reader_seek (m : sqfs_meta_reader_t) (block_start : Z)
    (offset : nat) : result sqfs_meta_reader_t :=
  if (block_start <? window_start m) || (window_limit m <=? block_start)
  then inl OutOfBounds
  else
    blk <- match current_block m with
           | Some blk =>
               if block_start =? current_block_start m
               then inr blk
               else load_block (backing_file m) block_start
           | None => load_block (backing_file m) block_start
           end ;;
    if (List.length (decoded blk) <? offset)%nat
    then inl OutOfBounds
    else inr (mkReader (backing_file m) (window_start m) (window_limit m)
                block_start (Some blk) offset).

(** Modelled from the spec: [sqfs_meta_reader_get_position]. *)
Definition sqfs_meta_reader_get_position (m : sqfs_meta_reader_t) : Z * nat :=
  (current_block_start m, cursor_offset m).

(** Modelled from the spec: the loop of [sqfs_meta_reader_read].  Bytes are
    drawn from the cached block at the cursor; when the block is exhausted and
    bytes are still wanted, the next block is loaded, which starts behind the
    header and the on-disk payload of the current one.  Every turn of the loop
    either delivers the rest of the request or leaves the current block, so
    the number of turns is bounded by the size of the file. *)
Fixpoint read_loop (turns : nat) (m : sqfs_meta_reader_t) (size : nat)
    (acc : list byte) : result (list byte * sqfs_meta_reader_t) :=
  match size with
  | O => inr (acc, m)
  | S _ =>
      match turns with
      | O => inl Corrupt
      | S turns' =>
          match current_block m with
          | None => inl OutOfBounds
          | Some blk =>
              let avail := (List.length (decoded blk) - cursor_offset m)%nat in
              if (avail =? 0)%nat
              then
                m' <- sqfs_meta_reader_seek m
                        (wrap64 (current_block_start m + 2 + on_disk_size blk))
                        0 ;;
                read_loop turns' m' size acc
              else
                let diff := Nat.min avail size in
                read_loop turns'
                  (mkReader (backing_file m) (window_start m) (window_limit m)
                     (current_block_start m) (Some blk)
                     (cursor_offset m + diff))
                  (size - diff)
                  (acc ++ firstn diff (skipn (cursor_offset m) (decoded blk)))
          end
      end
  end.

(** Modelled from the spec: [sqfs_meta_reader_read], which copies [size]
    bytes from the cursor on, across block boundaries if need be. *)
Definition sqfs_meta_reader_read (m : sqfs_meta_reader_t) (size : nat)
  : result (list byte * sqfs_meta_reader_t) :=
  read_loop (List.length (backing_file m) + 2) m size [].

End Reader.

(** *** What a flush emits *)

Section Flush.

Context `{Compressor} {S : Type} `{ByteSink S}.

(** Going from [m] to [m'] the writer emitted exactly the block [blk]: to the
    collected sequence with [keep_in_mem], to the sink otherwise. *)
Definition emits (m m' : sqfs_meta_writer_t S) (blk : list byte) : Prop :=
  if keep_in_memory m
  then collected_blocks m' = collected_blocks m ++ [blk] /\ sink m' = sink m
  else sink_write (sink m) blk = Some (sink m') /\
       collected_blocks m' = collected_blocks m.

Lemma encode_block_cases (payload blk : list byte) :
  encode_block payload = inr blk ->
  exists c,
    compress payload = Some c /\
    ((List.length c < List.length payload)%nat /\
     blk = encode_header (len c) false ++ c \/
     (List.length payload <= List.length c)%nat /\
     blk = encode_header (len payload) true ++ payload).
Proof.
  unfold encode_block. destruct (compress payload) as [c|]; [|discriminate].
  intros Hb. exists c. split; [reflexivity|].
  destruct (Nat.ltb_spec (List.length c) (List.length payload));
    injection Hb as <-; auto.
Qed.

Lemma flush_emits (m m' : sqfs_meta_writer_t S) :
  sqfs_meta_writer_flush m = inr m' ->
  exists blk,
    encode_block (pending m) = inr blk /\
    emits m m' blk /\
    pending m' = [] /\
    keep_in_memory m' = keep_in_memory m /\
    block_start_offset m' = wrap64 (block_start_offset m + len blk).
Proof.
  unfold sqfs_meta_writer_flush, emits, bind.
  destruct (encode_block (pending m)) as [e|blk]; [discriminate|].
  destruct (keep_in_memory m) eqn:Hk.
  - intros Hm. injection Hm as <-. exists blk. simpl. auto.
  - destruct (sink_write (sink m) blk) as [fd|] eqn:Hw; [|discriminate].
    intros Hm. injection Hm as <-. exists blk. simpl. auto.
Qed.

Lemma header_parts (hdr payload : list byte) :
  List.length hdr = 2%nat -> firstn 2 (hdr ++ payload) = hdr.
Proof.
  destruct hdr as [|a [|b [|c rest]]]; simpl; intros Hl;
    try discriminate; reflexivity.
Qed.

Lemma payload_part (hdr payload : list byte) :
  List.length hdr = 2%nat -> skipn 2 (hdr ++ payload) = payload.
Proof.
  destruct hdr as [|a [|b [|c rest]]]; simpl; intros Hl;
    try discriminate; reflexivity.
Qed.

(** C8.  When the compressor's output for the pending payload is not strictly
    smaller than the payload, the block a flush emits is the payload itself
    behind a header whose uncompressed flag is set and whose size field is the
    payload length.  Whatever the compressor returns, the emitted block is no
    larger than the payload plus the two header bytes. *)
Theorem incompressible_stored_raw (m m' : sqfs_meta_writer_t S) :
  (List.length (pending m) <= capacity)%nat ->
  sqfs_meta_writer_flush m = inr m' ->
  exists blk,
    emits m m' blk /\
    (List.length blk <= List.length (pending m) + 2)%nat /\
    (forall c,
        compress (pending m) = Some c ->
        ~ (List.length c < List.length (pending m))%nat ->
        skipn 2 blk = pending m /\
        header_uncompressed (le_value (firstn 2 blk)) = true /\
        header_size (le_value (firstn 2 blk)) = len (pending m) /\
        List.length blk = (List.length (pending m) + 2)%nat).
Proof.
  intros Hcap Hflush.
  destruct (flush_emits m m' Hflush) as (blk & Henc & Hem & _).
  exists blk. split; [assumption|].
  destruct (encode_block_cases _ _ Henc) as (c & Hc & [[Hlt ->]|[Hge ->]]).
  - split.
    + rewrite length_app, encode_header_length. lia.
    + intros c' Hc' Hnot. rewrite Hc in Hc'. injection Hc' as <-. lia.
  - split.
    + rewrite length_app, encode_header_length. lia.
    + intros _ _ _.
      assert (Hr : 0 <= len (pending m) < 2 ^ 15).
      { unfold len. pose proof capacity_value. lia. }
      destruct (header_round_trip (len (pending m)) true Hr) as [Hs Hu].
      rewrite (header_parts (encode_header (len (pending m)) true))
        by apply encode_header_length.
      rewrite (payload_part (encode_header (len (pending m)) true))
        by apply encode_header_length.
      rewrite length_app, encode_header_length.
      repeat split; auto. lia.
Qed.

End Flush.

(** *** The window of the reader *)

Section Window.

Context `{Compressor}.

(** What holds of a reader at all times: the cached block is the block of the
    file at [current_block_start], which lies inside the window. *)
Definition reader_ok (m : sqfs_meta_reader_t) : Prop :=
  forall blk,
    current_block m = Some blk ->
    load_block (backing_file m) (current_block_start m) = inr blk /\
    window_start m <= current_block_start m < window_limit m.

Definition same_file (m m' : sqfs_meta_reader_t) : Prop :=
  backing_file m' = backing_file m /\
  window_start m' = window_start m /\
  window_limit m' = window_limit m.

Lemma create_ok (file : list byte) (start limit : Z) :
  reader_ok (sqfs_meta_reader_create file start limit).
Proof. intros blk. discriminate. Qed.

Lemma seek_inv (m m' : sqfs_meta_reader_t) (block_start : Z) (offset : nat) :
  sqfs_meta_reader_seek m block_start offset = inr m' ->
  window_start m <= block_start < window_limit m /\
  same_file m m' /\
  current_block_start m' = block_start /\
  cursor_offset m' = offset /\
  exists blk,
    current_block m' = Some blk /\
    (offset <= List.length (decoded blk))%nat /\
    (current_block m = Some blk /\ current_block_start m = block_start \/
     load_block (backing_file m) block_start = inr blk).
Proof.
  unfold sqfs_meta_reader_seek, bind.
  destruct (Z.ltb_spec block_start (window_start m)); [discriminate|].
  destruct (Z.leb_spec (window_limit m) block_start); [discriminate|].
  simpl.
  assert (Hfin : forall blk,
    (if (List.length (decoded blk) <? offset)%nat
     then inl OutOfBounds
     else inr (mkReader (backing_file m) (window_start m) (window_limit m)
                 block_start (Some blk) offset)) = inr m' ->
    same_file m m' /\ current_block_start m' = block_start /\
    cursor_offset m' = offset /\ current_block m' = Some blk /\
    (offset <= List.length (decoded blk))%nat).
  { intros blk.
    destruct (Nat.ltb_spec (List.length (decoded blk)) offset);
      [discriminate|].
    intros Hm. injection Hm as <-. unfold same_file. simpl. auto. }
  destruct (current_block m) as [blk|] eqn:Hcur.
  - destruct (Z.eqb_spec block_start (current_block_start m)) as [Heq|Hne].
    + intros Hm. destruct (Hfin _ Hm) as (Hsf & Hb & Hc & Hblk & Ho).
      split; [lia|]. repeat split; try apply Hsf; auto.
      exists blk. auto.
    + destruct (load_block (backing_file m) block_start) as [e|blk'] eqn:Hl;
        [discriminate|].
      intros Hm. destruct (Hfin _ Hm) as (Hsf & Hb & Hc & Hblk & Ho).
      split; [lia|]. repeat split; try apply Hsf; auto.
      exists blk'. auto.
  - destruct (load_block (backing_file m) block_start) as [e|blk'] eqn:Hl;
      [discriminate|].
    intros Hm. destruct (Hfin _ Hm) as (Hsf & Hb & Hc & Hblk & Ho).
    split; [lia|]. repeat split; try apply Hsf; auto.
    exists blk'. auto.
Qed.

Lemma seek_ok (m m' : sqfs_meta_reader_t) (block_start : Z) (offset : nat) :
  reader_ok m ->
  sqfs_meta_reader_seek m block_start offset = inr m' ->
  reader_ok m'.
Proof.
  intros Hok Hseek.
  destruct (seek_inv _ _ _ _ Hseek)
    as (Hwin & (Hf & Hlo & Hhi) & Hb & _ & blk & Hblk & _ & Hsrc).
  intros blk' Hblk'. rewrite Hblk in Hblk'. injection Hblk' as <-.
  rewrite Hf, Hlo, Hhi, Hb. split; [|assumption].
  destruct Hsrc as [[Hcur Hsame]|Hload]; [|assumption].
  destruct (Hok _ Hcur) as [Hl _]. now rewrite <- Hsame.
Qed.

Lemma read_loop_ok (turns : nat) :
  forall m size acc out m',
    reader_ok m ->
    read_loop turns m size acc = inr (out, m') ->
    reader_ok m' /\ same_file m m'.
Proof.
  induction turns as [|turns IH]; intros m size acc out m' Hok Hread.
  - destruct size; [|discriminate]. injection Hread as <- <-.
    unfold same_file. auto.
  - destruct size as [|size].
    { injection Hread as <- <-. unfold same_file. auto. }
    cbn [read_loop] in Hread.
    destruct (current_block m) as [blk|] eqn:Hcur; [|discriminate].
    destruct (Nat.eqb_spec (List.length (decoded blk) - cursor_offset m) 0).
    + unfold bind in Hread.
      destruct (sqfs_meta_reader_seek m _ 0) as [err|m1] eqn:Hseek;
        [discriminate|].
      destruct (IH _ _ _ _ _ (seek_ok _ _ _ _ Hok Hseek) Hread)
        as [Hok' (Hf & Hlo & Hhi)].
      destruct (seek_inv _ _ _ _ Hseek) as (_ & (Hf1 & Hlo1 & Hhi1) & _).
      split; [assumption|]. unfold same_file. repeat split; congruence.
    + apply IH in Hread; [exact Hread|].
      intros blk' Hblk'. simpl in *. injection Hblk' as <-. now apply Hok.
Qed.

Lemma read_ok (m m' : sqfs_meta_reader_t) (size : nat) (out : list byte) :
  reader_ok m ->
  sqfs_meta_reader_read m size = inr (out, m') ->
  reader_ok m'.
Proof.
  intros Hok Hread. unfold sqfs_meta_reader_read in Hread.
  now destruct (read_loop_ok _ _ _ _ _ _ Hok Hread).
Qed.

(** C7.  A seek whose block start lies below the start of the window or at or
    above its limit fails with [OutOfBounds], whatever the window, and the
    reader, which a failed seek leaves as it was, holds no block loaded from
    that position.  When the window is empty every seek fails. *)
Theorem seek_outside_window (m : sqfs_meta_reader_t) (block_start : Z)
    (offset : nat) :
  reader_ok m ->
  block_start < window_start m \/ window_limit m <= block_start ->
  sqfs_meta_reader_seek m block_start offset = inl OutOfBounds /\
  (forall blk, current_block m = Some blk ->
               current_block_start m <> block_start) /\
  (window_start m = window_limit m ->
   forall b o, sqfs_meta_reader_seek m b o = inl OutOfBounds).
Proof.
  intros Hok Hout. split; [|split].
  - unfold sqfs_meta_reader_seek.
    destruct (Z.ltb_spec block_start (window_start m)); [reflexivity|].
    destruct (Z.leb_spec (window_limit m) block_start); [reflexivity|lia].
  - intros blk Hblk. destruct (Hok _ Hblk) as [_ Hwin]. lia.
  - intros Hempty b o. unfold sqfs_meta_reader_seek.
    destruct (Z.ltb_spec b (window_start m)); [reflexivity|].
    destruct (Z.leb_spec (window_limit m) b); [reflexivity|lia].
Qed.

End Window.

(** *** Reading a stream of blocks *)

Lemma firstn_add {A : Type} (a b : nat) (l : list A) :
  firstn (a + b) l = firstn a l ++ firstn b (skipn a l).
Proof.
  revert l. induction a as [|a IH]; intros l; simpl; auto.
  destruct l as [|x l]; simpl.
  - now rewrite firstn_nil.
  - now rewrite IH.
Qed.

Lemma firstn_skipn_app {A : Type} (n o : nat) (l1 l2 : list A) :
  (o + n <= List.length l1)%nat ->
  firstn n (skipn o (l1 ++ l2)) = firstn n (skipn o l1).
Proof.
  intros Hle. rewrite skipn_app, firstn_app.
  rewrite length_skipn.
  replace (n - (List.length l1 - o))%nat with 0%nat by lia.
  simpl. now rewrite app_nil_r.
Qed.

Lemma read_at_inv (file : list byte) (off : Z) (n : nat) (out : list byte) :
  read_at file off n = Some out ->
  0 <= off /\ off + Z.of_nat n <= len file /\
  out = firstn n (skipn (Z.to_nat off) file).
Proof.
  unfold read_at.
  destruct (Z.leb_spec 0 off); simpl; [|discriminate].
  destruct (Z.leb_spec (off + Z.of_nat n) (len file)); [|discriminate].
  intros Ho. injection Ho as <-. auto.
Qed.

Lemma read_at_app (pre x post : list byte) :
  read_at (pre ++ x ++ post) (len pre) (List.length x) = Some x.
Proof.
  unfold read_at, len.
  destruct (Z.leb_spec 0 (Z.of_nat (List.length pre))); [|lia]. simpl.
  rewrite !length_app.
  destruct (Z.leb_spec
              (Z.of_nat (List.length pre) + Z.of_nat (List.length x))
              (Z.of_nat (List.length pre +
                         (List.length x + List.length post)))); [|lia].
  rewrite Nat2Z.id. rewrite skipn_app, skipn_all, Nat.sub_diag. simpl.
  rewrite firstn_app, firstn_all, Nat.sub_diag. simpl.
  now rewrite app_nil_r.
Qed.

Section Stream.

Context `{Compressor}.

Variable file : list byte.
Variables lo hi : Z.

Hypothesis file_size_u64 : len file < 2 ^ 64.

(** The blocks [ds], in this order, are what the file holds from offset [b]
    up to offset [e], and each of them starts inside the window. *)
Fixpoint chain (b : Z) (ds : list (list byte)) (e : Z) : Prop :=
  match ds with
  | [] => b = e
  | d :: rest =>
      lo <= b < hi /\
      exists size,
        load_block file b = inr (mkBlock d size) /\
        chain (b + 2 + size) rest e
  end.

(** The position [(b, o)] denotes a place in a sequence of blocks from which
    the uncompressed bytes [s] follow. *)
Definition stream_at (b : Z) (o : nat) (s : list byte) : Prop :=
  exists d size ds e,
    lo <= b < hi /\
    load_block file b = inr (mkBlock d size) /\
    chain (b + 2 + size) ds e /\
    (o <= List.length d)%nat /\
    skipn o (d ++ concat ds) = s.

Definition reader_on (m : sqfs_meta_reader_t) : Prop :=
  backing_file m = file /\ window_start m = lo /\ window_limit m = hi /\
  reader_ok m.

(** The reader holds a block and the bytes [s] follow its cursor. *)
Definition positioned (m : sqfs_meta_reader_t) (s : list byte) : Prop :=
  reader_on m /\
  (exists blk, current_block m = Some blk) /\
  stream_at (current_block_start m) (cursor_offset m) s.

Lemma load_block_bounds (b : Z) (blk : meta_block) :
  load_block file b = inr blk ->
  0 <= b /\ 0 <= on_disk_size blk /\ b + 2 + on_disk_size blk <= len file.
Proof.
  unfold load_block.
  destruct (read_at file b 2) as [hdr|] eqn:Hh; [|discriminate].
  apply read_at_inv in Hh as (Hb & _ & _).
  set (size := header_size (le_value hdr)).
  assert (Hs : 0 <= size).
  { subst size. unfold header_size. apply Z.land_nonneg. right. lia. }
  destruct (Z.ltb_spec (Z.of_nat capacity) size); [discriminate|].
  destruct (read_at file (b + 2) (Z.to_nat size)) as [payload|] eqn:Hp;
    [|discriminate].
  apply read_at_inv in Hp as (_ & Hp & _). rewrite Z2Nat.id in Hp by lia.
  destruct (header_uncompressed (le_value hdr)).
  - intros Hblk. injection Hblk as <-. simpl. lia.
  - destruct (decompress payload capacity); [|discriminate].
    intros Hblk. injection Hblk as <-. simpl. lia.
Qed.

Lemma chain_room (ds : list (list byte)) :
  forall b e,
    0 <= b -> chain b ds e ->
    ds = [] \/ b + 2 * len ds <= len file.
Proof.
  induction ds as [|d ds IH]; intros b e Hb Hc; [now left|right].
  destruct Hc as (_ & size & Hl & Hrest).
  apply load_block_bounds in Hl as (_ & Hs & Hend). simpl in Hs, Hend.
  assert (Hb' : 0 <= b + 2 + size) by lia.
  destruct (IH _ _ Hb' Hrest) as [->|Hroom]; unfold len in *;
    cbn [List.length] in *; lia.
Qed.

Lemma reader_on_intro (b : Z) (blk : meta_block) (o : nat) :
  load_block file b = inr blk ->
  lo <= b < hi ->
  reader_on (mkReader file lo hi b (Some blk) o).
Proof.
  intros Hload Hwin. unfold reader_on. simpl.
  split; [reflexivity|]. split; [reflexivity|]. split; [reflexivity|].
  intros cached Hcached. simpl in *. injection Hcached as <-. auto.
Qed.

Lemma read_loop_stream (turns : nat) :
  forall m n acc d size ds e,
    reader_on m ->
    current_block m = Some (mkBlock d size) ->
    (cursor_offset m <= List.length d)%nat ->
    chain (current_block_start m + 2 + size) ds e ->
    (n <= List.length (skipn (cursor_offset m) (d ++ concat ds)))%nat ->
    (n <> 0%nat ->
     2 * List.length ds +
     (if (cursor_offset m <? List.length d)%nat then 2 else 1) <= turns)%nat ->
    exists m',
      read_loop turns m n acc =
        inr (acc ++ firstn n (skipn (cursor_offset m) (d ++ concat ds)), m') /\
      positioned m' (skipn n (skipn (cursor_offset m) (d ++ concat ds))).
Proof.
  induction turns as [|turns IH];
    intros m n acc d size ds e Hon Hcur Hoff Hchain Hn Hturns.
  all: destruct n as [|n].
  1, 3: exists m; simpl; rewrite app_nil_r;
    (split; [reflexivity|]);
    (split; [assumption|]); (split; [eauto|]);
    destruct Hon as (Hf & Hlo & Hhi & Hok);
    destruct (Hok _ Hcur) as [Hload Hwin]; rewrite Hf in Hload;
    exists d, size, ds, e; repeat split; auto; lia.
  { specialize (Hturns ltac:(discriminate)).
    destruct (cursor_offset m <? List.length d)%nat; lia. }
  specialize (Hturns ltac:(discriminate)).
  destruct Hon as (Hf & Hlo & Hhi & Hok).
  destruct (Hok _ Hcur) as [Hload Hwin]. rewrite Hf in Hload.
  pose proof (load_block_bounds _ _ Hload) as (Hb0 & Hs0 & Hend).
  simpl in Hs0, Hend.
  cbn [read_loop]. rewrite Hcur. cbn [decoded on_disk_size].
  destruct (Nat.eqb_spec (List.length d - cursor_offset m) 0) as [Hex|Hav].
  - (* the block is exhausted: move to the next one *)
    assert (Ho : cursor_offset m = List.length d) by lia.
    rewrite Ho in *. rewrite Nat.ltb_irrefl in Hturns.
    rewrite skipn_app, skipn_all, Nat.sub_diag in *. simpl skipn in *.
    simpl app in *.
    destruct ds as [|d1 ds1]; [simpl in Hn; lia|].
    destruct Hchain as (Hwin1 & size1 & Hload1 & Hchain1).
    set (b1 := current_block_start m + 2 + size) in *.
    assert (Hw : wrap64 b1 = b1).
    { unfold wrap64. apply Z.mod_small. lia. }
    rewrite Hw.
    assert (Hseek : sqfs_meta_reader_seek m b1 0 =
                    inr (mkReader file lo hi b1 (Some (mkBlock d1 size1)) 0)).
    { unfold sqfs_meta_reader_seek, bind. rewrite Hlo, Hhi, Hf, Hcur.
      destruct (Z.ltb_spec b1 lo); [lia|].
      destruct (Z.leb_spec hi b1); [lia|]. simpl.
      destruct (Z.eqb_spec b1 (current_block_start m)); [lia|].
      rewrite Hload1. reflexivity. }
    rewrite Hseek. simpl bind.
    destruct (IH (mkReader file lo hi b1 (Some (mkBlock d1 size1)) 0)
                (S n) acc d1 size1 ds1 e) as (m' & Hread & Hpos).
    + now apply reader_on_intro.
    + reflexivity.
    + simpl. lia.
    + exact Hchain1.
    + simpl cursor_offset. simpl skipn. exact Hn.
    + intros _. simpl cursor_offset. simpl List.length in Hturns.
      destruct (0 <? List.length d1)%nat; lia.
    + exists m'. simpl cursor_offset in *. simpl skipn in *.
      simpl concat. split; assumption.
  - (* bytes are available in the block *)
    assert (Hlt : (cursor_offset m < List.length d)%nat) by lia.
    apply Nat.ltb_lt in Hlt as Hltb. rewrite Hltb in Hturns.
    set (avail := (List.length d - cursor_offset m)%nat) in *.
    set (diff := Nat.min avail (S n)).
    set (L := d ++ concat ds) in *.
    assert (Hd : (diff <= avail /\ diff <= S n /\ 0 < diff)%nat)
      by (subst diff; lia).
    set (m1 := mkReader (backing_file m) (window_start m) (window_limit m)
                 (current_block_start m) (Some (mkBlock d size))
                 (cursor_offset m + diff)).
    rewrite length_skipn in Hn.
    destruct (IH m1 (S n - diff)%nat
                (acc ++ firstn diff (skipn (cursor_offset m) d))
                d size ds e) as (m' & Hread & Hpos).
    + subst m1. rewrite Hf, Hlo, Hhi. rewrite Hlo, Hhi in Hwin.
      now apply reader_on_intro.
    + reflexivity.
    + subst m1 avail. simpl. lia.
    + exact Hchain.
    + subst m1. simpl cursor_offset. fold L. rewrite length_skipn. lia.
    + intros Hmore. subst m1. simpl cursor_offset.
      destruct (cursor_offset m + diff <? List.length d)%nat eqn:Hc.
      * apply Nat.ltb_lt in Hc. subst diff avail. lia.
      * lia.
    + exists m'. subst m1. simpl cursor_offset in *. fold L in Hread, Hpos.
      rewrite Hread. split.
      * f_equal. f_equal. rewrite <- app_assoc. f_equal.
        replace (S n) with (diff + (S n - diff))%nat at 2 by lia.
        rewrite firstn_add, skipn_skipn. f_equal.
        -- subst L. symmetry. apply firstn_skipn_app. subst avail. lia.
        -- f_equal. f_equal. lia.
      * rewrite !skipn_skipn in *.
        replace (S n + cursor_offset m)%nat
          with (S n - diff + (cursor_offset m + diff))%nat by lia.
        exact Hpos.
Qed.

Lemma seek_stream (m : sqfs_meta_reader_t) (b : Z) (o : nat) (s : list byte) :
  reader_on m ->
  stream_at b o s ->
  exists m',
    sqfs_meta_reader_seek m b o = inr m' /\
    positioned m' s /\
    sqfs_meta_reader_get_position m' = (b, o).
Proof.
  intros (Hf & Hlo & Hhi & Hok) Hs.
  pose proof Hs as (d & size & ds & e & Hwin & Hload & Hchain & Ho & Hskip).
  exists (mkReader file lo hi b (Some (mkBlock d size)) o).
  split; [|split; [|reflexivity]].
  - unfold sqfs_meta_reader_seek, bind. rewrite Hlo, Hhi, Hf.
    destruct (Z.ltb_spec b lo); [lia|].
    destruct (Z.leb_spec hi b); [lia|]. simpl.
    assert (Hfin : (if (List.length d <? o)%nat
                    then inl OutOfBounds
                    else inr (mkReader file lo hi b (Some (mkBlock d size)) o))
                   = inr (mkReader file lo hi b (Some (mkBlock d size)) o)).
    { destruct (Nat.ltb_spec (List.length d) o); [lia|reflexivity]. }
    destruct (current_block m) as [blk|] eqn:Hcur.
    + destruct (Z.eqb_spec b (current_block_start m)) as [->|_].
      * destruct (Hok _ Hcur) as [Hl _]. rewrite Hf, Hload in Hl.
        injection Hl as <-. exact Hfin.
      * rewrite Hload. exact Hfin.
    + rewrite Hload. exact Hfin.
  - split; [|split]; simpl; eauto.
    now apply reader_on_intro.
Qed.

Lemma read_stream (m : sqfs_meta_reader_t) (x rest : list byte) :
  positioned m (x ++ rest) ->
  exists m',
    sqfs_meta_reader_read m (List.length x) = inr (x, m') /\
    positioned m' rest.
Proof.
  intros (Hon & [blk Hcur] & d & size & ds & e & Hwin & Hload & Hchain & Ho
          & Hskip).
  pose proof Hon as (Hf & Hlo & Hhi & Hok).
  destruct (Hok _ Hcur) as [Hl _]. rewrite Hf, Hload in Hl.
  injection Hl as <-.
  pose proof (load_block_bounds _ _ Hload) as (Hb0 & Hs0 & Hend).
  simpl in Hs0, Hend.
  destruct (read_loop_stream (List.length file + 2) m (List.length x) []
              d size ds e Hon Hcur Ho Hchain) as (m' & Hread & Hpos).
  - rewrite Hskip, length_app. lia.
  - intros _.
    assert (Hb' : 0 <= current_block_start m + 2 + size) by lia.
    destruct (chain_room ds _ _ Hb' Hchain) as [->|Hroom].
    + simpl. destruct (cursor_offset m <? List.length d)%nat; lia.
    + unfold len in *.
      destruct (cursor_offset m <? List.length d)%nat; lia.
  - exists m'. unfold sqfs_meta_reader_read. rewrite Hf, Hread, Hskip.
    rewrite Hskip in Hpos. simpl.
    rewrite firstn_app, firstn_all, Nat.sub_diag in *. simpl firstn.
    rewrite app_nil_r.
    rewrite skipn_app, skipn_all, Nat.sub_diag in Hpos. simpl in Hpos.
    split; [reflexivity|assumption].
Qed.

End Stream.

(** *** What the writer leaves in the image *)

(** A writing session: records are appended, with explicit flushes in
    between. *)
Inductive op :=
| Append (record : list byte)
| Flush.

Section Session.

Context `{Compressor} {S : Type} `{ByteSink S}.

(** Runs the operations and notes, for every record, the position
    [sqfs_meta_writer_get_position] reports just before it is appended. *)
Fixpoint run (m : sqfs_meta_writer_t S) (ops : list op)
  : result (sqfs_meta_writer_t S * list ((Z * Z) * list byte)) :=
  match ops with
  | [] => inr (m, [])
  | Append record :: rest =>
      m1 <- sqfs_meta_writer_append m record ;;
      '(m2, noted) <- run m1 rest ;;
      inr (m2, (sqfs_meta_writer_get_position m, record) :: noted)
  | Flush :: rest =>
      m1 <- sqfs_meta_writer_flush m ;;
      run m1 rest
  end.

(** The last block is flushed and, with [keep_in_mem], the collected blocks
    are written out. *)
Definition finish (m : sqfs_meta_writer_t S) : result (sqfs_meta_writer_t S) :=
  m1 <- sqfs_meta_writer_flush m ;;
  if keep_in_memory m1 then sqfs_meta_write_write_to_file m1 else inr m1.

(** The image a session leaves in the sink, and the noted positions. *)
Definition session (fd : S) (keep_in_mem : bool) (ops : list op)
  : result (list byte * list ((Z * Z) * list byte)) :=
  '(m, noted) <- run (sqfs_meta_writer_create fd keep_in_mem) ops ;;
  m' <- finish m ;;
  inr (sink_bytes (sink m'), noted).

(** Everything emitted so far, whether it is in the sink already or still
    among the collected blocks. *)
Definition emitted (m : sqfs_meta_writer_t S) : list byte :=
  sink_bytes (sink m) ++ concat (collected_blocks m).

(** Without [keep_in_mem] nothing is collected. *)
Definition tidy (m : sqfs_meta_writer_t S) : Prop :=
  keep_in_memory m = false -> collected_blocks m = [].

Hypothesis compressor_lossless : lossless.
Hypothesis sink_appending : appending S.

Lemma load_encode (payload blk : list byte) :
  (List.length payload <= capacity)%nat ->
  encode_block payload = inr blk ->
  (2 <= List.length blk)%nat /\
  forall pre post,
    load_block (pre ++ blk ++ post) (len pre) =
    inr (mkBlock payload (len blk - 2)).
Proof.
  intros Hcap Henc.
  destruct (encode_block_cases _ _ Henc) as (c & Hc & Hcase).
  assert (Hshape : exists stored flag,
             blk = encode_header (len stored) flag ++ stored /\
             (List.length stored <= capacity)%nat /\
             (if flag then stored = payload
              else decompress stored capacity = Some payload)).
  { destruct Hcase as [[Hlt ->]|[Hge ->]].
    - exists c, false. repeat split; auto; try lia.
    - exists payload, true. repeat split; auto. }
  destruct Hshape as (stored & flag & -> & Hlen & Hflag).
  pose proof capacity_value as Hcv.
  assert (Hr : 0 <= len stored < 2 ^ 15) by (unfold len; lia).
  destruct (header_round_trip (len stored) flag Hr) as [Hs Hu].
  split; [rewrite length_app, encode_header_length; lia|].
  intros pre post. unfold load_block.
  rewrite <- app_assoc.
  replace 2%nat with (List.length (encode_header (len stored) flag))
    by apply encode_header_length.
  rewrite read_at_app, Hs, Hu.
  destruct (Z.ltb_spec (Z.of_nat capacity) (len stored));
    [unfold len in *; lia|].
  replace (len pre + 2)
    with (len (pre ++ encode_header (len stored) flag))
    by (unfold len; rewrite length_app, encode_header_length; lia).
  replace (Z.to_nat (len stored)) with (List.length stored)
    by (unfold len; lia).
  rewrite (app_assoc pre). rewrite read_at_app.
  replace (len (encode_header (len stored) flag ++ stored) - 2)
    with (len stored)
    by (unfold len; rewrite length_app, encode_header_length; lia).
  destruct flag.
  - now rewrite Hflag.
  - now rewrite Hflag.
Qed.

Lemma flush_emitted (m m' : sqfs_meta_writer_t S) :
  tidy m ->
  sqfs_meta_writer_flush m = inr m' ->
  exists blk,
    encode_block (pending m) = inr blk /\
    emitted m' = emitted m ++ blk /\
    pending m' = [] /\
    tidy m' /\
    keep_in_memory m' = keep_in_memory m /\
    block_start_offset m' = wrap64 (block_start_offset m + len blk).
Proof.
  intros Htidy Hflush.
  destruct (flush_emits m m' Hflush) as (blk & Henc & Hem & Hp & Hk & Hb).
  exists blk. unfold emits in Hem. unfold emitted, tidy in *.
  destruct (keep_in_memory m) eqn:Hkeep.
  - destruct Hem as [Hc Hs]. rewrite Hc, Hs, concat_app. simpl.
    rewrite app_nil_r, app_assoc. repeat split; auto.
    rewrite Hk. discriminate.
  - destruct Hem as [Hw Hc]. rewrite Hc, (Htidy eq_refl). simpl.
    rewrite !app_nil_r. rewrite (sink_appending _ _ _ Hw).
    repeat split; auto.
Qed.

Lemma write_to_file_emitted (m m' : sqfs_meta_writer_t S) :
  sqfs_meta_write_write_to_file m = inr m' ->
  emitted m' = emitted m /\ collected_blocks m' = [].
Proof.
  unfold sqfs_meta_write_write_to_file, bind, emitted.
  destruct (write_blocks (sink m) (collected_blocks m)) as [e|fd] eqn:Hw;
    [discriminate|].
  intros Hm. injection Hm as <-. simpl. rewrite app_nil_r. split; auto.
  revert Hw. generalize (sink m). generalize (collected_blocks m).
  intros blocks. induction blocks as [|blk blocks IH]; intros fd0; simpl.
  - intros Hfd. injection Hfd as <-. now rewrite app_nil_r.
  - destruct (sink_write fd0 blk) as [fd1|] eqn:Hw1; [|discriminate].
    intros Hrest. rewrite (IH _ Hrest), (sink_appending _ _ _ Hw1).
    now rewrite app_assoc.
Qed.

Definition push (m : sqfs_meta_writer_t S) (b : byte) : sqfs_meta_writer_t S :=
  mkWriter (sink m) (pending m ++ [b]) (block_start_offset m)
    (keep_in_memory m) (collected_blocks m).

Lemma append_grows (record : list byte) :
  forall m m1,
    tidy m ->
    sqfs_meta_writer_append m record = inr m1 ->
    tidy m1 /\ exists mid, emitted m1 = emitted m ++ mid.
Proof.
  induction record as [|b rest IH]; intros m m1 Htidy Happ; simpl in Happ.
  - injection Happ as <-. split; auto. exists []. now rewrite app_nil_r.
  - fold (push m b) in Happ.
    destruct (List.length (pending m ++ [b]) =? capacity)%nat.
    + unfold bind in Happ.
      destruct (sqfs_meta_writer_flush (push m b)) as [e|m2] eqn:Hfl;
        [discriminate|].
      destruct (flush_emitted (push m b) m2 Htidy Hfl)
        as (blk & _ & Hem & _ & Ht2 & _).
      destruct (IH _ _ Ht2 Happ) as [Ht1 [mid Hmid]].
      split; auto. exists (blk ++ mid). rewrite Hmid, Hem.
      unfold emitted, push. simpl. now rewrite <- !app_assoc.
    + destruct (IH (push m b) m1 Htidy Happ) as [Ht1 [mid Hmid]].
      split; auto. exists mid. exact Hmid.
Qed.

Lemma run_grows (ops : list op) :
  forall m m2 noted,
    tidy m ->
    run m ops = inr (m2, noted) ->
    tidy m2 /\ exists mid, emitted m2 = emitted m ++ mid.
Proof.
  induction ops as [|[record|] ops IH]; intros m m2 noted Htidy Hrun;
    simpl in Hrun; unfold bind in Hrun.
  - injection Hrun as <- <-. split; auto. exists []. now rewrite app_nil_r.
  - destruct (sqfs_meta_writer_append m record) as [e|m1] eqn:Happ;
      [discriminate|].
    destruct (run m1 ops) as [e|[m2' noted']] eqn:Hrest; [discriminate|].
    injection Hrun as <- <-.
    destruct (append_grows _ _ _ Htidy Happ) as [Ht1 [mid1 Hmid1]].
    destruct (IH _ _ _ Ht1 Hrest) as [Ht2 [mid2 Hmid2]].
    split; auto. exists (mid1 ++ mid2). rewrite Hmid2, Hmid1.
    now rewrite app_assoc.
  - destruct (sqfs_meta_writer_flush m) as [e|m1] eqn:Hfl; [discriminate|].
    destruct (flush_emitted _ _ Htidy Hfl) as (blk & _ & Hem & _ & Ht1 & _).
    destruct (IH _ _ _ Ht1 Hrun) as [Ht2 [mid2 Hmid2]].
    split; auto. exists (blk ++ mid2). rewrite Hmid2, Hem.
    now rewrite app_assoc.
Qed.

Lemma chain_app (file : list byte) (lo hi : Z) (ds1 ds2 : list (list byte)) :
  forall b e1 e2,
    chain file lo hi b ds1 e1 ->
    chain file lo hi e1 ds2 e2 ->
    chain file lo hi b (ds1 ++ ds2) e2.
Proof.
  induction ds1 as [|d ds1 IH]; intros b e1 e2 H1 H2; simpl in *.
  - now subst.
  - destruct H1 as (Hwin & size & Hload & Hrest).
    split; [assumption|]. exists size. split; [assumption|]. eauto.
Qed.

Lemma chain_head_stream (file : list byte) (lo hi b e : Z)
    (d0 : list byte) (ds : list (list byte)) (p s : list byte) :
  chain file lo hi b (d0 :: ds) e ->
  (exists x, d0 = p ++ x) ->
  d0 ++ concat ds = p ++ s ->
  stream_at file lo hi b (List.length p) s.
Proof.
  intros (Hwin & size & Hload & Hrest) [x ->] Hcat.
  exists (p ++ x), size, ds, e. repeat split; auto; try lia.
  - rewrite length_app. lia.
  - rewrite Hcat. rewrite skipn_app, skipn_all, Nat.sub_diag. reflexivity.
Qed.

Lemma emitted_push (m : sqfs_meta_writer_t S) (b : byte) :
  emitted (push m b) = emitted m.
Proof. reflexivity. Qed.

Lemma wrap64_len (l1 l2 rest : list byte) :
  len ((l1 ++ l2) ++ rest) < 2 ^ 64 ->
  wrap64 (len l1 + len l2) = len (l1 ++ l2).
Proof.
  unfold wrap64, len. rewrite !length_app. intros Hlt.
  rewrite Z.mod_small; lia.
Qed.

Lemma append_spec (record : list byte) :
  forall m m1 F ext,
    (List.length (pending m) < capacity)%nat ->
    tidy m ->
    block_start_offset m = len (emitted m) ->
    sqfs_meta_writer_append m record = inr m1 ->
    F = emitted m1 ++ ext ->
    len F < 2 ^ 64 ->
    exists ds,
      chain F 0 (len F) (len (emitted m)) ds (len (emitted m1)) /\
      concat ds ++ pending m1 = pending m ++ record /\
      (List.length (pending m1) < capacity)%nat /\
      block_start_offset m1 = len (emitted m1) /\
      match ds with
      | [] => True
      | d :: _ => exists x, d = pending m ++ x
      end.
Proof.
  induction record as [|b rest IH];
    intros m m1 F ext Hroom Htidy Hbso Happ HF Hlt; simpl in Happ.
  - injection Happ as <-. exists []. simpl. rewrite app_nil_r. auto.
  - fold (push m b) in Happ.
    destruct (Nat.eqb_spec (List.length (pending m ++ [b])) capacity)
      as [Hfull|Hnot].
    + unfold bind in Happ.
      destruct (sqfs_meta_writer_flush (push m b)) as [err|m2] eqn:Hfl;
        [discriminate|].
      destruct (flush_emitted (push m b) m2 Htidy Hfl)
        as (blk & Henc & Hem & Hp2 & Ht2 & _ & Hb2).
      rewrite emitted_push in Hem. simpl in Henc, Hb2.
      destruct (append_grows _ _ _ Ht2 Happ) as [_ [mid Hmid]].
      assert (HF' : F = (emitted m ++ blk) ++ mid ++ ext).
      { rewrite HF, Hmid, Hem. now rewrite <- !app_assoc. }
      assert (Hb2' : block_start_offset m2 = len (emitted m2)).
      { rewrite Hb2, Hbso, Hem. apply wrap64_len with (rest := mid ++ ext).
        now rewrite <- HF'. }
      destruct (IH m2 m1 F ext) as (ds & Hchain & Hcat & Hroom1 & Hb1 & _);
        auto.
      { rewrite Hp2. simpl. pose proof capacity_value. lia. }
      destruct (load_encode (pending m ++ [b]) blk) as [Hblk Hload];
        [lia|assumption|].
      exists ((pending m ++ [b]) :: ds). split; [|split; [|split; [|split]]];
        auto.
      * simpl. split.
        -- rewrite HF'. unfold len. rewrite !length_app. lia.
        -- exists (len blk - 2). split.
           ++ rewrite HF', <- app_assoc. apply Hload.
           ++ replace (len (emitted m) + 2 + (len blk - 2))
                with (len (emitted m2)); [assumption|].
              rewrite Hem. unfold len. rewrite length_app. lia.
      * simpl. rewrite Hp2 in Hcat. simpl in Hcat.
        rewrite <- !app_assoc. simpl. now rewrite Hcat.
      * exists [b]. reflexivity.
    + destruct (IH (push m b) m1 F ext) as (ds & Hchain & Hcat & Hroom1 & Hb1 & Hpre);
        auto.
      { simpl. rewrite length_app in *. simpl in *. lia. }
      exists ds. rewrite emitted_push in Hchain. simpl in Hcat.
      split; [assumption|]. split; [now rewrite Hcat, <- app_assoc|].
      split; [assumption|]. split; [assumption|].
      destruct ds as [|d ds]; auto. destruct Hpre as [x ->]. simpl.
      exists ([b] ++ x). now rewrite <- app_assoc.
Qed.

(** The records of a session, in the order they are appended. *)
Fixpoint records (ops : list op) : list (list byte) :=
  match ops with
  | [] => []
  | Append record :: rest => record :: records rest
  | Flush :: rest => records rest
  end.

Lemma run_records (ops : list op) :
  forall m m2 noted,
    run m ops = inr (m2, noted) -> map snd noted = records ops.
Proof.
  induction ops as [|[record|] ops IH]; intros m m2 noted Hrun;
    simpl in Hrun; unfold bind in Hrun.
  - now injection Hrun as <- <-.
  - destruct (sqfs_meta_writer_append m record) as [e|m1]; [discriminate|].
    destruct (run m1 ops) as [e|[m2' noted']] eqn:Hrest; [discriminate|].
    injection Hrun as <- <-. simpl. f_equal. eauto.
  - destruct (sqfs_meta_writer_flush m) as [e|m1]; [discriminate|]. eauto.
Qed.

(** Where a noted position leads in the image [F]. *)
Definition leads_to (F : list byte) (entry : (Z * Z) * list byte) : Prop :=
  exists rest,
    stream_at F 0 (len F) (fst (fst entry)) (Z.to_nat (snd (fst entry)))
      (snd entry ++ rest).

Lemma run_spec (ops : list op) :
  forall m m2 noted m3 F,
    (List.length (pending m) < capacity)%nat ->
    tidy m ->
    block_start_offset m = len (emitted m) ->
    run m ops = inr (m2, noted) ->
    sqfs_meta_writer_flush m2 = inr m3 ->
    F = emitted m3 ->
    len F < 2 ^ 64 ->
    (exists d0 ds,
        chain F 0 (len F) (len (emitted m)) (d0 :: ds) (len F) /\
        (exists x, d0 = pending m ++ x) /\
        d0 ++ concat ds = pending m ++ concat (map snd noted)) /\
    Forall (leads_to F) noted.
Proof.
  induction ops as [|[record|] ops IH];
    intros m m2 noted m3 F Hroom Htidy Hbso Hrun Hlast HF Hlt;
    simpl in Hrun; unfold bind in Hrun.
  - injection Hrun as <- <-.
    destruct (flush_emitted _ _ Htidy Hlast) as (blk & Henc & Hem & _).
    destruct (load_encode (pending m) blk) as [Hblk Hload];
      [lia|assumption|].
    split; [|constructor].
    exists (pending m), []. simpl. split; [|split].
    + split.
      * rewrite HF, Hem. unfold len. rewrite length_app. lia.
      * exists (len blk - 2). split.
        -- rewrite HF, Hem. rewrite <- (app_nil_r blk) at 1. apply Hload.
        -- rewrite HF, Hem. unfold len. rewrite length_app. lia.
    + exists []. now rewrite app_nil_r.
    + reflexivity.
  - destruct (sqfs_meta_writer_append m record) as [e|m1] eqn:Happ;
      [discriminate|].
    destruct (run m1 ops) as [e|[m2' noted']] eqn:Hrest; [discriminate|].
    injection Hrun as -> <-.
    destruct (append_grows _ _ _ Htidy Happ) as [Ht1 _].
    destruct (run_grows _ _ _ _ Ht1 Hrest) as [Ht2 [mid2 Hmid2]].
    destruct (flush_emitted _ _ Ht2 Hlast) as (blk3 & _ & Hem3 & _).
    assert (HF1 : F = emitted m1 ++ mid2 ++ blk3).
    { rewrite HF, Hem3, Hmid2. now rewrite app_assoc. }
    destruct (append_spec record m m1 F (mid2 ++ blk3) Hroom Htidy Hbso Happ
                HF1 Hlt) as (ds1 & Hchain1 & Hcat1 & Hroom1 & Hb1 & Hpre1).
    destruct (IH m1 m2 noted' m3 F Hroom1 Ht1 Hb1 Hrest Hlast HF Hlt)
      as [(d0' & ds' & Hchain' & [x' Hx'] & Hcat') Hnoted'].
    pose proof (chain_app _ _ _ _ _ _ _ _ Hchain1 Hchain') as Hchain.
    assert (Hhead : exists d0 ds,
               ds1 ++ d0' :: ds' = d0 :: ds /\ exists x, d0 = pending m ++ x).
    { destruct ds1 as [|d1 ds1].
      - exists d0', ds'. split; [reflexivity|]. simpl in Hcat1.
        exists (record ++ x'). now rewrite Hx', Hcat1, app_assoc.
      - exists d1, (ds1 ++ d0' :: ds'). split; [reflexivity|]. exact Hpre1. }
    destruct Hhead as (d0 & ds & Hsplit & Hx).
    assert (Hcat : d0 ++ concat ds =
                   pending m ++ record ++ concat (map snd noted')).
    { change (d0 ++ concat ds) with (concat (d0 :: ds)).
      rewrite <- Hsplit, concat_app. simpl. rewrite Hcat'.
      now rewrite app_assoc, Hcat1, <- app_assoc. }
    rewrite Hsplit in Hchain.
    split.
    + exists d0, ds. auto.
    + constructor; [|assumption].
      exists (concat (map snd noted')). unfold leads_to. simpl.
      rewrite Hbso. unfold len at 3. rewrite Nat2Z.id.
      now apply chain_head_stream with (e := len F) (d0 := d0) (ds := ds).
  - destruct (sqfs_meta_writer_flush m) as [e|m1] eqn:Hfl; [discriminate|].
    destruct (flush_emitted _ _ Htidy Hfl)
      as (blk & Henc & Hem & Hp1 & Ht1 & _ & Hb1).
    destruct (run_grows _ _ _ _ Ht1 Hrun) as [Ht2 [mid2 Hmid2]].
    destruct (flush_emitted _ _ Ht2 Hlast) as (blk3 & _ & Hem3 & _).
    assert (HF1 : F = (emitted m ++ blk) ++ mid2 ++ blk3).
    { rewrite HF, Hem3, Hmid2, Hem. now rewrite <- !app_assoc. }
    assert (Hb1' : block_start_offset m1 = len (emitted m1)).
    { rewrite Hb1, Hbso, Hem. apply wrap64_len with (rest := mid2 ++ blk3).
      now rewrite <- HF1. }
    assert (Hroom1 : (List.length (pending m1) < capacity)%nat).
    { rewrite Hp1. simpl. pose proof capacity_value. lia. }
    destruct (IH m1 m2 noted m3 F Hroom1 Ht1 Hb1' Hrun Hlast HF Hlt)
      as [(d0' & ds' & Hchain' & _ & Hcat') Hnoted].
    destruct (load_encode (pending m) blk) as [Hblk Hload];
      [lia|assumption|].
    split; [|assumption].
    exists (pending m), (d0' :: ds'). split; [|split].
    + split.
      * rewrite HF1. unfold len. rewrite !length_app. lia.
      * exists (len blk - 2). split.
        -- rewrite HF1, <- app_assoc. apply Hload.
        -- replace (len (emitted m) + 2 + (len blk - 2))
             with (len (emitted m1)); [assumption|].
           rewrite Hem. unfold len. rewrite length_app. lia.
    + exists []. now rewrite app_nil_r.
    + simpl. rewrite Hcat', Hp1. reflexivity.
Qed.

Lemma create_on (file : list byte) (lo hi : Z) :
  reader_on file lo hi (sqfs_meta_reader_create file lo hi).
Proof.
  unfold reader_on.
  split; [reflexivity|]. split; [reflexivity|]. split; [reflexivity|].
  apply create_ok.
Qed.

(** C1.  Records are appended through the writer, with flushes in between,
    and the image is written out.  Whatever the length of a record, seeking a
    reader on the image to the position the writer reported before the record
    was appended and reading as many bytes as the record has gives back the
    record, on a fresh reader as on one that has read other records before. *)
Theorem round_trip (fd : S) (keep_in_mem : bool) (ops : list op)
    (image : list byte) (noted : list ((Z * Z) * list byte)) :
  sink_bytes fd = [] ->
  session fd keep_in_mem ops = inr (image, noted) ->
  len image < 2 ^ 64 ->
  map snd noted = records ops /\
  reader_on image 0 (len image)
    (sqfs_meta_reader_create image 0 (len image)) /\
  Forall
    (fun entry =>
       forall r,
         reader_on image 0 (len image) r ->
         exists r1 r2,
           sqfs_meta_reader_seek r (fst (fst entry))
             (Z.to_nat (snd (fst entry))) = inr r1 /\
           sqfs_meta_reader_read r1 (List.length (snd entry)) =
             inr (snd entry, r2) /\
           reader_on image 0 (len image) r2)
    noted.
Proof.
  intros Hempty Hsession Hlt. unfold session, bind in Hsession.
  destruct (run (sqfs_meta_writer_create fd keep_in_mem) ops)
    as [e|[m2 noted']] eqn:Hrun; [discriminate|].
  destruct (finish m2) as [e|m4] eqn:Hfin; [discriminate|].
  injection Hsession as <- <-.
  split; [now apply run_records in Hrun|]. split; [apply create_on|].
  assert (Ht0 : tidy (sqfs_meta_writer_create fd keep_in_mem)) by (intro; auto).
  destruct (run_grows _ _ _ _ Ht0 Hrun) as [Ht2 _].
  unfold finish, bind in Hfin.
  destruct (sqfs_meta_writer_flush m2) as [e|m3] eqn:Hlast; [discriminate|].
  destruct (flush_emitted _ _ Ht2 Hlast) as (_ & _ & _ & _ & Ht3 & _).
  assert (Himage : sink_bytes (sink m4) = emitted m3).
  { destruct (keep_in_memory m3) eqn:Hk.
    - destruct (write_to_file_emitted _ _ Hfin) as [<- Hnil].
      unfold emitted. rewrite Hnil. simpl. now rewrite app_nil_r.
    - injection Hfin as <-. unfold emitted. rewrite (Ht3 Hk). simpl.
      now rewrite app_nil_r. }
  rewrite Himage in *.
  destruct (run_spec ops (sqfs_meta_writer_create fd keep_in_mem) m2 noted' m3
              (emitted m3)) as [_ Hnoted]; auto.
  { simpl. pose proof capacity_value. lia. }
  { unfold emitted. simpl. rewrite Hempty. reflexivity. }
  apply Forall_impl with (2 := Hnoted).
  intros [[b o] record] [rest Hstream] r Hr. simpl in *.
  destruct (seek_stream _ _ _ r b (Z.to_nat o) _ Hr Hstream)
    as (r1 & Hseek & Hpos & _).
  destruct (read_stream _ _ _ Hlt r1 record rest Hpos) as (r2 & Hread & Hpos2).
  exists r1, r2. split; [assumption|]. split; [assumption|]. apply Hpos2.
Qed.

End Session.

(** *** A compressor and a sink to run the operations with *)

(** A small compressor: a run of up to 255 leading zero bytes is replaced by
    its length. *)
Fixpoint zero_run (most : nat) (x : list byte) : nat :=
  match most, x with
  | S most', b :: rest =>
      if Byte.eqb b Byte.x00 then S (zero_run most' rest) else O
  | _, _ => O
  end.

Definition byte_of_nat (n : nat) : byte :=
  match Byte.of_nat n with
  | Some b => b
  | None => Byte.x00
  end.

Definition zero_run_compress (x : list byte) : option (list byte) :=
  let k := zero_run 255 x in
  Some (byte_of_nat k :: skipn k x).

Definition zero_run_decompress (c : list byte) (max_out_len : nat)
  : option (list byte) :=
  match c with
  | [] => None
  | b :: rest =>
      let out := zeros (Byte.to_nat b) ++ rest in
      if (List.length out <=? max_out_len)%nat then Some out else None
  end.

#[export] Instance zero_run_compressor : Compressor := {|
  compress := zero_run_compress;
  decompress := zero_run_decompress
|}.

Lemma zero_run_bound (most : nat) : forall x, (zero_run most x <= most)%nat.
Proof.
  induction most as [|most IH]; intros [|b rest]; simpl; try lia.
  destruct (Byte.eqb b Byte.x00); [|lia]. specialize (IH rest). lia.
Qed.

Lemma zero_run_zeros (most : nat) :
  forall x, zeros (zero_run most x) ++ skipn (zero_run most x) x = x.
Proof.
  induction most as [|most IH]; intros [|b rest]; simpl; auto.
  destruct (Byte.eqb b Byte.x00) eqn:Hb; simpl; auto.
  apply Byte.byte_dec_bl in Hb. subst b. now rewrite IH.
Qed.

Lemma zero_run_lossless : @lossless zero_run_compressor.
Proof.
  intros x c Hc Hlen.
  unfold compress, decompress, zero_run_compressor, zero_run_compress in *.
  pose proof (zero_run_bound 255 x) as Hk.
  pose proof (zero_run_zeros 255 x) as Hz.
  remember (zero_run 255 x) as k eqn:Hk0. clear Hk0.
  injection Hc as <-. unfold zero_run_decompress, byte_of_nat.
  destruct (Byte.of_nat k) as [b|] eqn:Hb.
  - apply Byte.to_of_nat in Hb. rewrite Hb, Hz.
    destruct (Nat.leb_spec (List.length x) capacity); [reflexivity|lia].
  - apply Byte.of_nat_None_iff in Hb. lia.
Qed.

(** A sink with a bounded amount of room: a write that does not fit fails. *)
Record disk := mkDisk {
  stored : list byte;
  room : nat
}.

Definition disk_write (d : disk) (data : list byte) : option disk :=
  if (List.length data <=? room d)%nat
  then Some (mkDisk (stored d ++ data) (room d - List.length data))
  else None.

#[export] Instance disk_sink : ByteSink disk := {|
  sink_write := disk_write;
  sink_bytes := stored
|}.

Lemma disk_appending : appending disk.
Proof.
  intros s d s'. simpl. unfold disk_write.
  destruct (List.length d <=? room s)%nat; [|discriminate].
  intros Hs. now injection Hs as <-.
Qed.

Definition fresh_disk : disk := mkDisk [] (Z.to_nat 20000).

(** A session with a short record, an explicit flush, a record longer than a
    block, and another short record. *)
Definition long_record : list byte := zeros (Z.to_nat 9000) ++ [x07; x08].

Definition example_ops : list op :=
  [Append [x01; x02; x03]; Flush; Append long_record; Append [x09]].

Example example_positions :
  match session fresh_disk false example_ops with
  | inr (image, noted) => (len image, map fst noted)
  | inl _ => (0, [])
  end = (8504, [(0, 0); (5, 0); (7945, 810)]).
Proof. vm_compute. reflexivity. Qed.

(** C1 on that session, written to the sink block by block. *)
Lemma round_trip_example :
  exists image noted,
    session fresh_disk false example_ops = inr (image, noted) /\
    map snd noted = records example_ops /\
    Forall
      (fun entry =>
         forall r,
           reader_on image 0 (len image) r ->
           exists r1 r2,
             sqfs_meta_reader_seek r (fst (fst entry))
               (Z.to_nat (snd (fst entry))) = inr r1 /\
             sqfs_meta_reader_read r1 (List.length (snd entry)) =
               inr (snd entry, r2) /\
             reader_on image 0 (len image) r2)
      noted.
Proof.
  destruct (session fresh_disk false example_ops)
    as [e|[image noted]] eqn:Hs.
  - vm_compute in Hs. discriminate.
  - exists image, noted. split; [reflexivity|].
    assert (Hlen : len image < 2 ^ 64).
    { pose proof example_positions as Hp. rewrite Hs in Hp.
      injection Hp as Hp _. rewrite Hp. lia. }
    destruct (round_trip zero_run_lossless disk_appending
                fresh_disk false example_ops image noted
                eq_refl Hs Hlen) as (Hrec & _ & Hall).
    split; assumption.
Defined.

(** C7 on an empty window. *)
Lemma seek_outside_window_empty :
  sqfs_meta_reader_seek (sqfs_meta_reader_create [x00; x80] 2 2) 2 0 =
  inl OutOfBounds.
Proof.
  refine (proj1 (seek_outside_window
                   (sqfs_meta_reader_create [x00; x80] 2 2) 2 0 _ _)).
  - apply create_ok.
  - right. simpl. lia.
Defined.

(** C8 on a payload the compressor makes longer. *)
Lemma incompressible_stored_raw_example :
  exists blk,
    emits (mkWriter (mkDisk [] 100) [x01; x02; x03] 0 false [])
          (mkWriter (mkDisk [x03; x80; x01; x02; x03] 95) [] 5 false []) blk /\
    (List.length blk <= 3 + 2)%nat /\
    (forall c,
        compress [x01; x02; x03] = Some c ->
        ~ (List.length c < 3)%nat ->
        skipn 2 blk = [x01; x02; x03] /\
        header_uncompressed (le_value (firstn 2 blk)) = true /\
        header_size (le_value (firstn 2 blk)) = 3 /\
        List.length blk = (3 + 2)%nat).
Proof.
  refine (incompressible_stored_raw
            (mkWriter (mkDisk [] 100) [x01; x02; x03] 0 false [])
            (mkWriter (mkDisk [x03; x80; x01; x02; x03] 95) [] 5 false [])
            _ _).
  - simpl. pose proof capacity_value. lia.
  - reflexivity.
Defined.

(** *** Reading a directory *)

(** [struct sqfs_readdir_state_t], as declared in [meta_reader.h]: the
    anonymous struct of [init] and [current], and the three counters. *)
Record dir_location := mkLocation {
  block : Z;
  offset : Z;
  size : Z
}.

Record sqfs_readdir_state_t := mkReaddir {
  init : dir_location;
  current : dir_location;
  entries : Z;
  inum_base : Z;
  inode_block : Z
}.

(** [sqfs_readdir_state_reset]: [s->current = s->init; s->entries = 0;] *)
Definition sqfs_readdir_state_reset (s : sqfs_readdir_state_t)
  : sqfs_readdir_state_t :=
  mkReaddir (init s) (init s) 0 (inum_base s) (inode_block s).

(** Modelled from the spec: the directory records.  A header carries an
    entry count, the meta data block of the inodes and the inode-number base;
    an entry carries the offset of its inode in that block, a signed
    inode-number delta, a file-type tag, a 16-bit name length and the name.
    The design document defers the bit-exact layout to the image format,
    which is followed here: all fields little-endian, the count and the name
    length stored minus one, in the order of the fields below. *)
Record sqfs_dir_header_t := mkDirHeader {
  count : Z;
  start_block : Z;
  inode_number : Z
}.

Record sqfs_dir_entry_t := mkDirEntry {
  entry_offset : Z;
  inode_diff : Z;
  entry_type : Z;
  name_size : Z;
  name : list byte
}.

Definition dir_header_size : Z := 12.

Definition dir_entry_size (e : sqfs_dir_entry_t) : Z := 8 + (name_size e + 1).

Definition signed16 (v : Z) : Z := if v <? 2 ^ 15 then v else v - 2 ^ 16.

Definition encode_dir_header (h : sqfs_dir_header_t) : list byte :=
  le_bytes 4 (count h) ++ le_bytes 4 (start_block h) ++
  le_bytes 4 (inode_number h).

Definition encode_dir_entry (e : sqfs_dir_entry_t) : list byte :=
  le_bytes 2 (entry_offset e) ++ le_bytes 2 (inode_diff e mod 2 ^ 16) ++
  le_bytes 2 (entry_type e) ++ le_bytes 2 (name_size e) ++ name e.

Definition decode_dir_header (b : list byte) : sqfs_dir_header_t :=
  mkDirHeader (le_value (firstn 4 b))
              (le_value (firstn 4 (skipn 4 b)))
              (le_value (firstn 4 (skipn 8 b))).

(** The type tags a directory entry may carry: the seven basic inode types. *)
Definition known_type (t : Z) : bool := (1 <=? t) && (t <=? 7).

(** The longest name has 256 bytes, stored as 255. *)
Definition max_name_size : Z := 255.

(** Modelled from the spec: the outcome of [sqfs_meta_reader_readdir] when it
    does not fail, an entry with its inode number and inode reference, or the
    end of the directory. *)
Inductive readdir_outcome :=
| Entry (ent : sqfs_dir_entry_t) (inum : Z) (iref : Z * Z)
| EndOfDirectory.

(** The [int] the function returns according to [meta_reader.h]: zero on
    success, a positive number at the end of the directory, a negative
    [SQFS_ERROR] value on failure.  The error numbers are those of the
    library; the header only says that they are negative. *)
Definition error_code (e : error) : Z :=
  match e with
  | Allocation => -1
  | Io => -2
  | Compression => -3
  | Corrupt => -5
  | OutOfBounds => -8
  end.

Definition return_code {A : Type} (r : result (A * readdir_outcome)) : Z :=
  match r with
  | inl e => error_code e
  | inr (_, Entry _ _ _) => 0
  | inr (_, EndOfDirectory) => 1
  end.

Section Readdir.

Context `{Compressor}.

(** Modelled from the spec: [sqfs_meta_reader_read_dir_header], a thin
    decoder on top of [sqfs_meta_reader_read]. *)
Definition sqfs_meta_reader_read_dir_header (m : sqfs_meta_reader_t)
  : result (sqfs_dir_header_t * sqfs_meta_reader_t) :=
  '(bytes, m1) <- sqfs_meta_reader_read m (Z.to_nat dir_header_size) ;;
  inr (decode_dir_header bytes, m1).

(** Modelled from the spec: [sqfs_meta_reader_read_dir_ent], which validates
    the name length and the type tag before it reads the name; a malformed
    record fails without an entry being built. *)
Definition sqfs_meta_reader_read_dir_ent (m : sqfs_meta_reader_t)
  : result (sqfs_dir_entry_t * sqfs_meta_reader_t) :=
  '(fixed, m1) <- sqfs_meta_reader_read m 8 ;;
  let off := le_value (firstn 2 fixed) in
  let diff := signed16 (le_value (firstn 2 (skipn 2 fixed))) in
  let type := le_value (firstn 2 (skipn 4 fixed)) in
  let nsize := le_value (firstn 2 (skipn 6 fixed)) in
  if max_name_size <? nsize then inl Corrupt
  else if negb (known_type type) then inl Corrupt
  else
    '(chars, m2) <- sqfs_meta_reader_read m1 (Z.to_nat (nsize + 1)) ;;
    inr (mkDirEntry off diff type nsize chars, m2).

(** Modelled from the spec: [sqfs_meta_reader_readdir].  The reader is moved
    to [s->current].  With no entries left under the current header, nothing
    left of the directory is the end of the directory; otherwise a header is
    read, which sets the inode-number base, the inode block and the number of
    entries, and its size is taken off the remaining size.  Then one entry is
    read: its inode number is the base plus its delta, its inode reference is
    the inode block with its offset; the entry count and the remaining size
    are decremented and the position of the reader is written back.  A record
    that overruns the remaining size is corrupt. *)
Definition sqfs_meta_reader_readdir (m : sqfs_meta_reader_t)
    (s : sqfs_readdir_state_t)
  : result (sqfs_meta_reader_t * sqfs_readdir_state_t * readdir_outcome) :=
  m0 <- sqfs_meta_reader_seek m (block (current s))
          (Z.to_nat (offset (current s))) ;;
  if (entries s =? 0) && (size (current s) =? 0)
  then inr (m0, s, EndOfDirectory)
  else
    '(m1, s1) <-
      (if entries s =? 0
       then
         '(hdr, m1) <- sqfs_meta_reader_read_dir_header m0 ;;
         if size (current s) <? dir_header_size then inl Corrupt
         else inr (m1,
                   mkReaddir (init s)
                     (mkLocation (block (current s)) (offset (current s))
                        (size (current s) - dir_header_size))
                     (count hdr + 1) (inode_number hdr) (start_block hdr))
       else inr (m0, s)) ;;
    '(ent, m2) <- sqfs_meta_reader_read_dir_ent m1 ;;
    if size (current s1) <? dir_entry_size ent then inl Corrupt
    else
      let '(b, o) := sqfs_meta_reader_get_position m2 in
      inr (m2,
           mkReaddir (init s1)
             (mkLocation b (Z.of_nat o)
                (size (current s1) - dir_entry_size ent))
             (entries s1 - 1) (inum_base s1) (inode_block s1),
           Entry ent (wrap32 (inum_base s1 + inode_diff ent))
             (inode_block s1, entry_offset ent)).

(** [n] successive calls, with their outcomes in order. *)
Fixpoint readdir_times (n : nat) (m : sqfs_meta_reader_t)
    (s : sqfs_readdir_state_t)
  : result (sqfs_meta_reader_t * sqfs_readdir_state_t * list readdir_outcome) :=
  match n with
  | O => inr (m, s, [])
  | S n' =>
      '(m1, s1, out) <- sqfs_meta_reader_readdir m s ;;
      '(m2, s2, outs) <- readdir_times n' m1 s1 ;;
      inr (m2, s2, out :: outs)
  end.

End Readdir.

(** *** Walking a directory *)

Definition wf_header (h : sqfs_dir_header_t) : Prop :=
  0 <= count h < 2 ^ 32 /\
  0 <= start_block h < 2 ^ 32 /\
  0 <= inode_number h < 2 ^ 32.

Definition wf_entry (e : sqfs_dir_entry_t) : Prop :=
  0 <= entry_offset e < 2 ^ 16 /\
  - 2 ^ 15 <= inode_diff e < 2 ^ 15 /\
  1 <= entry_type e <= 7 /\
  0 <= name_size e <= 255 /\
  len (name e) = name_size e + 1.

Lemma firstn_exact {A : Type} (n : nat) (a b : list A) :
  List.length a = n -> firstn n (a ++ b) = a.
Proof.
  intros <-. rewrite firstn_app, firstn_all, Nat.sub_diag. simpl.
  apply app_nil_r.
Qed.

Lemma skipn_exact {A : Type} (n : nat) (a b : list A) :
  List.length a = n -> skipn n (a ++ b) = b.
Proof.
  intros <-. rewrite skipn_app, skipn_all, Nat.sub_diag. reflexivity.
Qed.

Lemma signed16_mod (d : Z) :
  - 2 ^ 15 <= d < 2 ^ 15 -> signed16 (d mod 2 ^ 16) = d.
Proof.
  intros Hd. unfold signed16.
  destruct (Z.neg_nonneg_cases d) as [Hneg|Hpos].
  - replace (d mod 2 ^ 16) with (d + 2 ^ 16).
    + destruct (Z.ltb_spec (d + 2 ^ 16) (2 ^ 15)); lia.
    + apply Z.mod_unique_pos with (q := -1); lia.
  - rewrite Z.mod_small by lia.
    destruct (Z.ltb_spec d (2 ^ 15)); lia.
Qed.

Lemma decode_encode_header (h : sqfs_dir_header_t) :
  wf_header h -> decode_dir_header (encode_dir_header h) = h.
Proof.
  intros (Hc & Hb & Hi). destruct h as [c b i]. simpl in *.
  unfold decode_dir_header, encode_dir_header. simpl count.
  simpl start_block. simpl inode_number.
  rewrite (firstn_exact 4) by apply le_bytes_length.
  rewrite (skipn_exact 4) by apply le_bytes_length.
  rewrite (firstn_exact 4) by apply le_bytes_length.
  rewrite app_assoc.
  rewrite (skipn_exact 8) by (rewrite length_app, !le_bytes_length; reflexivity).
  rewrite firstn_all2 by (rewrite le_bytes_length; lia).
  rewrite !le_value_le_bytes by (change (256 ^ Z.of_nat 4) with (2 ^ 32); lia).
  reflexivity.
Qed.

Lemma encode_dir_header_length (h : sqfs_dir_header_t) :
  List.length (encode_dir_header h) = Z.to_nat dir_header_size.
Proof.
  unfold encode_dir_header. rewrite !length_app, !le_bytes_length. reflexivity.
Qed.

Definition entry_fixed (e : sqfs_dir_entry_t) : list byte :=
  le_bytes 2 (entry_offset e) ++ le_bytes 2 (inode_diff e mod 2 ^ 16) ++
  le_bytes 2 (entry_type e) ++ le_bytes 2 (name_size e).

Lemma encode_dir_entry_split (e : sqfs_dir_entry_t) :
  encode_dir_entry e = entry_fixed e ++ name e.
Proof. unfold encode_dir_entry, entry_fixed. now rewrite <- !app_assoc. Qed.

Lemma entry_fixed_length (e : sqfs_dir_entry_t) :
  List.length (entry_fixed e) = 8%nat.
Proof.
  unfold entry_fixed. rewrite !length_app, !le_bytes_length. reflexivity.
Qed.

Lemma encode_dir_entry_len (e : sqfs_dir_entry_t) :
  wf_entry e -> len (encode_dir_entry e) = dir_entry_size e.
Proof.
  intros (_ & _ & _ & _ & Hn). rewrite encode_dir_entry_split.
  unfold len in *. rewrite length_app, entry_fixed_length.
  unfold dir_entry_size. lia.
Qed.

Lemma entry_fixed_decode (e : sqfs_dir_entry_t) :
  wf_entry e ->
  le_value (firstn 2 (entry_fixed e)) = entry_offset e /\
  signed16 (le_value (firstn 2 (skipn 2 (entry_fixed e)))) = inode_diff e /\
  le_value (firstn 2 (skipn 4 (entry_fixed e))) = entry_type e /\
  le_value (firstn 2 (skipn 6 (entry_fixed e))) = name_size e.
Proof.
  intros (Ho & Hd & Ht & Hs & _). unfold entry_fixed.
  assert (Hm : 0 <= inode_diff e mod 2 ^ 16 < 2 ^ 16)
    by (apply Z.mod_pos_bound; lia).
  repeat split.
  - rewrite (firstn_exact 2) by apply le_bytes_length.
    apply le_value_le_bytes. change (256 ^ Z.of_nat 2) with (2 ^ 16). lia.
  - rewrite (skipn_exact 2) by apply le_bytes_length.
    rewrite (firstn_exact 2) by apply le_bytes_length.
    rewrite le_value_le_bytes
      by (change (256 ^ Z.of_nat 2) with (2 ^ 16); lia).
    now apply signed16_mod.
  - rewrite app_assoc.
    rewrite (skipn_exact 4)
      by (rewrite length_app, !le_bytes_length; reflexivity).
    rewrite (firstn_exact 2) by apply le_bytes_length.
    apply le_value_le_bytes. change (256 ^ Z.of_nat 2) with (2 ^ 16). lia.
  - rewrite !app_assoc.
    rewrite (skipn_exact 6)
      by (rewrite !length_app, !le_bytes_length; reflexivity).
    rewrite firstn_all2 by (rewrite le_bytes_length; lia).
    apply le_value_le_bytes. change (256 ^ Z.of_nat 2) with (2 ^ 16). lia.
Qed.

(** The stored records of a directory with two headers, the first with
    three entries and the second with two. *)
Definition two_header_dir (h1 : sqfs_dir_header_t)
    (e1 e2 e3 : sqfs_dir_entry_t) (h2 : sqfs_dir_header_t)
    (e4 e5 : sqfs_dir_entry_t) : list byte :=
  encode_dir_header h1 ++ encode_dir_entry e1 ++ encode_dir_entry e2 ++
  encode_dir_entry e3 ++
  encode_dir_header h2 ++ encode_dir_entry e4 ++ encode_dir_entry e5.

(** What a call yields for the entry [e] stored under the header [h]. *)
Definition entry_under (h : sqfs_dir_header_t) (e : sqfs_dir_entry_t)
  : readdir_outcome :=
  Entry e (wrap32 (inode_number h + inode_diff e))
    (start_block h, entry_offset e).

Section Walk.

Context `{Compressor}.

Variable file : list byte.
Variables lo hi : Z.

Hypothesis file_size_u64 : len file < 2 ^ 64.

(** The state [s] stands at a place of the image from which the directory
    records [bytes] follow, and [bytes] is all that is left of the
    directory. *)
Definition at_dir (s : sqfs_readdir_state_t) (bytes rest : list byte) : Prop :=
  stream_at file lo hi (block (current s)) (Z.to_nat (offset (current s)))
    (bytes ++ rest) /\
  size (current s) = len bytes.

Lemma read_header_stream (m : sqfs_meta_reader_t) (h : sqfs_dir_header_t)
    (rest : list byte) :
  wf_header h ->
  positioned file lo hi m (encode_dir_header h ++ rest) ->
  exists m',
    sqfs_meta_reader_read_dir_header m = inr (h, m') /\
    positioned file lo hi m' rest.
Proof.
  intros Hwf Hpos.
  destruct (read_stream file lo hi file_size_u64 m _ _ Hpos)
    as (m' & Hread & Hpos').
  exists m'. split; [|assumption].
  unfold sqfs_meta_reader_read_dir_header, bind.
  rewrite <- (encode_dir_header_length h), Hread.
  now rewrite decode_encode_header.
Qed.

Lemma read_entry_stream (m : sqfs_meta_reader_t) (e : sqfs_dir_entry_t)
    (rest : list byte) :
  wf_entry e ->
  positioned file lo hi m (encode_dir_entry e ++ rest) ->
  exists m',
    sqfs_meta_reader_read_dir_ent m = inr (e, m') /\
    positioned file lo hi m' rest.
Proof.
  intros Hwf Hpos. rewrite encode_dir_entry_split, <- app_assoc in Hpos.
  destruct (read_stream file lo hi file_size_u64 m _ _ Hpos)
    as (m1 & Hread1 & Hpos1).
  destruct (read_stream file lo hi file_size_u64 m1 _ _ Hpos1)
    as (m2 & Hread2 & Hpos2).
  exists m2. split; [|assumption].
  destruct (entry_fixed_decode e Hwf) as (Ho & Hd & Ht & Hs).
  pose proof Hwf as (_ & _ & Htype & Hsize & Hname).
  unfold sqfs_meta_reader_read_dir_ent, bind.
  rewrite entry_fixed_length in Hread1. rewrite Hread1.
  rewrite Ho, Hd, Ht, Hs.
  unfold max_name_size, known_type.
  destruct (Z.ltb_spec 255 (name_size e)); [lia|].
  destruct (Z.leb_spec 1 (entry_type e)); [|lia].
  destruct (Z.leb_spec (entry_type e) 7); [|lia]. simpl.
  replace (Z.to_nat (name_size e + 1)) with (List.length (name e))
    by (unfold len in Hname; lia).
  rewrite Hread2. now destruct e.
Qed.

Lemma entry_step (m : sqfs_meta_reader_t) (s : sqfs_readdir_state_t)
    (e : sqfs_dir_entry_t) (more rest : list byte) :
  reader_on file lo hi m ->
  entries s <> 0 ->
  wf_entry e ->
  at_dir s (encode_dir_entry e ++ more) rest ->
  exists m' s',
    sqfs_meta_reader_readdir m s =
      inr (m', s',
           Entry e (wrap32 (inum_base s + inode_diff e))
             (inode_block s, entry_offset e)) /\
    reader_on file lo hi m' /\
    at_dir s' more rest /\
    entries s' = entries s - 1 /\
    init s' = init s /\
    inum_base s' = inum_base s /\
    inode_block s' = inode_block s.
Proof.
  intros Hon Hent Hwf [Hstream Hsize].
  destruct (seek_stream file lo hi m _ _ _ Hon Hstream)
    as (m0 & Hseek & Hpos0 & _).
  rewrite <- app_assoc in Hpos0.
  destruct (read_entry_stream m0 e _ Hwf Hpos0) as (m2 & Hread & Hpos2).
  pose proof (encode_dir_entry_len e Hwf) as Hlen.
  unfold sqfs_meta_reader_readdir, bind. rewrite Hseek.
  destruct (Z.eqb_spec (entries s) 0) as [Hz|_]; [contradiction|].
  simpl. rewrite Hread.
  destruct (Z.ltb_spec (size (current s)) (dir_entry_size e)) as [Hlt|_].
  { rewrite Hsize in Hlt. unfold len in *. rewrite length_app in Hlt. lia. }
  simpl. eexists. eexists. split; [reflexivity|].
  destruct Hpos2 as (Hon2 & _ & Hstream2).
  split; [assumption|]. split; [|simpl; auto].
  split; simpl.
  - now rewrite Nat2Z.id.
  - rewrite Hsize. unfold len in *. rewrite length_app. lia.
Qed.

Lemma header_step (m : sqfs_meta_reader_t) (s : sqfs_readdir_state_t)
    (h : sqfs_dir_header_t) (e : sqfs_dir_entry_t) (more rest : list byte) :
  reader_on file lo hi m ->
  entries s = 0 ->
  wf_header h ->
  wf_entry e ->
  at_dir s (encode_dir_header h ++ encode_dir_entry e ++ more) rest ->
  exists m' s',
    sqfs_meta_reader_readdir m s =
      inr (m', s',
           Entry e (wrap32 (inode_number h + inode_diff e))
             (start_block h, entry_offset e)) /\
    reader_on file lo hi m' /\
    at_dir s' more rest /\
    entries s' = count h /\
    init s' = init s /\
    inum_base s' = inode_number h /\
    inode_block s' = start_block h.
Proof.
  intros Hon Hent Hwfh Hwf [Hstream Hsize].
  destruct (seek_stream file lo hi m _ _ _ Hon Hstream)
    as (m0 & Hseek & Hpos0 & _).
  rewrite <- !app_assoc in Hpos0.
  destruct (read_header_stream m0 h _ Hwfh Hpos0) as (m1 & Hreadh & Hpos1).
  destruct (read_entry_stream m1 e _ Hwf Hpos1) as (m2 & Hread & Hpos2).
  pose proof (encode_dir_entry_len e Hwf) as Hlen.
  pose proof (encode_dir_header_length h) as Hlenh.
  assert (Htotal : size (current s) =
                   dir_header_size + dir_entry_size e + len more).
  { rewrite Hsize. unfold len in *. rewrite !length_app, Hlenh.
    unfold dir_header_size in *. lia. }
  assert (Hnn : 0 <= dir_entry_size e /\ 0 <= len more).
  { rewrite <- Hlen. unfold len. lia. }
  unfold sqfs_meta_reader_readdir, bind. rewrite Hseek, Hent.
  destruct (Z.eqb_spec (size (current s)) 0) as [Hz|_].
  { unfold dir_header_size in *. lia. }
  simpl. rewrite Hreadh.
  destruct (Z.ltb_spec (size (current s)) dir_header_size) as [Hlt|_]; [lia|].
  rewrite Hread. simpl.
  destruct (Z.ltb_spec (size (current s) - dir_header_size)
                       (dir_entry_size e)) as [Hlt|_]; [lia|].
  simpl. eexists. eexists. split; [reflexivity|].
  destruct Hpos2 as (Hon2 & _ & Hstream2).
  split; [assumption|]. split; [|simpl; repeat split; auto; lia].
  split; simpl.
  - now rewrite Nat2Z.id.
  - lia.
Qed.

Lemma end_step (m : sqfs_meta_reader_t) (s : sqfs_readdir_state_t)
    (rest : list byte) :
  reader_on file lo hi m ->
  entries s = 0 ->
  at_dir s [] rest ->
  exists m',
    sqfs_meta_reader_readdir m s = inr (m', s, EndOfDirectory) /\
    reader_on file lo hi m'.
Proof.
  intros Hon Hent [Hstream Hsize].
  destruct (seek_stream file lo hi m _ _ _ Hon Hstream)
    as (m0 & Hseek & Hpos0 & _).
  exists m0. split; [|apply Hpos0].
  unfold sqfs_meta_reader_readdir, bind. rewrite Hseek, Hent, Hsize.
  reflexivity.
Qed.

Lemma readdir_times_cons (n : nat) (m m1 m2 : sqfs_meta_reader_t)
    (s s1 s2 : sqfs_readdir_state_t) (out : readdir_outcome)
    (outs : list readdir_outcome) :
  sqfs_meta_reader_readdir m s = inr (m1, s1, out) ->
  readdir_times n m1 s1 = inr (m2, s2, outs) ->
  readdir_times (S n) m s = inr (m2, s2, out :: outs).
Proof. intros H1 H2. simpl. unfold bind. now rewrite H1, H2. Qed.

Lemma at_dir_current (s s' : sqfs_readdir_state_t) (bytes rest : list byte) :
  current s' = current s -> at_dir s bytes rest -> at_dir s' bytes rest.
Proof. unfold at_dir. now intros ->. Qed.

Section TwoHeaders.

Variables h1 h2 : sqfs_dir_header_t.
Variables e1 e2 e3 e4 e5 : sqfs_dir_entry_t.

Hypothesis h1_wf : wf_header h1.
Hypothesis h2_wf : wf_header h2.
Hypothesis h1_three : count h1 + 1 = 3.
Hypothesis h2_two : count h2 + 1 = 2.
Hypothesis e1_wf : wf_entry e1.
Hypothesis e2_wf : wf_entry e2.
Hypothesis e3_wf : wf_entry e3.
Hypothesis e4_wf : wf_entry e4.
Hypothesis e5_wf : wf_entry e5.

Definition five_entries : list readdir_outcome :=
  [entry_under h1 e1; entry_under h1 e2; entry_under h1 e3;
   entry_under h2 e4; entry_under h2 e5].

Lemma two_header_pass (m : sqfs_meta_reader_t) (s : sqfs_readdir_state_t)
    (rest : list byte) :
  reader_on file lo hi m ->
  entries s = 0 ->
  at_dir s (two_header_dir h1 e1 e2 e3 h2 e4 e5) rest ->
  exists m5 s5,
    readdir_times 5 m s = inr (m5, s5, five_entries) /\
    reader_on file lo hi m5 /\
    entries s5 = 0 /\
    at_dir s5 [] rest /\
    init s5 = init s.
Proof.
  intros Hon Hent Hdir. unfold two_header_dir in Hdir.
  destruct (header_step m s h1 e1 _ rest Hon Hent h1_wf e1_wf Hdir)
    as (m1 & s1 & Hr1 & Hon1 & Hdir1 & Hn1 & Hi1 & Hb1 & Hk1).
  destruct (entry_step m1 s1 e2 _ rest Hon1 ltac:(lia) e2_wf Hdir1)
    as (m2 & s2 & Hr2 & Hon2 & Hdir2 & Hn2 & Hi2 & Hb2 & Hk2).
  destruct (entry_step m2 s2 e3 _ rest Hon2 ltac:(lia) e3_wf Hdir2)
    as (m3 & s3 & Hr3 & Hon3 & Hdir3 & Hn3 & Hi3 & Hb3 & Hk3).
  destruct (header_step m3 s3 h2 e4 _ rest Hon3 ltac:(lia) h2_wf e4_wf Hdir3)
    as (m4 & s4 & Hr4 & Hon4 & Hdir4 & Hn4 & Hi4 & Hb4 & Hk4).
  assert (Hlast : at_dir s4 (encode_dir_entry e5 ++ []) rest)
    by now rewrite app_nil_r.
  destruct (entry_step m4 s4 e5 _ rest Hon4 ltac:(lia) e5_wf Hlast)
    as (m5 & s5 & Hr5 & Hon5 & Hdir5 & Hn5 & Hi5 & Hb5 & Hk5).
  exists m5, s5.
  split; [|split; [assumption|split; [lia|split; [exact Hdir5|congruence]]]].
  rewrite Hb1, Hk1 in Hr2.
  rewrite Hb2, Hk2, Hb1, Hk1 in Hr3.
  rewrite Hb4, Hk4 in Hr5.
  unfold five_entries, entry_under.
  eapply readdir_times_cons; [exact Hr1|].
  eapply readdir_times_cons; [exact Hr2|].
  eapply readdir_times_cons; [exact Hr3|].
  eapply readdir_times_cons; [exact Hr4|].
  eapply readdir_times_cons; [exact Hr5|].
  reflexivity.
Qed.

(** C6.  On a directory stored as a header with three entries followed by a
    header with two, five calls against an initialised state yield the five
    entries in stored order, each with the inode number of its own header's
    base plus its delta; the sixth call returns the end-of-directory signal,
    a positive return value and no error; after
    [sqfs_readdir_state_reset] five calls yield the same five entries
    again. *)
Theorem readdir_two_headers (m : sqfs_meta_reader_t)
    (s : sqfs_readdir_state_t) (rest : list byte) :
  reader_on file lo hi m ->
  entries s = 0 ->
  current s = init s ->
  at_dir s (two_header_dir h1 e1 e2 e3 h2 e4 e5) rest ->
  exists m5 s5 m6 m11 s11,
    readdir_times 5 m s = inr (m5, s5, five_entries) /\
    sqfs_meta_reader_readdir m5 s5 = inr (m6, s5, EndOfDirectory) /\
    0 < return_code (sqfs_meta_reader_readdir m5 s5) /\
    readdir_times 5 m6 (sqfs_readdir_state_reset s5) =
      inr (m11, s11, five_entries).
Proof.
  intros Hon Hent Hinit Hdir.
  destruct (two_header_pass m s rest Hon Hent Hdir)
    as (m5 & s5 & Hfive & Hon5 & Hent5 & Hdir5 & Hinit5).
  destruct (end_step m5 s5 rest Hon5 Hent5 Hdir5) as (m6 & Hend & Hon6).
  assert (Hagain : at_dir (sqfs_readdir_state_reset s5)
                     (two_header_dir h1 e1 e2 e3 h2 e4 e5) rest).
  { apply at_dir_current with (s := s); [|assumption].
    simpl. now rewrite Hinit5, Hinit. }
  destruct (two_header_pass m6 (sqfs_readdir_state_reset s5) rest Hon6
              eq_refl Hagain) as (m11 & s11 & Hfive' & _).
  exists m5, s5, m6, m11, s11. rewrite Hend. simpl. repeat split; auto.
Qed.

End TwoHeaders.

End Walk.

(** *** A directory to walk *)

Definition dir_h1 : sqfs_dir_header_t := mkDirHeader 2 0 100.
Definition dir_h2 : sqfs_dir_header_t := mkDirHeader 1 1 200.
Definition dir_e1 : sqfs_dir_entry_t := mkDirEntry 0 0 2 0 [x61].
Definition dir_e2 : sqfs_dir_entry_t := mkDirEntry 32 1 2 0 [x62].
Definition dir_e3 : sqfs_dir_entry_t := mkDirEntry 64 (-1) 1 1 [x63; x64].
Definition dir_e4 : sqfs_dir_entry_t := mkDirEntry 0 0 1 0 [x65].
Definition dir_e5 : sqfs_dir_entry_t := mkDirEntry 96 5 3 2 [x66; x67; x68].

Definition dir_bytes : list byte :=
  two_header_dir dir_h1 dir_e1 dir_e2 dir_e3 dir_h2 dir_e4 dir_e5.

(** The directory in one block that is stored uncompressed. *)
Definition dir_image : list byte :=
  encode_header (len dir_bytes) true ++ dir_bytes.

Definition dir_state : sqfs_readdir_state_t :=
  mkReaddir (mkLocation 0 0 (len dir_bytes)) (mkLocation 0 0 (len dir_bytes))
    0 0 0.

Definition dir_reader : sqfs_meta_reader_t :=
  sqfs_meta_reader_create dir_image 0 (len dir_image).

Example dir_six_calls :
  match readdir_times 6 dir_reader dir_state with
  | inr (_, _, outs) => outs
  | inl _ => []
  end =
  [Entry dir_e1 100 (0, 0); Entry dir_e2 101 (0, 32); Entry dir_e3 99 (0, 64);
   Entry dir_e4 200 (1, 0); Entry dir_e5 205 (1, 96); EndOfDirectory].
Proof. vm_compute. reflexivity. Qed.

(** C6 on that directory. *)
Lemma readdir_two_headers_example :
  exists m5 s5 m6 m11 s11,
    readdir_times 5 dir_reader dir_state =
      inr (m5, s5, five_entries dir_h1 dir_h2 dir_e1 dir_e2 dir_e3 dir_e4
                     dir_e5) /\
    sqfs_meta_reader_readdir m5 s5 = inr (m6, s5, EndOfDirectory) /\
    0 < return_code (sqfs_meta_reader_readdir m5 s5) /\
    readdir_times 5 m6 (sqfs_readdir_state_reset s5) =
      inr (m11, s11, five_entries dir_h1 dir_h2 dir_e1 dir_e2 dir_e3 dir_e4
                       dir_e5).
Proof.
  refine (readdir_two_headers dir_image 0 (len dir_image) _
            dir_h1 dir_h2 dir_e1 dir_e2 dir_e3 dir_e4 dir_e5
            _ _ _ _ _ _ _ _ _ dir_reader dir_state [] _ _ _ _).
  - vm_compute. reflexivity.
  - unfold wf_header. simpl. lia.
  - unfold wf_header. simpl. lia.
  - reflexivity.
  - reflexivity.
  - unfold wf_entry, len. simpl. lia.
  - unfold wf_entry, len. simpl. lia.
  - unfold wf_entry, len. simpl. lia.
  - unfold wf_entry, len. simpl. lia.
  - unfold wf_entry, len. simpl. lia.
  - apply create_on.
  - reflexivity.
  - reflexivity.
  - split; [|reflexivity].
    exists dir_bytes, (len dir_bytes), [], (len dir_image).
    split; [vm_compute; split; [discriminate|reflexivity]|].
    split; [vm_compute; reflexivity|].
    split; [vm_compute; reflexivity|].
    split; [apply Nat.le_0_l|reflexivity].
Defined.

End Meta.
